(** * Yugioh Timeless: the tournament engine of [timeless.py]

    A shallow embedding of the functions of [timeless.py]
    ([supervised_input], [random_timeless_square], the [Duelist] class,
    [calculate_prizes] and [timeless]) with the properties of the
    specification stated over them.

    Conventions of the embedding.
    - A Python call that raises (EOFError of [input], ValueError of [int]
      or of a tuple unpacking, IndexError of a subscript) is [None].
    - Standard input is the list of the lines still to be read; [input]
      pops the first one and raises EOFError on the empty list.
    - The random generator of NumPy is an oracle: [rng k] is the result of
      the [k]-th call of [np.random.permutation(4)], and the natural number
      given to [randint] stands for the entropy of one call.
    - The [while True] loop of [random_timeless_square] is run with a
      fuel; running out of fuel ([None]) stands for a loop that is still
      running. The loop of [supervised_input] ends with the input, and the
      loop of [enter_unique_duelists] is given the number of lines as fuel,
      which it cannot exhaust.
    - Strings are ASCII; [str.isalpha], [str.capitalize] and [str.split]
      are modelled on ASCII letters and the whitespace below.
    - [calculate_prizes] is given in exact rationals and, as
      [calculate_prizes_float], in the binary64 floats of Python.
    - The array [duelists] of [timeless] is the list of its four objects,
      one object per slot as [enter_unique_duelists] creates them, so that
      [duelists[i].wins += 1] replaces the record of slot [i].
    - What is printed is left out, except the table of pairings of a
      round, which is kept in the record of the round. *)

From Stdlib Require Import QArith Ascii.
From stdpp Require Import base option list strings sorting numbers.

Local Close Scope Q_scope.
Local Open Scope string_scope.
Local Open Scope list_scope.
Local Open Scope nat_scope.

(** ** Python strings *)

Module PyStr.

Definition code (c : ascii) : nat := nat_of_ascii c.

(** [str.isspace] on ASCII: tab to carriage return, the four separators
    FS, GS, RS and US, and the space. *)
Definition isspace (c : ascii) : bool :=
  ((9 <=? code c) && (code c <=? 13))
  || ((28 <=? code c) && (code c <=? 31))
  || (code c =? 32).

Definition isupper (c : ascii) : bool := (65 <=? code c) && (code c <=? 90).
Definition islower (c : ascii) : bool := (97 <=? code c) && (code c <=? 122).
Definition isalpha_char (c : ascii) : bool := isupper c || islower c.
Definition isdigit (c : ascii) : bool := (48 <=? code c) && (code c <=? 57).

Definition upper_char (c : ascii) : ascii :=
  if islower c then ascii_of_nat (code c - 32) else c.
Definition lower_char (c : ascii) : ascii :=
  if isupper c then ascii_of_nat (code c + 32) else c.

Fixpoint map_chars (f : ascii -> ascii) (s : string) : string :=
  match s with
  | EmptyString => EmptyString
  | String c s' => String (f c) (map_chars f s')
  end.

Fixpoint all_chars (p : ascii -> bool) (s : string) : bool :=
  match s with
  | EmptyString => true
  | String c s' => p c && all_chars p s'
  end.

(** [s.capitalize()] *)
Definition capitalize (s : string) : string :=
  match s with
  | EmptyString => EmptyString
  | String c s' => String (upper_char c) (map_chars lower_char s')
  end.

(** [s.split()]: the maximal runs of non-whitespace characters.
    [cur] is the word being read. *)
Fixpoint split_from (cur : string) (s : string) : list string :=
  match s with
  | EmptyString => if String.eqb cur "" then [] else [cur]
  | String c s' =>
      if isspace c
      then (if String.eqb cur "" then split_from "" s'
            else cur :: split_from "" s')
      else split_from (String.append cur (String c "")) s'
  end.

Definition split (s : string) : list string := split_from "" s.

(** [string.capwords(s)]: [' '.join(x.capitalize() for x in s.split())] *)
Definition capwords (s : string) : string :=
  String.concat " " (map capitalize (split s)).

(** [s.replace(' ', '')] *)
Fixpoint remove_spaces (s : string) : string :=
  match s with
  | EmptyString => EmptyString
  | String c s' =>
      if (code c =? 32) then remove_spaces s' else String c (remove_spaces s')
  end.

(** [s.isalpha()]: non-empty and letters only. *)
Definition isalpha (s : string) : bool :=
  negb (String.eqb s "") && all_chars isalpha_char s.

(** The whitespace that [int] skips at both ends of its argument: tab to
    carriage return and the space. The separators FS, GS, RS and US are
    whitespace for [str.isspace] and [str.split] and not for [int]. *)
Definition isspace_int (c : ascii) : bool :=
  ((9 <=? code c) && (code c <=? 13)) || (code c =? 32).

Fixpoint lstrip (s : string) : string :=
  match s with
  | EmptyString => EmptyString
  | String c s' => if isspace_int c then lstrip s' else s
  end.

Fixpoint rstrip (s : string) : string :=
  match s with
  | EmptyString => EmptyString
  | String c s' =>
      match rstrip s' with
      | EmptyString => if isspace_int c then EmptyString else String c EmptyString
      | r => String c r
      end
  end.

(** The digits of an integer literal: groups of decimal digits separated
    by single underscores. [after_digit] tells whether the previous
    character was a digit. *)
Fixpoint digits (s : string) (acc : Z) (after_digit : bool) : option Z :=
  match s with
  | EmptyString => if after_digit then Some acc else None
  | String c s' =>
      if isdigit c
      then digits s' (10 * acc + Z.of_nat (code c - 48))%Z true
      else if (code c =? 95) && after_digit then digits s' acc false
      else None
  end.

(** [int(s)]: [None] is ValueError. The limit recent versions of Python
    put on the number of digits is not modelled. *)
Definition int (s : string) : option Z :=
  match rstrip (lstrip s) with
  | String "+" s' => digits s' 0%Z false
  | String "-" s' => Z.opp <$> digits s' 0%Z false
  | s' => digits s' 0%Z false
  end.

End PyStr.

(** ** [supervised_input] *)

(** The keys of the dictionary [condition_checks]. *)
Inductive condition : Type :=
| choose_from
| alphabetical
| less_than_30_characters
| integer
| multiple_of_5.

Definition _is_string_of_integer (input_string : string) : bool :=
  match PyStr.int input_string with
  | Some _ => true
  | None => false
  end.

(** [condition_checks.get(condition)(user_input)]. The check
    ['multiple_of_5'] calls [int] itself and so raises on a string that is
    not an integer literal. *)
Definition condition_checks (c : condition) (options : list string)
    (input_string : string) : option bool :=
  match c with
  | choose_from => Some (bool_decide (input_string ∈ options))
  | alphabetical => Some (PyStr.isalpha (PyStr.remove_spaces input_string))
  | less_than_30_characters => Some (String.length input_string <? 30)
  | integer => Some (_is_string_of_integer input_string)
  | multiple_of_5 =>
      n ← PyStr.int input_string;
      Some ((n mod 5 =? 0)%Z && (0 <=? n)%Z)
  end.

(** The [for condition in conditions] loop: the value of [check] when the
    loop is left, the first failing condition breaking out of it. *)
Fixpoint check_conditions (conditions : list condition) (options : list string)
    (user_input : string) : option bool :=
  match conditions with
  | [] => Some true
  | c :: cs =>
      condition_satisfied ← condition_checks c options user_input;
      if condition_satisfied : bool
      then check_conditions cs options user_input
      else Some false
  end.

(** [supervised_input(prompt, conditions, options)] on the lines [stdin]:
    the accepted value and the lines left. *)
Fixpoint supervised_input (conditions : list condition) (options : list string)
    (stdin : list string) : option (string * list string) :=
  match stdin with
  | [] => None
  | line :: rest =>
      let user_input := PyStr.capwords line in
      check ← check_conditions conditions options user_input;
      if check : bool
      then Some (user_input, rest)
      else supervised_input conditions options rest
  end.

(** The conditions [enter_tournament_information] puts on the entry fee. *)
Definition entry_fee_conditions : list condition :=
  [integer; multiple_of_5; less_than_30_characters].

Definition entry_fee_check (line : string) : option bool :=
  check_conditions entry_fee_conditions [] (PyStr.capwords line).

(** ** [random_timeless_square] *)

(** A NumPy array of 4 rows of 4 integers, as the list of its rows. *)
Definition square : Type := list (list nat).

(** [sq[i, j]] where the indices are known to be in range. *)
Definition item (sq : square) (i j : nat) : nat := nth j (nth i sq []) 0.

(** [sq.diagonal()]: the cells (0,0), (1,1), ... as long as both indices
    are in range. *)
Fixpoint diagonal_from (i : nat) (sq : square) : list nat :=
  match sq with
  | [] => []
  | row :: rows =>
      match row !! i with
      | Some v => v :: diagonal_from (S i) rows
      | None => []
      end
  end.

Definition diagonal (sq : square) : list nat := diagonal_from 0 sq.

(** [np.fliplr(sq)] *)
Definition fliplr (sq : square) : square := map (@rev nat) sq.

(** [len(set(values))] *)
Definition len_set (values : list nat) : nat := length (remove_dups values).

Definition unique_diagonal (sq : square) : bool :=
  len_set (diagonal sq) =? 4.
Definition unique_antidiagonal (sq : square) : bool :=
  len_set (diagonal (fliplr sq)) =? 4.
Definition unique_offdiagonal (sq : square) : bool :=
  len_set [item sq 0 1; item sq 1 0; item sq 2 3; item sq 3 2] =? 4.

Definition is_timeless (sq : square) : bool :=
  unique_diagonal sq && unique_antidiagonal sq && unique_offdiagonal sq.

(** [np.array([np.random.permutation(4) for _ in range(4)])] when [k] calls
    of [np.random.permutation] have been made before. *)
Definition draw_square (rng : nat -> list nat) (k : nat) : square :=
  [rng k; rng (k + 1); rng (k + 2); rng (k + 3)].

(** The [while True] loop of [random_timeless_square], entered when [k]
    permutations have been drawn: the square returned and the number of
    permutations drawn by then. There is no other way out of the loop than
    the [return]. *)
Fixpoint random_timeless_square (fuel : nat) (rng : nat -> list nat) (k : nat)
    : option (square * nat) :=
  match fuel with
  | 0 => None
  | S fuel' =>
      let random_square := draw_square rng k in
      if is_timeless random_square
      then Some (random_square, k + 4)
      else random_timeless_square fuel' rng (k + 4)
  end.

(** What NumPy promises of [np.random.permutation(4)]. *)
Definition permutation_source (rng : nat -> list nat) : Prop :=
  forall k, rng k ≡ₚ [0; 1; 2; 3].

(** The [n]-th square drawn by a call of [random_timeless_square]. *)
Definition sample (rng : nat -> list nat) (n : nat) : square :=
  draw_square rng (4 * n).

(** The cells at the given coordinates. *)
Definition cells (sq : square) (coords : list (nat * nat)) : list nat :=
  map (fun '(i, j) => item sq i j) coords.

Definition column (sq : square) (j : nat) : list nat :=
  map (fun row => nth j row 0) sq.

Definition main_diagonal : list (nat * nat) := [(0, 0); (1, 1); (2, 2); (3, 3)].
Definition anti_diagonal : list (nat * nat) := [(0, 3); (1, 2); (2, 1); (3, 0)].
Definition off_diagonal : list (nat * nat) := [(0, 1); (1, 0); (2, 3); (3, 2)].
Definition far_diagonal : list (nat * nat) := [(0, 2); (2, 0); (1, 3); (3, 1)].

(** The exhaustive test, over the 24^4 arrays of four permutations, that a
    timeless array holds four distinct values in the cells (0,2), (2,0),
    (1,3), (3,1) as well. *)
Definition far_diagonal_check : bool :=
  let rows := permutations [0; 1; 2; 3] in
  forallb (fun r0 => forallb (fun r1 => forallb (fun r2 => forallb (fun r3 =>
    implb (is_timeless [r0; r1; r2; r3])
          (bool_decide (NoDup (cells [r0; r1; r2; r3] far_diagonal))))
    rows) rows) rows) rows.

(** The square of the docstring of [random_timeless_square] and a random
    source that draws it first. *)
Definition docstring_square : square :=
  [[2; 0; 1; 3]; [3; 1; 2; 0]; [2; 0; 3; 1]; [1; 3; 2; 0]].

Definition docstring_rng (k : nat) : list nat :=
  nth k docstring_square [0; 1; 2; 3].

(** A random source that alternates between two permutations: every square
    drawn from it has 0 twice on its diagonal. *)
Definition stuck_rng (k : nat) : list nat :=
  if Nat.even k then [0; 1; 2; 3] else [1; 0; 2; 3].

(** ** The [Duelist] class *)

(** A [Duelist] object: [ident] is the identity of the object (what [is]
    compares), [name] and [wins] are its attributes. *)
Record Duelist : Type := mkDuelist { ident : nat; name : string; wins : Z }.

(** [Duelist(name)] for the object allocated at [addr]. *)
Definition Duelist_init (addr : nat) (name_ : string) : Duelist :=
  {| ident := addr; name := PyStr.capwords name_; wins := 0 |}.

(** The Python values a duelist is compared with. *)
Inductive value : Type :=
| VDuelist (d : Duelist)
| VInt (k : Z)
| VStr (s : string)
| VNone.

(** The result of a rich comparison method. *)
Inductive comparison : Type :=
| Is (b : bool)
| NotImplemented.

(** [Duelist.__lt__] *)
Definition Duelist_lt (self : Duelist) (other : value) : comparison :=
  match other with
  | VDuelist o => Is (wins self <? wins o)%Z
  | _ => NotImplemented
  end.

(** [Duelist.__eq__] *)
Definition Duelist_eq (self : Duelist) (other : value) : comparison :=
  match other with
  | VDuelist o => Is (ident self =? ident o)
  | VInt k => Is (wins self =? k)%Z
  | VStr s => Is (String.eqb (name self) s)
  | VNone => NotImplemented
  end.

(** The truth value of [a == b] and of [a < b] as an [if] sees it, where
    the method answers. *)
Definition truth (c : comparison) : bool :=
  match c with
  | Is b => b
  | NotImplemented => false
  end.

(** [duelist in strings], for a list of strings. *)
Definition Duelist_in (d : Duelist) (strings : list string) : bool :=
  existsb (fun s => truth (Duelist_eq d (VStr s))) strings.

(** [duelists == ints] for a list of duelists and a list of integers. *)
Fixpoint list_eq (duelists : list Duelist) (ints : list Z) : bool :=
  match duelists, ints with
  | [], [] => true
  | d :: ds, k :: ks => truth (Duelist_eq d (VInt k)) && list_eq ds ks
  | _, _ => false
  end.

(** [for i in indices: body], a body that raises ending the loop. *)
Fixpoint for_each {S : Type} (body : S -> nat -> option S) (s : S)
    (indices : list nat) : option S :=
  match indices with
  | [] => Some s
  | i :: rest => s' ← body s i; for_each body s' rest
  end.

(** The list comprehension of [enter_unique_duelists]: [n] names are read
    and [n] objects created, the first at [addr]. *)
Fixpoint enter_candidates (n : nat) (addr : nat) (stdin : list string)
    : option (list Duelist * list string) :=
  match n with
  | 0 => Some ([], stdin)
  | S n' =>
      '(name_, rest) ← supervised_input [alphabetical; less_than_30_characters] [] stdin;
      '(candidates, rest') ← enter_candidates n' (S addr) rest;
      Some (Duelist_init addr name_ :: candidates, rest')
  end.

(** [{name for name in candidate_names if candidate_names.count(name) > 1}] *)
Definition duplicates (candidate_names : list string) : list string :=
  remove_dups
    (filter (fun name_ => 1 < count_occ String.string_dec candidate_names name_)
            candidate_names).

(** The [while True] loop of [Duelist.enter_unique_duelists]. Each
    iteration reads at least four lines, so that [fuel] bounds the
    iterations as soon as it bounds the lines of [stdin]. *)
Fixpoint enter_unique_duelists_loop (fuel : nat) (addr : nat)
    (stdin : list string) : option (list Duelist * list string) :=
  match fuel with
  | 0 => None
  | S fuel' =>
      '(duelist_candidates, rest) ← enter_candidates 4 addr stdin;
      let candidate_names := map name duelist_candidates in
      let duplicate_names := duplicates candidate_names in
      if bool_decide (duplicate_names = [])
      then Some (duelist_candidates, rest)
      else enter_unique_duelists_loop fuel' (addr + 4) rest
  end.

(** [Duelist.enter_unique_duelists()] when [addr] objects exist. *)
Definition enter_unique_duelists (addr : nat) (stdin : list string)
    : option (list Duelist * list string) :=
  enter_unique_duelists_loop (length stdin) addr stdin.

(** ** [calculate_prizes] *)

(** Python floats are modelled by rationals: [entry_fee / 5] is the exact
    quotient. The computation in floats is [calculate_prizes_float] below;
    the two agree where no float is rounded, as for the entry fee 10. *)
Definition calculate_prizes (duelists : list Duelist) (entry_fee : Z)
    : option (list Q) :=
  let base_fee := (inject_Z entry_fee / 5)%Q in
  let prizes_base := [9; 6; 3; 0]%Q in
  let prizes_scaled := map (fun n => n * base_fee)%Q prizes_base in
  win_bonus ←
    for_each
      (fun win_bonus i =>
         d ← duelists !! i;
         Some (if truth (Duelist_eq d (VInt (4 - Z.of_nat i)))
               then <[i := base_fee]> win_bonus
               else win_bonus))
      [0; 0; 0; 0]%Q (seq 0 4);
  Some (zip_with Qplus prizes_scaled win_bonus).

(** ** Sorting *)

(** Both [sorted] of Python and [np.argsort] of NumPy sort four elements
    by insertion, comparing with [<] only: an element is moved in front of
    the greater ones and stays behind the others. The sort is stable, and
    the result of a stable sort does not depend on how the place of an
    element is searched. [sorted] is stable on every list; the default
    [np.argsort] is on arrays this short, which it sorts by insertion. *)
Fixpoint insert_sorted {A : Type} (lt : A -> A -> bool) (a : A) (l : list A)
    : list A :=
  match l with
  | [] => [a]
  | b :: l' => if lt a b then a :: l else b :: insert_sorted lt a l'
  end.

Definition insertion_sort {A : Type} (lt : A -> A -> bool) (l : list A)
    : list A :=
  foldl (fun sorted a => insert_sorted lt a sorted) [] l.

(** [a < b] between duelists. *)
Definition lt_duelist (a b : Duelist) : bool := truth (Duelist_lt a (VDuelist b)).

(** [sorted(duelists, reverse=True)]: the list is reversed, sorted and
    reversed again, which keeps equal elements in their original order. *)
Definition sorted_reverse (duelists : list Duelist) : list Duelist :=
  rev (insertion_sort lt_duelist (rev duelists)).

(** [np.argsort(duelists)]: the indices in the order of their elements. *)
Definition argsort (duelists : list Duelist) : list nat :=
  map fst
    (insertion_sort (fun p q => lt_duelist (snd p) (snd q))
                    (imap (fun i d => (i, d)) duelists)).

(** [np.flip] of a one-dimensional array. *)
Definition flip (indices : list nat) : list nat := rev indices.

(** ** [timeless] *)

Definition final_round : nat := 3.
Definition tied_win_configurations : list (list Z) := [[3; 1; 1; 1]; [2; 2; 2; 0]]%Z.
Definition pairing_configurations : list (list nat) :=
  [[0; 1; 2; 3]; [1; 3; 0; 2]; [3; 0; 1; 2]].

(** [x, y, z, w = values]: ValueError unless there are four values. *)
Definition unpack4 {A : Type} (values : list A) : option (A * A * A * A) :=
  match values with
  | [x; y; z; w] => Some (x, y, z, w)
  | _ => None
  end.

(** [np.random.randint(n)] for the entropy of one call. *)
Definition randint (n : nat) (entropy : nat) : nat := entropy mod n.

(** [decks[matchup[i, j]]] *)
Definition deck_of (decks : list string) (matchup : square) (i j : nat)
    : option string :=
  row ← matchup !! i; v ← row !! j; decks !! v.

(** [is_tied] in the final round. *)
Definition is_tied (duelists : list Duelist) : bool :=
  let duelists_by_wins := sorted_reverse duelists in
  existsb (list_eq duelists_by_wins) tied_win_configurations.

(** What a round shows: the slots [x, y, z, w] in the order of the two
    matches (x against y, z against w), the decks [deck_x, deck_y, deck_z,
    deck_w] and the table [pairings] that is printed. *)
Record round_record : Type := mkRound {
  seats : nat * nat * nat * nat;
  dealt : string * string * string * string;
  pairings : list (list string)
}.

(** [f'{duelist} ({deck})'] *)
Definition show_pairing (d : Duelist) (deck : string) : string :=
  String.append (name d) (String.append " (" (String.append deck ")")).

(** [duelists[i].wins += 1] *)
Definition add_win (d : Duelist) : Duelist :=
  {| ident := ident d; name := name d; wins := wins d + 1 |}.

(** The loop that ends a round:
    [for i in indices: if duelists[i] in [winner_xy, winner_zw]:
    duelists[i].wins += 1]. The slots hold distinct objects, so that the
    update of the object in slot [i] is the update of that slot alone. *)
Definition credit_winners (winner_xy winner_zw : string)
    (duelists : list Duelist) (indices : list nat) : option (list Duelist) :=
  for_each
    (fun duelists i =>
       d ← duelists !! i;
       Some (if Duelist_in d [winner_xy; winner_zw]
             then <[i := add_win d]> duelists
             else duelists))
    duelists indices.

(** The body of the [for round_ in range(4)] loop of [timeless], on the
    array [duelists] and the lines of standard input. *)
Definition play_round (matchup : square) (decks : list string) (entropy : nat)
    (round_ : nat) (state : list Duelist * list string)
    : option (round_record * (list Duelist * list string)) :=
  let '(duelists, stdin) := state in
  '(x, y, z, w, (deck_x, deck_y, deck_z, deck_w)) ←
    (if round_ =? final_round
     then
       '(x, y, z, w) ←
         (if is_tied duelists
          then pairing_configurations !! randint 3 entropy ≫= unpack4
          else unpack4 (flip (argsort duelists)));
       deck_x ← deck_of decks matchup x x;
       deck_y ← deck_of decks matchup y y;
       deck_z ← deck_of decks matchup z z;
       deck_w ← deck_of decks matchup w w;
       Some (x, y, z, w, (deck_x, deck_y, deck_z, deck_w))
     else
       '(x, y, z, w) ← pairing_configurations !! round_ ≫= unpack4;
       deck_x ← deck_of decks matchup x y;
       deck_y ← deck_of decks matchup y x;
       deck_z ← deck_of decks matchup z w;
       deck_w ← deck_of decks matchup w z;
       Some (x, y, z, w, (deck_x, deck_y, deck_z, deck_w)));
  duelist_x ← duelists !! x;
  duelist_y ← duelists !! y;
  duelist_z ← duelists !! z;
  duelist_w ← duelists !! w;
  let pairings_ :=
    [[show_pairing duelist_x deck_x; "VS"; show_pairing duelist_y deck_y];
     [show_pairing duelist_z deck_z; "VS"; show_pairing duelist_w deck_w]] in
  '(winner_xy, stdin1) ←
    supervised_input [choose_from] [name duelist_x; name duelist_y] stdin;
  '(winner_zw, stdin2) ←
    supervised_input [choose_from] [name duelist_z; name duelist_w] stdin1;
  duelists' ← credit_winners winner_xy winner_zw duelists [x; y; z; w];
  Some ({| seats := (x, y, z, w);
           dealt := (deck_x, deck_y, deck_z, deck_w);
           pairings := pairings_ |},
        (duelists', stdin2)).

(** The rounds [rounds] played one after the other. *)
Fixpoint play_rounds (matchup : square) (decks : list string) (entropy : nat)
    (rounds : list nat) (state : list Duelist * list string)
    : option (list round_record * (list Duelist * list string)) :=
  match rounds with
  | [] => Some ([], state)
  | round_ :: rounds' =>
      '(shown, state') ← play_round matchup decks entropy round_ state;
      '(log, state'') ← play_rounds matchup decks entropy rounds' state';
      Some (shown :: log, state'')
  end.

(** [timeless(duelists, decks, entry_fee)]: the square drawn, what the four
    rounds showed, the duelists at the end and the input left. *)
Definition timeless (fuel : nat) (rng : nat -> list nat) (entropy : nat)
    (stdin : list string) (duelists : list Duelist) (decks : list string)
    (entry_fee : Z)
    : option (square * list round_record * list Duelist * list string) :=
  '(matchup, _) ← random_timeless_square fuel rng 0;
  '(log, (duelists', stdin')) ←
    play_rounds matchup decks entropy (seq 0 4) (duelists, stdin);
  Some (matchup, log, duelists', stdin').

(** The deck a slot is dealt in a round, and the slot it plays against. *)
Definition deck_dealt (shown : round_record) (slot : nat) : option string :=
  let '(x, y, z, w) := seats shown in
  let '(deck_x, deck_y, deck_z, deck_w) := dealt shown in
  if slot =? x then Some deck_x
  else if slot =? y then Some deck_y
  else if slot =? z then Some deck_z
  else if slot =? w then Some deck_w
  else None.

Definition opponent (shown : round_record) (slot : nat) : option nat :=
  let '(x, y, z, w) := seats shown in
  if slot =? x then Some y
  else if slot =? y then Some x
  else if slot =? z then Some w
  else if slot =? w then Some z
  else None.

(** The sum of the win counts. *)
Definition total_wins (duelists : list Duelist) : Z :=
  foldr Z.add 0%Z (map wins duelists).

(** ** Notions used by the properties *)

(** The two ways a round seats the duelists and deals the decks. *)
Definition seated_and_dealt (matchup : square) (decks : list string)
    (entropy round_ : nat) (duelists : list Duelist)
    (x y z w : nat) (deck_x deck_y deck_z deck_w : string) : Prop :=
  (round_ = final_round
   /\ (if is_tied duelists
       then pairing_configurations !! randint 3 entropy ≫= unpack4
       else unpack4 (flip (argsort duelists))) = Some (x, y, z, w)
   /\ deck_of decks matchup x x = Some deck_x
   /\ deck_of decks matchup y y = Some deck_y
   /\ deck_of decks matchup z z = Some deck_z
   /\ deck_of decks matchup w w = Some deck_w)
  \/ (round_ <> final_round
      /\ pairing_configurations !! round_ ≫= unpack4 = Some (x, y, z, w)
      /\ deck_of decks matchup x y = Some deck_x
      /\ deck_of decks matchup y x = Some deck_y
      /\ deck_of decks matchup z w = Some deck_z
      /\ deck_of decks matchup w z = Some deck_w).

(** Four duelists ranked with 4, 2, 2 and 0 wins. *)
Definition ranked_4_2_2_0 : list Duelist :=
  [ {| ident := 0; name := "Ann"; wins := 4 |};
    {| ident := 1; name := "Bob"; wins := 2 |};
    {| ident := 2; name := "Cid"; wins := 2 |};
    {| ident := 3; name := "Dan"; wins := 0 |} ].

(** Slot [i] is ranked ahead of slot [j] by the flipped [argsort]: more
    wins, or as many wins and the greater slot index. *)
Definition ahead (duelists : list Duelist) (i j : nat) : Prop :=
  exists di dj,
    duelists !! i = Some di /\ duelists !! j = Some dj
    /\ ((wins dj < wins di)%Z \/ (wins di = wins dj /\ j < i)).

(** The ranking as the specification words it: descending win count, ties
    in the order of the slots (a stable sort). *)
Definition spec_ranking (duelists : list Duelist) : list nat :=
  map fst
    (insertion_sort (fun p q => (wins (snd q) <? wins (snd p))%Z)
                    (imap (fun i d => (i, d)) duelists)).

(** The two matches of the final round as the specification words them:
    the first of the ranking against the fourth, the second against the
    third. *)
Definition spec_final_matches (duelists : list Duelist)
    : option ((nat * nat) * (nat * nat)) :=
  match spec_ranking duelists with
  | [rank1; rank2; rank3; rank4] => Some ((rank1, rank4), (rank2, rank3))
  | _ => None
  end.

(** ** Example data *)

(** [deck_sets['BASIC']] of [enter_tournament_information]. *)
Definition decks_basic : list string := ["Beast"; "Chaos"; "Dragon"; "Spellcaster"].

Definition standing (wins0 wins1 wins2 wins3 : Z) : list Duelist :=
  [ {| ident := 0; name := "Ann"; wins := wins0 |};
    {| ident := 1; name := "Bob"; wins := wins1 |};
    {| ident := 2; name := "Cid"; wins := wins2 |};
    {| ident := 3; name := "Dan"; wins := wins3 |} ].

(** Four duelists at the start of a tournament. *)
Definition entrants : list Duelist := standing 0 0 0 0.

(** The winners typed in a tournament where Ann beats everyone, Bob beats
    Cid and Dan, and Cid beats Dan; one line is mistyped. *)
Definition preliminary_winners : list string :=
  ["ann"; "cid"; "zzz"; "bob"; "ann"; "ann"; "bob"].

(** * The rest of the program *)

From Stdlib Require Import Lqa Qpower SpecFloat.

(** ** Words *)

(** A word: a string that is not empty and holds no whitespace. *)
Definition no_space (w : string) : bool :=
  PyStr.all_chars (fun c => negb (PyStr.isspace c)) w.

Definition is_word (w : string) : bool := negb (String.eqb w "") && no_space w.

(** A string of ASCII characters. On these the functions of [PyStr] are
    those of Python; on other characters Python goes by the tables of
    Unicode, which are not modelled. *)
Definition is_ascii (s : string) : bool :=
  PyStr.all_chars (fun c => PyStr.code c <? 128) s.

(** A duelist entered from the lines [stdin]: no win, and a name that is
    [capwords] of a value [supervised_input] accepted, itself [capwords]
    of a line that was read. *)
Definition entered_from (stdin : list string) (d : Duelist) : Prop :=
  wins d = 0%Z
  /\ exists line,
       In line stdin
       /\ check_conditions [alphabetical; less_than_30_characters] []
            (PyStr.capwords line) = Some true
       /\ name d = PyStr.capwords (PyStr.capwords line).

(** ** [enter_tournament_information] and the main program *)

(** [s.upper()] *)
Definition upper (s : string) : string := PyStr.map_chars PyStr.upper_char s.

(** The dictionary [deck_sets] and [deck_sets.get(key)], which is [None]
    for a key that is missing. *)
Definition deck_sets : list (string * list string) :=
  [("BASIC", ["Beast"; "Chaos"; "Dragon"; "Spellcaster"]);
   ("EXTRA", ["Dinosaur"; "Flip"; "Warrior"; "Zombie"])].

Fixpoint dict_get (dict : list (string * list string)) (key : string)
    : option (list string) :=
  match dict with
  | [] => None
  | (k, v) :: dict' => if String.eqb k key then Some v else dict_get dict' key
  end.

(** [np.random.permutation(values)]: [order] is the order in which the
    random generator draws the indices, a permutation of
    [range(len(values))]. *)
Definition np_random_permutation {A : Type} (order : list nat) (values : list A)
    : option (list A) :=
  mapM (fun i => values !! i) order.

(** The dictionary [tournament_information]. *)
Record tournament_information : Type := mkInformation {
  info_decks : option (list string);
  info_entry_fee : Z;
  info_duelists : list Duelist
}.

Definition enter_tournament_information (order : list nat) (stdin : list string)
    : option (tournament_information * list string) :=
  '(format_input, stdin1) ← supervised_input [choose_from] ["Basic"; "Extra"] stdin;
  let format_ := upper format_input in
  let decks := dict_get deck_sets format_ in
  '(fee_input, stdin2) ← supervised_input entry_fee_conditions [] stdin1;
  entry_fee ← PyStr.int fee_input;
  '(entered, stdin3) ← enter_unique_duelists 0 stdin2;
  duelists ← np_random_permutation order entered;
  Some ({| info_decks := decks; info_entry_fee := entry_fee;
           info_duelists := duelists |}, stdin3).

(** The program run as a script: [timeless] called with the dictionary
    that [enter_tournament_information] returns. Subscripting the decks
    raises when [decks] is [None]. *)
Definition main (fuel : nat) (rng : nat -> list nat) (order : list nat)
    (entropy : nat) (stdin : list string)
    : option (square * list round_record * list Duelist * list string) :=
  '(info, stdin') ← enter_tournament_information order stdin;
  decks ← info_decks info;
  timeless fuel rng entropy stdin' (info_duelists info) decks (info_entry_fee info).

(** ** Standings *)

(** The tables ['Wins'] of [STANDING_CONFIGURATIONS] in [config.py]: after
    each preliminary round, and after the final round without and with a
    tie after the preliminaries; and the table ['Points'] of the final
    round without a tie. *)
Definition standings_after_round (round_ : nat) : list (list Z) :=
  match round_ with
  | 0 => [[1; 1; 0; 0]]%Z
  | 1 => [[2; 2; 0; 0]; [2; 1; 1; 0]; [1; 1; 1; 1]]%Z
  | 2 => [[3; 2; 1; 0]; [2; 2; 1; 1]; [3; 1; 1; 1]; [2; 2; 2; 0]]%Z
  | _ => []
  end.

Definition final_standings (tied : bool) : list (list Z) :=
  (if tied
   then [[4; 2; 1; 1]; [3; 3; 2; 0]; [3; 2; 2; 1]]
   else [[4; 2; 2; 0]; [4; 2; 1; 1]; [3; 3; 2; 0]; [3; 3; 1; 1]; [3; 2; 2; 1]])%Z.

Definition final_points_no_tie : list (list Z * list Z) :=
  [([4; 2; 2; 0], [10; 6; 4; 0]); ([4; 2; 1; 1], [10; 6; 3; 1]);
   ([3; 3; 2; 0], [9; 7; 4; 0]); ([3; 3; 1; 1], [9; 7; 3; 1]);
   ([3; 2; 2; 1], [9; 6; 4; 1])]%Z.

(** The sum of the prizes. *)
Definition total_prizes (prizes : list Q) : Q := foldr Qplus 0%Q prizes.

(** The win counts are those of a row of the table, in some order. *)
Definition is_standing (table : list (list Z)) (ws : list Z) : bool :=
  existsb (fun row => bool_decide (ws ∈ permutations row)) table.

(** The win counts a round can leave, one of the seats x, y and one of the
    seats z, w being credited. *)
Definition round_outcomes (seats_ : nat * nat * nat * nat) (ws : list Z)
    : list (list Z) :=
  let '(x, y, z, w) := seats_ in
  [alter Z.succ x (alter Z.succ z ws); alter Z.succ x (alter Z.succ w ws);
   alter Z.succ y (alter Z.succ z ws); alter Z.succ y (alter Z.succ w ws)].

(** A duelist of which only the win count is known. *)
Definition anonymous (w : Z) : Duelist := {| ident := 0; name := ""; wins := w |}.

(** The seats the final round can give to duelists with these win counts. *)
Definition final_seatings (ws : list Z) : list (nat * nat * nat * nat) :=
  if is_tied (map anonymous ws)
  then [(0, 1, 2, 3); (1, 3, 0, 2); (3, 0, 1, 2)]
  else match unpack4 (flip (argsort (map anonymous ws))) with
       | Some seats_ => [seats_]
       | None => []
       end.

(** The win counts the three preliminary rounds can leave. *)
Definition preliminary_outcomes (rounds : nat) : list (list Z) :=
  foldl (fun reached seats_ => flat_map (round_outcomes seats_) reached)
        [[0; 0; 0; 0]%Z]
        (take rounds [(0, 1, 2, 3); (1, 3, 0, 2); (3, 0, 1, 2)]).

(** The exhaustive tests of the standings. *)
Definition preliminary_standings_check : bool :=
  forallb (fun round_ =>
             forallb (is_standing (standings_after_round round_))
                     (preliminary_outcomes (S round_)))
          [0; 1; 2].

Definition final_standings_check : bool :=
  forallb (fun ws3 =>
    forallb (fun seats_ =>
      forallb (is_standing (final_standings (is_tied (map anonymous ws3))))
              (round_outcomes seats_ ws3))
      (final_seatings ws3))
    (preliminary_outcomes 3).

(** ** Floats *)

(** The floats of CPython are the binary64 numbers of IEEE 754: a sign, a
    mantissa of 53 bits and an exponent, [S754_finite s m e] standing for
    [m * 2 ^ e], negated when [s] is set. An operation returns the float
    nearest to the exact result, the one with an even mantissa of two that
    are as near. [spec_float] and the operations [SFmul], [SFadd] and
    [SFdiv] are those of the specification of floats in the Standard
    Library. *)
Module Binary64.

Definition prec : Z := 53.
Definition emax : Z := 1024.

(** [float(n)] for an [int]. (Python raises OverflowError where this is
    an infinity, from [2 ^ 1024] on; the [int]s converted below are 9, 6,
    3 and 0.) *)
Definition float (n : Z) : spec_float := binary_normalize prec emax n 0 false.

(** An [int] as a mantissa with the exponent 0, whatever its size. *)
Definition int_mantissa (n : Z) : spec_float :=
  match n with
  | Z0 => S754_zero false
  | Zpos p => S754_finite false p 0
  | Zneg p => S754_finite true p 0
  end.

(** [a / b] for two [int]s: the float nearest to the quotient of the two
    integers; ZeroDivisionError for a divisor 0 and OverflowError for a
    quotient too large for a float. *)
Definition int_truediv (a b : Z) : option spec_float :=
  if (b =? 0)%Z then None
  else match SFdiv prec emax (int_mantissa a) (int_mantissa b) with
       | S754_infinity _ => None
       | quotient => Some quotient
       end.

(** [x * y] and [x + y] for two floats. *)
Definition mul : spec_float -> spec_float -> spec_float := SFmul prec emax.
Definition add : spec_float -> spec_float -> spec_float := SFadd prec emax.

(** The number a float stands for; an infinity and a NaN stand for none
    and are given 0. *)
Definition value (x : spec_float) : Q :=
  match x with
  | S754_finite s m e =>
      ((if s then -1 else 1) * inject_Z (Zpos m) * Qpower 2 e)%Q
  | _ => 0%Q
  end.

(** The float of mantissa [n], shifted to 53 bits: the form in which an
    integer [n] with [0 < n < 2 ^ 53] is a float. *)
Definition normal (s : bool) (n : Z) : spec_float :=
  S754_finite s (Z.to_pos (n * 2 ^ (53 - Zdigits2 n))) (Zdigits2 n - 53).

End Binary64.

(** [calculate_prizes] as Python computes it, in floats: [entry_fee / 5]
    divides two [int]s, [n * base_fee] converts the [int] [n], and the
    [int] 0 of [win_bonus] is converted when it is added to a float.
    [calculate_prizes] above is the same computation without rounding. *)
Definition calculate_prizes_float (duelists : list Duelist) (entry_fee : Z)
    : option (list spec_float) :=
  base_fee ← Binary64.int_truediv entry_fee 5;
  let prizes_base := [9; 6; 3; 0]%Z in
  let prizes_scaled :=
    map (fun n => Binary64.mul (Binary64.float n) base_fee) prizes_base in
  win_bonus ←
    for_each
      (fun win_bonus i =>
         d ← duelists !! i;
         Some (if truth (Duelist_eq d (VInt (4 - Z.of_nat i)))
               then <[i := base_fee]> win_bonus
               else win_bonus))
      [Binary64.float 0; Binary64.float 0; Binary64.float 0; Binary64.float 0]
      (seq 0 4);
  Some (zip_with Binary64.add prizes_scaled win_bonus).

(** ** The user interface of [interface.py] *)

Module Interface.

(** The keys of the dictionary [condition_checks] of [interface.py]. *)
Inductive condition : Type :=
| choose_from
| alphabetical
| less_than_25_characters
| integer
| multiple_of_10.

Definition is_string_of_integer (input_string : string) : bool :=
  match PyStr.int input_string with
  | Some _ => true
  | None => false
  end.

Definition condition_checks (c : condition) (options : list string)
    (input_string : string) : option bool :=
  match c with
  | choose_from => Some (bool_decide (input_string ∈ options))
  | alphabetical => Some (PyStr.isalpha (PyStr.remove_spaces input_string))
  | less_than_25_characters => Some (String.length input_string <? 25)
  | integer => Some (is_string_of_integer input_string)
  | multiple_of_10 =>
      n ← PyStr.int input_string;
      Some ((n mod 10 =? 0)%Z && (0 <=? n)%Z)
  end.

Fixpoint check_conditions (conditions : list condition) (options : list string)
    (user_input : string) : option bool :=
  match conditions with
  | [] => Some true
  | c :: cs =>
      condition_satisfied ← condition_checks c options user_input;
      if condition_satisfied : bool
      then check_conditions cs options user_input
      else Some false
  end.

(** [supervised_input] of [interface.py], what it prints left out. *)
Fixpoint supervised_input (conditions : list condition) (options : list string)
    (stdin : list string) : option (string * list string) :=
  match stdin with
  | [] => None
  | line :: rest =>
      let user_input := PyStr.capwords line in
      check ← check_conditions conditions options user_input;
      if check : bool
      then Some (user_input, rest)
      else supervised_input conditions options rest
  end.

(** What [typewriter] does, one after the other: it prints a character or
    it sleeps for [delay]. *)
Inductive event : Type :=
| Print (character : ascii)
| Sleep.

Fixpoint typewriter (text : string) (ignore_whitespaces : bool) : list event :=
  match text with
  | EmptyString => []
  | String character text' =>
      Print character
      :: (if ignore_whitespaces && Ascii.eqb character " "
          then typewriter text' ignore_whitespaces
          else Sleep :: typewriter text' ignore_whitespaces)
  end.

(** [' ' * n] *)
Fixpoint spaces (n : nat) : string :=
  match n with
  | 0 => EmptyString
  | S n' => String " " (spaces n')
  end.

(** [table.split('\n')]: [cur] is the row being read. *)
Fixpoint split_lines_from (cur : string) (table : string) : list string :=
  match table with
  | EmptyString => [cur]
  | String c table' =>
      if PyStr.code c =? 10
      then cur :: split_lines_from "" table'
      else split_lines_from (String.append cur (String c "")) table'
  end.

Definition split_lines (table : string) : list string := split_lines_from "" table.

(** [f'{row:<{width}}']: the row padded with spaces on the right. *)
Definition ljust (row : string) (width : nat) : string :=
  String.append row (spaces (width - String.length row)).

(** [s.center(width)] *)
Definition center (s : string) (width : nat) : string :=
  if width <=? String.length s
  then s
  else
    let marg := width - String.length s in
    let left := marg / 2 + (if Nat.odd marg && Nat.odd width then 1 else 0) in
    String.append (spaces left) (String.append s (spaces (marg - left))).

(** [max(map(len, rows))] for rows that are not empty. *)
Definition max_length (rows : list string) : nat :=
  foldr Nat.max 0 (map String.length rows).

(** The lines [print_centered_table] prints for the table that [tabulate]
    returns, in a terminal where [LINE_WIDTH] is [line_width]. *)
Definition print_centered_table (table : string) (line_width : nat) : list string :=
  let rows := split_lines table in
  let max_row_length := max_length rows in
  map (fun row => center (ljust row max_row_length) line_width) rows ++ [""].

End Interface.

(** The condition of [timeless.py] that stands for a condition of
    [interface.py]. *)
Definition counterpart (c : Interface.condition) : condition :=
  match c with
  | Interface.choose_from => choose_from
  | Interface.alphabetical => alphabetical
  | Interface.less_than_25_characters => less_than_30_characters
  | Interface.integer => integer
  | Interface.multiple_of_10 => multiple_of_5
  end.

(** What a trace of [typewriter] shows and how often it sleeps. *)
Fixpoint printed (events : list Interface.event) : string :=
  match events with
  | [] => EmptyString
  | Interface.Print c :: events' => String c (printed events')
  | Interface.Sleep :: events' => printed events'
  end.

Fixpoint sleeps (events : list Interface.event) : nat :=
  match events with
  | [] => 0
  | Interface.Print _ :: events' => sleeps events'
  | Interface.Sleep :: events' => S (sleeps events')
  end.

Fixpoint count_spaces (text : string) : nat :=
  match text with
  | EmptyString => 0
  | String c text' => (if Ascii.eqb c " " then 1 else 0) + count_spaces text'
  end.

(** * Properties *)

(** ** Strings and input validation *)

Example capwords_example :
  PyStr.capwords "  johann   sebastian BACH " = "Johann Sebastian Bach".
Proof. reflexivity. Qed.

Example int_examples :
  PyStr.int "1_000" = Some 1000%Z /\ PyStr.int "+5" = Some 5%Z
  /\ PyStr.int "1__0" = None /\ PyStr.int "" = None /\ PyStr.int "-" = None.
Proof. repeat split; reflexivity. Qed.

(** [int] skips blanks and line ends around the digits, and not the
    separator FS that [str.split] takes for whitespace. *)
Example int_whitespace :
  PyStr.int (String.append " 25" (String (ascii_of_nat 10) "")) = Some 25%Z
  /\ PyStr.int (String "5" (String (ascii_of_nat 28) "")) = None
  /\ PyStr.split (String "5" (String (ascii_of_nat 28) "")) = ["5"].
Proof. repeat split; reflexivity. Qed.

(** C9. The entry-fee validation (the checks 'integer', 'multiple_of_5' and
    'less_than_30_characters', in this order, on the capitalised input)
    rejects "15.5", "-10" and "7" and accepts "0" and "100". *)
Theorem entry_fee_validation_boundary :
  entry_fee_check "15.5" = Some false
  /\ entry_fee_check "-10" = Some false
  /\ entry_fee_check "7" = Some false
  /\ entry_fee_check "0" = Some true
  /\ entry_fee_check "100" = Some true.
Proof. repeat split; vm_compute; reflexivity. Qed.

(** ** The square generator *)

Example docstring_square_is_timeless : is_timeless docstring_square = true.
Proof. reflexivity. Qed.

Example stuck_square_is_rejected : is_timeless (sample stuck_rng 0) = false.
Proof. reflexivity. Qed.

(** Four equal rows pass the three checks, whatever the permutation. *)
Example equal_rows_are_timeless :
  forallb (fun p => is_timeless [p; p; p; p]) (permutations [0; 1; 2; 3]) = true.
Proof. vm_compute. reflexivity. Qed.

Lemma remove_dups_length_le (l : list nat) : length (remove_dups l) <= length l.
Proof.
  induction l as [|x l IH]; simpl; [lia|].
  destruct (decide_rel elem_of x l); simpl; lia.
Qed.

Lemma len_set_full_NoDup (l : list nat) : len_set l = length l -> NoDup l.
Proof.
  unfold len_set. induction l as [|x l IH]; simpl; intros Hlen.
  - constructor.
  - pose proof (remove_dups_length_le l) as Hle.
    destruct (decide_rel elem_of x l) as [Hin|Hin]; simpl in Hlen; [lia|].
    constructor; [exact Hin | apply IH; lia].
Qed.

Lemma len_set_4_NoDup (a b c d : nat) :
  (len_set [a; b; c; d] =? 4) = true -> NoDup [a; b; c; d].
Proof. intros H%Nat.eqb_eq. apply len_set_full_NoDup. exact H. Qed.

Lemma permutation_source_length rng k :
  permutation_source rng -> length (rng k) = 4.
Proof. intros H. rewrite (Permutation_length (H k)). reflexivity. Qed.

(** A list of length 4 is a list of four elements. *)
Ltac four_elements l H :=
  destruct l as [|? [|? [|? [|? [|? ?]]]]]; try discriminate H; clear H.

(** On a 4x4 array the NumPy diagonals are the cells of the coordinate
    lists. *)
Lemma diagonals_of_4x4 (r0 r1 r2 r3 : list nat) :
  length r0 = 4 -> length r1 = 4 -> length r2 = 4 -> length r3 = 4 ->
  diagonal [r0; r1; r2; r3] = cells [r0; r1; r2; r3] main_diagonal
  /\ diagonal (fliplr [r0; r1; r2; r3]) = cells [r0; r1; r2; r3] anti_diagonal.
Proof.
  intros H0 H1 H2 H3.
  four_elements r0 H0; four_elements r1 H1;
    four_elements r2 H2; four_elements r3 H3.
  split; reflexivity.
Qed.

(** The loop returns a square it has just drawn and found timeless. *)
Lemma random_timeless_square_returns fuel rng k sq k' :
  random_timeless_square fuel rng k = Some (sq, k') ->
  exists j, sq = draw_square rng j /\ is_timeless sq = true.
Proof.
  revert k. induction fuel as [|fuel IH]; intros k; simpl; [discriminate|].
  destruct (is_timeless (draw_square rng k)) eqn:Hok.
  - intros [= <- <-]. eauto.
  - apply IH.
Qed.

(** C1 (amended). Every square returned by [random_timeless_square] has
    four rows that are permutations of 0..3, and its main diagonal, its
    anti-diagonal and the cells (0,1), (1,0), (2,3), (3,2) each hold four
    distinct values. Nothing is promised of the columns. *)
Theorem random_timeless_square_rows_and_diagonals rng fuel k sq k' :
  permutation_source rng ->
  random_timeless_square fuel rng k = Some (sq, k') ->
  length sq = 4
  /\ Forall (fun row => row ≡ₚ [0; 1; 2; 3]) sq
  /\ NoDup (cells sq main_diagonal)
  /\ NoDup (cells sq anti_diagonal)
  /\ NoDup (cells sq off_diagonal).
Proof.
  intros Hrng Hret.
  destruct (random_timeless_square_returns _ _ _ _ _ Hret) as (j & -> & Hok).
  unfold is_timeless in Hok.
  apply andb_prop in Hok as [Hok Hoff]. apply andb_prop in Hok as [Hdiag Hanti].
  destruct (diagonals_of_4x4 (rng j) (rng (j + 1)) (rng (j + 2)) (rng (j + 3)))
    as [Ed Ea]; try (apply permutation_source_length; exact Hrng).
  unfold unique_diagonal, unique_antidiagonal, draw_square in *.
  rewrite Ed in Hdiag. rewrite Ea in Hanti.
  split; [reflexivity|]. split.
  - repeat constructor; apply Hrng.
  - split; [|split]; apply len_set_4_NoDup; assumption.
Qed.

(** A computational test for the permutations of 0..3. *)
Lemma permutation_check (l : list nat) :
  bool_decide (l ∈ permutations [0; 1; 2; 3]) = true -> l ≡ₚ [0; 1; 2; 3].
Proof. intros H%bool_decide_eq_true. symmetry. apply permutations_Permutation, H. Qed.

Lemma docstring_rng_permutations : permutation_source docstring_rng.
Proof.
  intros k. unfold docstring_rng, docstring_square.
  do 4 (destruct k as [|k]; [apply permutation_check; vm_compute; reflexivity|]).
  simpl. destruct k; reflexivity.
Qed.

Lemma random_timeless_square_rows_and_diagonals_witness :
  length docstring_square = 4
  /\ Forall (fun row => row ≡ₚ [0; 1; 2; 3]) docstring_square
  /\ NoDup (cells docstring_square main_diagonal)
  /\ NoDup (cells docstring_square anti_diagonal)
  /\ NoDup (cells docstring_square off_diagonal).
Proof.
  apply (random_timeless_square_rows_and_diagonals docstring_rng 1 0 docstring_square 4).
  - exact docstring_rng_permutations.
  - reflexivity.
Defined.

(** C1 (as stated, refuted). The square of the function's own docstring is
    returned for a random source that draws its rows first, and its first
    column 2, 3, 2, 1 is not a permutation of 0..3. *)
Lemma docstring_square_column_repeats :
  permutation_source docstring_rng
  /\ random_timeless_square 1 docstring_rng 0 = Some (docstring_square, 4)
  /\ column docstring_square 0 = [2; 3; 2; 1]
  /\ ~ (column docstring_square 0 ≡ₚ [0; 1; 2; 3]).
Proof.
  split; [exact docstring_rng_permutations|].
  split; [reflexivity|]. split; [reflexivity|].
  intros Hperm. apply NoDup_Permutation_proper in Hperm.
  assert (Hnd : NoDup [0; 1; 2; 3]) by (apply NoDup_ListNoDup; repeat constructor; simpl; lia).
  apply Hperm in Hnd. simpl in Hnd.
  inversion Hnd as [|? ? Hnotin _]; subst. apply Hnotin.
  apply list_elem_of_In. simpl. tauto.
Qed.

Lemma random_timeless_square_step fuel rng k :
  random_timeless_square (S fuel) rng k
  = if is_timeless (draw_square rng k)
    then Some (draw_square rng k, k + 4)
    else random_timeless_square fuel rng (k + 4).
Proof. reflexivity. Qed.

(** The loop entered after [j] rejected squares: it is still running after
    [n] more rejections, and returns the next square if that one passes. *)
Lemma random_timeless_square_from rng n : forall j,
  (forall m, m < n -> is_timeless (sample rng (j + m)) = false) ->
  random_timeless_square n rng (4 * j) = None
  /\ (is_timeless (sample rng (j + n)) = true ->
      forall fuel, n < fuel ->
      random_timeless_square fuel rng (4 * j)
      = Some (sample rng (j + n), 4 * (j + n) + 4)).
Proof.
  induction n as [|n IH]; intros j Hrej.
  - split; [reflexivity|]. intros Hok fuel Hfuel.
    destruct fuel as [|fuel]; [lia|]. rewrite random_timeless_square_step.
    rewrite Nat.add_0_r in *. unfold sample in *. rewrite Hok. reflexivity.
  - assert (Hfirst : is_timeless (draw_square rng (4 * j)) = false).
    { specialize (Hrej 0 ltac:(lia)). rewrite Nat.add_0_r in Hrej. exact Hrej. }
    destruct (IH (S j)) as [Hrun Hret].
    { intros m Hm. replace (S j + m) with (j + S m) by lia. apply Hrej. lia. }
    replace (4 * S j) with (4 * j + 4) in * by lia.
    replace (S j + n) with (j + S n) in * by lia.
    split.
    + rewrite random_timeless_square_step, Hfirst. exact Hrun.
    + intros Hok fuel Hfuel. destruct fuel as [|fuel]; [lia|].
      rewrite random_timeless_square_step, Hfirst. apply Hret; [exact Hok | lia].
Qed.

(** C7 (amended). [random_timeless_square] puts no cap on the number of
    rejected squares and has no failure exit: after [n] rejections, for
    every [n], the loop is still running, and it returns the first square
    that passes the three checks. *)
Theorem random_timeless_square_no_retry_cap rng n :
  (forall m, m < n -> is_timeless (sample rng m) = false) ->
  random_timeless_square n rng 0 = None
  /\ (is_timeless (sample rng n) = true ->
      forall fuel, n < fuel ->
      random_timeless_square fuel rng 0 = Some (sample rng n, 4 * n + 4)).
Proof.
  intros Hrej. apply (random_timeless_square_from rng n 0). exact Hrej.
Qed.

Lemma stuck_rng_samples n :
  sample stuck_rng n = [[0; 1; 2; 3]; [1; 0; 2; 3]; [0; 1; 2; 3]; [1; 0; 2; 3]].
Proof.
  unfold sample, draw_square, stuck_rng.
  rewrite !Nat.even_add, Nat.even_mul. reflexivity.
Qed.

Lemma stuck_rng_rejected n : is_timeless (sample stuck_rng n) = false.
Proof. rewrite stuck_rng_samples. reflexivity. Qed.

Lemma stuck_rng_permutations : permutation_source stuck_rng.
Proof.
  intros k. unfold stuck_rng.
  destruct (Nat.even k); apply permutation_check; vm_compute; reflexivity.
Qed.

Lemma random_timeless_square_no_retry_cap_witness :
  random_timeless_square 1000 stuck_rng 0 = None
  /\ (is_timeless (sample stuck_rng 1000) = true ->
      forall fuel, 1000 < fuel ->
      random_timeless_square fuel stuck_rng 0
      = Some (sample stuck_rng 1000, 4 * 1000 + 4)).
Proof.
  apply (random_timeless_square_no_retry_cap stuck_rng 1000).
  intros m _. apply stuck_rng_rejected.
Defined.

(** C7 (as stated, refuted). On a random source that alternates between
    two permutations the loop never ends: whatever the number of
    iterations allowed, [random_timeless_square] has neither returned nor
    failed. *)
Lemma stuck_rng_never_returns :
  permutation_source stuck_rng
  /\ forall fuel, random_timeless_square fuel stuck_rng 0 = None.
Proof.
  split; [exact stuck_rng_permutations|].
  intros fuel.
  apply (random_timeless_square_from stuck_rng fuel 0).
  intros m _. apply stuck_rng_rejected.
Qed.

Lemma far_diagonal_check_holds : far_diagonal_check = true.
Proof. vm_compute. reflexivity. Qed.

(** The fourth quadruple: with the three that are tested it covers the
    cells of the square, and it holds four distinct values in every square
    that is returned. These are the decks of the second round. *)
Lemma random_timeless_square_far_diagonal rng fuel k sq k' :
  permutation_source rng ->
  random_timeless_square fuel rng k = Some (sq, k') ->
  NoDup (cells sq far_diagonal).
Proof.
  intros Hrng Hret.
  destruct (random_timeless_square_returns _ _ _ _ _ Hret) as (j & -> & Hok).
  assert (Hin : forall i, In (rng i) (permutations [0; 1; 2; 3])).
  { intros i. apply list_elem_of_In, permutations_Permutation. symmetry. apply Hrng. }
  pose proof far_diagonal_check_holds as Hcheck.
  unfold far_diagonal_check in Hcheck.
  pose proof (proj1 (forallb_forall _ _) Hcheck _ (Hin j)) as H0. clear Hcheck.
  pose proof (proj1 (forallb_forall _ _) H0 _ (Hin (j + 1))) as H1. clear H0.
  pose proof (proj1 (forallb_forall _ _) H1 _ (Hin (j + 2))) as H2. clear H1.
  pose proof (proj1 (forallb_forall _ _) H2 _ (Hin (j + 3))) as H3. clear H2.
  cbv beta in H3. unfold draw_square in *. rewrite Hok in H3.
  apply bool_decide_eq_true in H3. exact H3.
Qed.

(** ** The [Duelist] class *)

(** C10. [==] on a duelist is identity against another duelist (two
    distinct objects are unequal whatever their names and win counts, an
    object equals itself), the win count against an integer and the name
    against a string. *)
Theorem Duelist_eq_identity_wins_name (d1 d2 d : Duelist) (k : Z) (s : string) :
  ident d1 <> ident d2 ->
  Duelist_eq d1 (VDuelist d2) = Is false
  /\ Duelist_eq d (VDuelist d) = Is true
  /\ (Duelist_eq d (VInt k) = Is true <-> wins d = k)
  /\ (Duelist_eq d (VStr s) = Is true <-> name d = s).
Proof.
  intros Hdistinct. unfold Duelist_eq. repeat split.
  - f_equal. apply Nat.eqb_neq. exact Hdistinct.
  - f_equal. apply Nat.eqb_refl.
  - intros [= H]. apply Z.eqb_eq. exact H.
  - intros H. f_equal. apply Z.eqb_eq. exact H.
  - intros [= H]. apply String.eqb_eq. exact H.
  - intros H. f_equal. apply String.eqb_eq. exact H.
Qed.

Lemma Duelist_eq_identity_wins_name_witness :
  let amadeus := {| ident := 0; name := "Amadeus"; wins := 1 |} in
  let twin := {| ident := 1; name := "Amadeus"; wins := 1 |} in
  Duelist_eq amadeus (VDuelist twin) = Is false
  /\ Duelist_eq amadeus (VDuelist amadeus) = Is true
  /\ (Duelist_eq amadeus (VInt 1) = Is true <-> wins amadeus = 1%Z)
  /\ (Duelist_eq amadeus (VStr "Amadeus") = Is true <-> name amadeus = "Amadeus").
Proof.
  intros amadeus twin.
  apply (Duelist_eq_identity_wins_name amadeus twin amadeus 1 "Amadeus").
  simpl. lia.
Defined.

(** ** Prizes *)

(** C2 (amended). For an entry fee of 10 and duelists ranked with 4, 2, 2
    and 0 wins the prizes are 20, 12, 8 and 0: the base fee 10/5 = 2 scaled
    by 9, 6, 3, 0, plus one base fee for every rank i (from 0) whose win
    count is 4 - i, here the first rank (4 wins) and the third (2 wins). *)
Theorem calculate_prizes_4_2_2_0 (duelists : list Duelist) :
  map wins duelists = [4; 2; 2; 0]%Z ->
  exists prizes,
    calculate_prizes duelists 10 = Some prizes
    /\ Forall2 Qeq prizes [20; 12; 8; 0]%Q
    /\ map (fun i => bool_decide (map wins duelists !! i = Some (4 - Z.of_nat i)%Z))
           (seq 0 4)
       = [true; false; true; false].
Proof.
  intros Hwins.
  destruct duelists as [|[i0 n0 w0] [|[i1 n1 w1] [|[i2 n2 w2] [|[i3 n3 w3] [|? ?]]]]];
    try discriminate Hwins.
  injection Hwins as -> -> -> ->.
  eexists. split; [reflexivity|]. split.
  - repeat constructor; reflexivity.
  - reflexivity.
Qed.

Lemma calculate_prizes_4_2_2_0_witness :
  exists prizes,
    calculate_prizes ranked_4_2_2_0 10 = Some prizes
    /\ Forall2 Qeq prizes [20; 12; 8; 0]%Q
    /\ map (fun i => bool_decide (map wins ranked_4_2_2_0 !! i = Some (4 - Z.of_nat i)%Z))
           (seq 0 4)
       = [true; false; true; false].
Proof. apply (calculate_prizes_4_2_2_0 ranked_4_2_2_0). reflexivity. Defined.

(** C2 (as stated, refuted). The third rank is not paid 6: with its 2 wins
    it is paid the bonus too, and the prizes add up to the four entry
    fees. *)
Lemma calculate_prizes_third_rank_bonus :
  exists prizes,
    calculate_prizes ranked_4_2_2_0 10 = Some prizes
    /\ ~ Forall2 Qeq prizes [20; 12; 6; 0]%Q
    /\ (exists third, prizes !! 2 = Some third /\ Qeq third 8).
Proof.
  eexists. split; [reflexivity|]. split.
  - intros H.
    inversion H as [|? ? ? ? _ H1]; subst.
    inversion H1 as [|? ? ? ? _ H2]; subst.
    inversion H2 as [|? ? ? ? Hthird _]; subst.
    vm_compute in Hthird. discriminate Hthird.
  - eexists. split; [reflexivity|]. reflexivity.
Qed.

(** ** Entering the duelists *)

Lemma supervised_input_shorter conditions options stdin user_input rest :
  supervised_input conditions options stdin = Some (user_input, rest) ->
  length rest < length stdin.
Proof.
  induction stdin as [|line stdin IH]; simpl; [discriminate|].
  destruct (check_conditions conditions options (PyStr.capwords line)) as [[|]|];
    simpl; try discriminate.
  - intros [= _ <-]. lia.
  - intros H. apply IH in H. lia.
Qed.

Lemma enter_candidates_length n : forall addr stdin candidates rest,
  enter_candidates n addr stdin = Some (candidates, rest) ->
  length candidates = n /\ length rest + n <= length stdin.
Proof.
  induction n as [|n IH]; intros addr stdin candidates rest; simpl.
  - intros [= <- <-]. simpl. lia.
  - destruct (supervised_input _ _ stdin) as [[name_ rest1]|] eqn:Hin;
      simpl; [|discriminate].
    destruct (enter_candidates n (S addr) rest1) as [[cs rest2]|] eqn:Hrec;
      simpl; [|discriminate].
    intros [= <- <-]. apply supervised_input_shorter in Hin.
    apply IH in Hrec as [Hlen Hrest]. simpl. lia.
Qed.

(** The set of duplicates is empty exactly when the names are distinct. *)
Lemma duplicates_nil (names : list string) : duplicates names = [] <-> NoDup names.
Proof.
  unfold duplicates. split.
  - intros Hnil. apply NoDup_ListNoDup, (NoDup_count_occ String.string_dec).
    intros x. destruct (decide (x ∈ names)) as [Hin|Hout].
    + destruct (le_lt_dec (count_occ String.string_dec names x) 1) as [Hle|Hgt];
        [exact Hle|].
      assert (Hx : x ∈ remove_dups
                      (filter (fun name_ => 1 < count_occ String.string_dec names name_)
                              names)).
      { apply elem_of_remove_dups, list_elem_of_filter. split; assumption. }
      rewrite Hnil in Hx. inversion Hx.
    + rewrite (proj1 (count_occ_not_In String.string_dec names x)); [lia|].
      intros Hin. apply Hout, list_elem_of_In, Hin.
  - intros Hnd%NoDup_ListNoDup.
    pose proof (proj1 (NoDup_count_occ String.string_dec names) Hnd) as Hocc.
    destruct (remove_dups _) as [|x l] eqn:Hdups; [reflexivity|].
    assert (Hx : x ∈ x :: l) by constructor.
    rewrite <- Hdups in Hx.
    apply elem_of_remove_dups, list_elem_of_filter in Hx as [Hgt _].
    specialize (Hocc x). lia.
Qed.

Lemma enter_unique_duelists_loop_step fuel addr stdin :
  enter_unique_duelists_loop (S fuel) addr stdin
  = '(duelist_candidates, rest) ← enter_candidates 4 addr stdin;
    if bool_decide (duplicates (map name duelist_candidates) = [])
    then Some (duelist_candidates, rest)
    else enter_unique_duelists_loop fuel (addr + 4) rest.
Proof. reflexivity. Qed.

(** More fuel than lines changes nothing: the loop ends, by a [return] or
    by the EOFError of [input], before the fuel does. *)
Lemma enter_unique_duelists_loop_fuel fuel : forall fuel' addr stdin,
  length stdin <= fuel -> length stdin <= fuel' ->
  enter_unique_duelists_loop fuel addr stdin
  = enter_unique_duelists_loop fuel' addr stdin.
Proof.
  induction fuel as [|fuel IH]; intros fuel' addr stdin Hfuel Hfuel'.
  - destruct stdin; [|simpl in Hfuel; lia].
    destruct fuel'; reflexivity.
  - destruct fuel' as [|fuel'].
    + destruct stdin; [reflexivity | simpl in Hfuel'; lia].
    + rewrite !enter_unique_duelists_loop_step.
      destruct (enter_candidates 4 addr stdin) as [[cands rest]|] eqn:Hcands;
        [|reflexivity].
      cbn [mbind option_bind]. case_bool_decide; [reflexivity|].
      apply enter_candidates_length in Hcands as [_ Hrest].
      apply IH; lia.
Qed.

Lemma enter_unique_duelists_loop_distinct fuel : forall addr stdin duelists rest,
  enter_unique_duelists_loop fuel addr stdin = Some (duelists, rest) ->
  length duelists = 4 /\ NoDup (map name duelists).
Proof.
  induction fuel as [|fuel IH]; intros addr stdin duelists rest;
    [discriminate|].
  rewrite enter_unique_duelists_loop_step.
  destruct (enter_candidates 4 addr stdin) as [[cands rest1]|] eqn:Hcands;
    cbn [mbind option_bind]; [|discriminate].
  case_bool_decide as Hdup.
  - intros [= <- <-]. split.
    + apply enter_candidates_length in Hcands. tauto.
    + apply duplicates_nil, Hdup.
  - apply IH.
Qed.

(** C8. Let [candidates] be the four duelists of the first four accepted
    names. With pairwise distinct names they are returned; with a
    duplicate they are dropped and [enter_unique_duelists] starts again on
    the input that follows, reading four names anew. Whatever it returns
    is four duelists with pairwise distinct names. *)
Theorem enter_unique_duelists_distinct addr stdin candidates rest :
  enter_candidates 4 addr stdin = Some (candidates, rest) ->
  (NoDup (map name candidates) ->
   enter_unique_duelists addr stdin = Some (candidates, rest))
  /\ (~ NoDup (map name candidates) ->
      enter_unique_duelists addr stdin = enter_unique_duelists (addr + 4) rest)
  /\ (forall duelists rest',
        enter_unique_duelists addr stdin = Some (duelists, rest') ->
        length duelists = 4 /\ NoDup (map name duelists)).
Proof.
  intros Hcands.
  pose proof (enter_candidates_length _ _ _ _ _ Hcands) as [_ Hrest].
  unfold enter_unique_duelists.
  destruct stdin as [|line stdin]; [simpl in Hrest; lia|].
  set (lines := line :: stdin) in *.
  change (length lines) with (S (length stdin)).
  split; [|split].
  - intros Hnd. rewrite enter_unique_duelists_loop_step, Hcands.
    cbn [mbind option_bind].
    rewrite bool_decide_eq_true_2 by (apply duplicates_nil, Hnd). reflexivity.
  - intros Hdup. rewrite enter_unique_duelists_loop_step, Hcands.
    cbn [mbind option_bind].
    rewrite bool_decide_eq_false_2 by (rewrite duplicates_nil; exact Hdup).
    apply enter_unique_duelists_loop_fuel; subst lines; simpl in Hrest; lia.
  - intros duelists rest'. apply enter_unique_duelists_loop_distinct.
Qed.

Lemma enter_unique_duelists_distinct_witness :
  let stdin := ["Johann"; "Johann"; "Amadeus"; "Amadeus";
                "Johann"; "Johann C"; "Amadeus"; "Falco"] in
  let candidates := [ {| ident := 0; name := "Johann"; wins := 0 |};
                      {| ident := 1; name := "Johann"; wins := 0 |};
                      {| ident := 2; name := "Amadeus"; wins := 0 |};
                      {| ident := 3; name := "Amadeus"; wins := 0 |} ] in
  let rest := ["Johann"; "Johann C"; "Amadeus"; "Falco"] in
  (NoDup (map name candidates) ->
   enter_unique_duelists 0 stdin = Some (candidates, rest))
  /\ (~ NoDup (map name candidates) ->
      enter_unique_duelists 0 stdin = enter_unique_duelists (0 + 4) rest)
  /\ (forall duelists rest',
        enter_unique_duelists 0 stdin = Some (duelists, rest') ->
        length duelists = 4 /\ NoDup (map name duelists)).
Proof.
  intros stdin candidates rest.
  apply (enter_unique_duelists_distinct 0 stdin candidates rest).
  vm_compute. reflexivity.
Defined.

Example enter_unique_duelists_docstring :
  enter_unique_duelists 0
    ["Johann"; "Johann"; "Amadeus"; "Amadeus";
     "Johann"; "Johann C"; "Amadeus"; "Falco"]
  = Some ([ {| ident := 4; name := "Johann"; wins := 0 |};
            {| ident := 5; name := "Johann C"; wins := 0 |};
            {| ident := 6; name := "Amadeus"; wins := 0 |};
            {| ident := 7; name := "Falco"; wins := 0 |} ], []).
Proof. vm_compute. reflexivity. Qed.

(** ** Sorting *)

Section InsertionSort.

Context {A : Type} (lt : A -> A -> bool).

Lemma insert_sorted_Permutation a l : insert_sorted lt a l ≡ₚ a :: l.
Proof.
  induction l as [|b l IH]; simpl; [reflexivity|].
  destruct (lt a b); [reflexivity|].
  rewrite IH. apply Permutation_swap.
Qed.

Lemma insertion_sort_from_Permutation l : forall sorted,
  foldl (fun sorted a => insert_sorted lt a sorted) sorted l ≡ₚ l ++ sorted.
Proof.
  induction l as [|a l IH]; intros sorted; simpl; [reflexivity|].
  rewrite IH, insert_sorted_Permutation.
  symmetry. apply Permutation_middle.
Qed.

Lemma insertion_sort_Permutation l : insertion_sort lt l ≡ₚ l.
Proof.
  unfold insertion_sort. rewrite insertion_sort_from_Permutation.
  rewrite app_nil_r. reflexivity.
Qed.

Lemma insertion_sort_length l : length (insertion_sort lt l) = length l.
Proof. apply Permutation_length, insertion_sort_Permutation. Qed.

(** When [lt] compares integer keys the result is in ascending order of
    the keys. *)
Context (key : A -> Z) (lt_key : forall a b, lt a b = (key a <? key b)%Z).

Lemma insert_sorted_Sorted a l :
  Sorted Z.le (map key l) -> Sorted Z.le (map key (insert_sorted lt a l)).
Proof.
  induction l as [|b l IH]; simpl; intros Hsorted.
  - repeat constructor.
  - rewrite lt_key. destruct (Z.ltb_spec (key a) (key b)) as [Hlt|Hge].
    + simpl. constructor; [exact Hsorted|]. constructor. lia.
    + apply Sorted_inv in Hsorted as [Htail Hhead].
      simpl. constructor; [apply IH, Htail|].
      destruct l as [|c l]; simpl.
      * constructor. exact Hge.
      * rewrite lt_key. destruct (Z.ltb_spec (key a) (key c)); simpl.
        -- constructor. exact Hge.
        -- constructor. inversion Hhead; assumption.
Qed.

Lemma insertion_sort_from_Sorted l : forall sorted,
  Sorted Z.le (map key sorted) ->
  Sorted Z.le (map key (foldl (fun sorted a => insert_sorted lt a sorted) sorted l)).
Proof.
  induction l as [|a l IH]; intros sorted Hsorted; simpl; [exact Hsorted|].
  apply IH, insert_sorted_Sorted, Hsorted.
Qed.

Lemma insertion_sort_Sorted l : Sorted Z.le (map key (insertion_sort lt l)).
Proof. apply insertion_sort_from_Sorted. constructor. Qed.

End InsertionSort.

Lemma lt_duelist_wins a b : lt_duelist a b = (wins a <? wins b)%Z.
Proof. reflexivity. Qed.

Lemma list_eq_wins duelists : forall ints,
  list_eq duelists ints = true <-> map wins duelists = ints.
Proof.
  induction duelists as [|d ds IH]; intros [|k ks]; simpl; try easy.
  rewrite andb_true_iff, IH, Z.eqb_eq. split.
  - intros [-> ->]. reflexivity.
  - intros [= -> ->]. split; reflexivity.
Qed.

(** The wins of [sorted(duelists, reverse=True)] are the wins in
    descending order. *)
Lemma sorted_reverse_wins duelists (config : list Z) :
  Sorted Z.le (rev config) ->
  map wins (sorted_reverse duelists) = config <-> map wins duelists ≡ₚ config.
Proof.
  intros Hconfig. unfold sorted_reverse. rewrite map_rev.
  set (ascending := map wins (insertion_sort lt_duelist (rev duelists))).
  assert (Hperm : ascending ≡ₚ map wins duelists).
  { subst ascending. rewrite insertion_sort_Permutation, map_rev.
    symmetry. apply Permutation_rev. }
  assert (Hsorted : Sorted Z.le ascending).
  { apply insertion_sort_Sorted, lt_duelist_wins. }
  split.
  - intros <-. rewrite <- Hperm. apply Permutation_rev.
  - intros Hc. rewrite <- (rev_involutive config). f_equal.
    apply (Sorted_unique Z.le); [exact Hsorted | exact Hconfig |].
    rewrite Hperm, Hc. apply Permutation_rev.
Qed.

Lemma is_tied_iff duelists :
  is_tied duelists = true
  <-> map wins duelists ≡ₚ [3; 1; 1; 1]%Z \/ map wins duelists ≡ₚ [2; 2; 2; 0]%Z.
Proof.
  unfold is_tied, tied_win_configurations. simpl existsb.
  rewrite orb_false_r, orb_true_iff, !list_eq_wins.
  rewrite !sorted_reverse_wins; [reflexivity| |];
    simpl; repeat constructor; lia.
Qed.

(** ** One round *)

Ltac invert_bind H :=
  let v := fresh "v" in
  let Hv := fresh "Hv" in
  apply bind_Some in H as (v & Hv & H).

(** A round that ends has gone through each of its steps. *)
Lemma play_round_inv matchup decks entropy round_ duelists stdin shown duelists' stdin' :
  play_round matchup decks entropy round_ (duelists, stdin)
  = Some (shown, (duelists', stdin')) ->
  exists x y z w deck_x deck_y deck_z deck_w
         duelist_x duelist_y duelist_z duelist_w winner_xy winner_zw stdin1,
    shown = {| seats := (x, y, z, w);
               dealt := (deck_x, deck_y, deck_z, deck_w);
               pairings :=
                 [[show_pairing duelist_x deck_x; "VS"; show_pairing duelist_y deck_y];
                  [show_pairing duelist_z deck_z; "VS"; show_pairing duelist_w deck_w]] |}
    /\ seated_and_dealt matchup decks entropy round_ duelists
         x y z w deck_x deck_y deck_z deck_w
    /\ duelists !! x = Some duelist_x /\ duelists !! y = Some duelist_y
    /\ duelists !! z = Some duelist_z /\ duelists !! w = Some duelist_w
    /\ supervised_input [choose_from] [name duelist_x; name duelist_y] stdin
       = Some (winner_xy, stdin1)
    /\ supervised_input [choose_from] [name duelist_z; name duelist_w] stdin1
       = Some (winner_zw, stdin')
    /\ credit_winners winner_xy winner_zw duelists [x; y; z; w] = Some duelists'.
Proof.
  unfold play_round. intros H.
  invert_bind H. destruct v as [[[[x y] z] w] [[[deck_x deck_y] deck_z] deck_w]].
  invert_bind H. rename v into duelist_x, Hv0 into Hx.
  invert_bind H. rename v into duelist_y, Hv0 into Hy.
  invert_bind H. rename v into duelist_z, Hv0 into Hz.
  invert_bind H. rename v into duelist_w, Hv0 into Hw.
  invert_bind H. destruct v as [winner_xy stdin1]. rename Hv0 into Hxy.
  invert_bind H. destruct v as [winner_zw stdin2]. rename Hv0 into Hzw.
  invert_bind H. rename v into credited, Hv0 into Hcredit.
  injection H as <- <- <-.
  exists x, y, z, w, deck_x, deck_y, deck_z, deck_w,
    duelist_x, duelist_y, duelist_z, duelist_w, winner_xy, winner_zw, stdin1.
  split; [reflexivity|]. split; [|repeat split; assumption].
  unfold seated_and_dealt.
  destruct (round_ =? final_round) eqn:Hround.
  - left. apply Nat.eqb_eq in Hround.
    invert_bind Hv. destruct v as [[[x' y'] z'] w'].
    invert_bind Hv. invert_bind Hv. invert_bind Hv. invert_bind Hv.
    injection Hv as -> -> -> -> -> -> -> ->. tauto.
  - right. apply Nat.eqb_neq in Hround.
    invert_bind Hv. destruct v as [[[x' y'] z'] w'].
    invert_bind Hv. invert_bind Hv. invert_bind Hv. invert_bind Hv.
    injection Hv as -> -> -> -> -> -> -> ->. tauto.
Qed.

Lemma imap_indices (duelists : list Duelist) : forall k,
  map fst (imap (fun i d => (k + i, d)) duelists) = seq k (length duelists).
Proof.
  induction duelists as [|d ds IH]; intros k; simpl; [reflexivity|].
  rewrite Nat.add_0_r. f_equal. rewrite <- (IH (S k)). f_equal.
  apply imap_ext. intros i x _. simpl. f_equal. lia.
Qed.

(** [np.argsort] returns the indices of the array, each once. *)
Lemma argsort_Permutation duelists : argsort duelists ≡ₚ seq 0 (length duelists).
Proof.
  unfold argsort. rewrite insertion_sort_Permutation.
  rewrite <- (imap_indices duelists 0). reflexivity.
Qed.

Lemma unpack4_Some {A : Type} (l : list A) x y z w :
  unpack4 l = Some (x, y, z, w) <-> l = [x; y; z; w].
Proof.
  unfold unpack4. split.
  - destruct l as [|? [|? [|? [|? [|? ?]]]]]; try discriminate.
    intros [= -> -> -> ->]. reflexivity.
  - intros ->. reflexivity.
Qed.

(** The tie-break draws one of the three configurations. *)
Lemma tie_break_configuration entropy x y z w :
  pairing_configurations !! randint 3 entropy ≫= unpack4 = Some (x, y, z, w) ->
  [x; y; z; w] ∈ pairing_configurations.
Proof.
  intros H. invert_bind H. apply unpack4_Some in H as ->.
  eapply list_elem_of_lookup_2, Hv.
Qed.

(** In every round the four seats are the four slots. *)
Lemma seats_Permutation matchup decks entropy round_ duelists
    x y z w deck_x deck_y deck_z deck_w :
  seated_and_dealt matchup decks entropy round_ duelists
    x y z w deck_x deck_y deck_z deck_w ->
  [x; y; z; w] ∈ permutations [0; 1; 2; 3].
Proof.
  assert (Hconfigs : forall c, c ∈ pairing_configurations ->
                               c ∈ permutations [0; 1; 2; 3]).
  { intros c Hc. apply list_elem_of_In in Hc. simpl in Hc.
    destruct Hc as [<-|[<-|[<-|[]]]];
      apply (proj1 (bool_decide_eq_true _)); vm_compute; reflexivity. }
  intros [(_ & Hseats & _)|(_ & Hseats & _)].
  - destruct (is_tied duelists).
    + apply Hconfigs, (tie_break_configuration entropy), Hseats.
    + apply unpack4_Some in Hseats.
      apply permutations_Permutation. rewrite <- Hseats.
      unfold flip. rewrite <- Permutation_rev.
      assert (Hlen : length (argsort duelists) = 4).
      { rewrite <- (length_rev (argsort duelists)).
        fold (flip (argsort duelists)). rewrite Hseats. reflexivity. }
      symmetry. rewrite argsort_Permutation.
      rewrite (Permutation_length (argsort_Permutation duelists)) in Hlen.
      rewrite length_seq in Hlen. rewrite Hlen. reflexivity.
  - invert_bind Hseats. apply unpack4_Some in Hseats as ->.
    eapply Hconfigs, list_elem_of_lookup_2, Hv.
Qed.

(** C5. In the final round the tie-break branch is the one taken exactly
    when the win counts are a permutation of 3, 1, 1, 1 or of 2, 2, 2, 0,
    and the seats it gives are one of the three fixed configurations;
    otherwise the seats are the flipped [argsort]. *)
Theorem tie_break_iff_tied_wins matchup decks entropy duelists stdin shown state' :
  play_round matchup decks entropy final_round (duelists, stdin)
  = Some (shown, state') ->
  (is_tied duelists = true
   <-> map wins duelists ≡ₚ [3; 1; 1; 1]%Z \/ map wins duelists ≡ₚ [2; 2; 2; 0]%Z)
  /\ (let '(x, y, z, w) := seats shown in
      (is_tied duelists = true ->
       pairing_configurations !! randint 3 entropy = Some [x; y; z; w]
       /\ ([x; y; z; w] = [0; 1; 2; 3] \/ [x; y; z; w] = [1; 3; 0; 2]
           \/ [x; y; z; w] = [3; 0; 1; 2]))
      /\ (is_tied duelists = false -> flip (argsort duelists) = [x; y; z; w])).
Proof.
  intros Hround. split; [apply is_tied_iff|].
  destruct state' as [duelists' stdin'].
  apply play_round_inv in Hround
    as (x & y & z & w & deck_x & deck_y & deck_z & deck_w & dx & dy & dz & dw
        & wxy & wzw & stdin1 & -> & Hseated & _).
  simpl. destruct Hseated as [(_ & Hseats & _)|(Hne & _)]; [|congruence].
  split; intros Htied; rewrite Htied in Hseats.
  - pose proof (tie_break_configuration _ _ _ _ _ Hseats) as Hin.
    invert_bind Hseats. apply unpack4_Some in Hseats as ->.
    split; [exact Hv|].
    apply list_elem_of_In in Hin. simpl in Hin.
    destruct Hin as [H|[H|[H|[]]]]; symmetry in H; auto.
  - apply unpack4_Some, Hseats.
Qed.

Lemma tie_break_iff_tied_wins_witness :
  exists shown state',
    play_round docstring_square decks_basic 1 final_round
      (standing 1 3 1 1, ["Bob"; "Ann"]) = Some (shown, state')
    /\ (is_tied (standing 1 3 1 1) = true
        <-> map wins (standing 1 3 1 1) ≡ₚ [3; 1; 1; 1]%Z
            \/ map wins (standing 1 3 1 1) ≡ₚ [2; 2; 2; 0]%Z)
    /\ (let '(x, y, z, w) := seats shown in
        (is_tied (standing 1 3 1 1) = true ->
         pairing_configurations !! randint 3 1 = Some [x; y; z; w]
         /\ ([x; y; z; w] = [0; 1; 2; 3] \/ [x; y; z; w] = [1; 3; 0; 2]
             \/ [x; y; z; w] = [3; 0; 1; 2]))
        /\ (is_tied (standing 1 3 1 1) = false ->
            flip (argsort (standing 1 3 1 1)) = [x; y; z; w])).
Proof.
  eexists _, _. split; [vm_compute; reflexivity|].
  eapply (tie_break_iff_tied_wins docstring_square decks_basic 1
            (standing 1 3 1 1) ["Bob"; "Ann"]).
  vm_compute. reflexivity.
Defined.

(** ** The final round without a tie *)

(** One step of the symbolic run of a sort on a list of known length. *)
Ltac sort_step :=
  first
    [ progress cbn [imap foldl insert_sorted compose snd]
    | rewrite lt_duelist_wins
    | match goal with
      | |- context [(?a <? ?b)%Z] => destruct (Z.ltb_spec a b)
      end ].

Lemma argsort_ranked d0 d1 d2 d3 x y z w :
  flip (argsort [d0; d1; d2; d3]) = [x; y; z; w] ->
  ahead [d0; d1; d2; d3] x y /\ ahead [d0; d1; d2; d3] y z
  /\ ahead [d0; d1; d2; d3] z w.
Proof.
  unfold flip, argsort, insertion_sort.
  repeat sort_step; try lia;
    cbn [map fst rev app]; intros [= <- <- <- <-];
    unfold ahead; repeat split;
    (eexists _, _; split; [reflexivity|]; split; [reflexivity|]; lia).
Qed.

(** Case analysis on the 24 ways of seating four slots. *)
Ltac each_seating H :=
  apply list_elem_of_In in H; vm_compute in H;
  repeat (destruct H as [H|H]); [injection H as <- <- <- <- ..|destruct H].

Lemma argsort_length duelists : length (argsort duelists) = length duelists.
Proof.
  rewrite (Permutation_length (argsort_Permutation duelists)).
  apply length_seq.
Qed.

Lemma supervised_input_choose_from options stdin user_input rest :
  supervised_input [choose_from] options stdin = Some (user_input, rest) ->
  user_input ∈ options.
Proof.
  induction stdin as [|line stdin IH]; simpl; [discriminate|].
  case_bool_decide as Hin; simpl.
  - intros [= <- _]. exact Hin.
  - exact IH.
Qed.

(** C3 (amended). In the final round without a tie the seats x, y, z, w
    are the four slots in descending order of wins, a slot with as many
    wins as another coming first when its index is the greater one, and
    the matches are x against y and z against w: the table printed sets
    the first of the ranking against the second and the third against the
    fourth, the first question is answered by the name of the first or of
    the second, the second question by the name of the third or of the
    fourth, and the wins are credited for these two answers. *)
Theorem final_round_untied_seats_by_rank
    matchup decks entropy duelists stdin shown duelists' stdin' :
  play_round matchup decks entropy final_round (duelists, stdin)
  = Some (shown, (duelists', stdin')) ->
  is_tied duelists = false ->
  let '(x, y, z, w) := seats shown in
  let '(deck_x, deck_y, deck_z, deck_w) := dealt shown in
  [x; y; z; w] ≡ₚ [0; 1; 2; 3]
  /\ ahead duelists x y /\ ahead duelists y z /\ ahead duelists z w
  /\ exists rank1 rank2 rank3 rank4 winner_xy winner_zw stdin1,
       duelists !! x = Some rank1 /\ duelists !! y = Some rank2
       /\ duelists !! z = Some rank3 /\ duelists !! w = Some rank4
       /\ pairings shown
          = [[show_pairing rank1 deck_x; "VS"; show_pairing rank2 deck_y];
             [show_pairing rank3 deck_z; "VS"; show_pairing rank4 deck_w]]
       /\ supervised_input [choose_from] [name rank1; name rank2] stdin
          = Some (winner_xy, stdin1)
       /\ supervised_input [choose_from] [name rank3; name rank4] stdin1
          = Some (winner_zw, stdin')
       /\ (winner_xy = name rank1 \/ winner_xy = name rank2)
       /\ (winner_zw = name rank3 \/ winner_zw = name rank4)
       /\ credit_winners winner_xy winner_zw duelists [x; y; z; w]
          = Some duelists'.
Proof.
  intros Hround Htied.
  apply play_round_inv in Hround
    as (x & y & z & w & deck_x & deck_y & deck_z & deck_w & dx & dy & dz & dw
        & wxy & wzw & stdin1 & -> & Hseated & Hx & Hy & Hz & Hw
        & Hxy & Hzw & Hcredit).
  pose proof (seats_Permutation _ _ _ _ _ _ _ _ _ _ _ _ _ Hseated) as Hperm.
  cbn [seats dealt pairings].
  split; [symmetry; apply permutations_Permutation, Hperm|].
  destruct Hseated as [(_ & Hseats & _)|(Hne & _)]; [|congruence].
  rewrite Htied in Hseats. apply unpack4_Some in Hseats.
  assert (Hlen : length duelists = 4).
  { rewrite <- argsort_length, <- (length_rev (argsort duelists)).
    fold (flip (argsort duelists)). rewrite Hseats. reflexivity. }
  assert (Hranked : ahead duelists x y /\ ahead duelists y z /\ ahead duelists z w).
  { destruct duelists as [|d0 [|d1 [|d2 [|d3 [|? ?]]]]]; try discriminate Hlen.
    apply argsort_ranked, Hseats. }
  destruct Hranked as (Hxy' & Hyz' & Hzw').
  repeat (split; [assumption|]).
  exists dx, dy, dz, dw, wxy, wzw, stdin1.
  repeat (split; [assumption || reflexivity|]).
  pose proof (supervised_input_choose_from _ _ _ _ Hxy) as Hin_xy.
  pose proof (supervised_input_choose_from _ _ _ _ Hzw) as Hin_zw.
  apply elem_of_cons in Hin_xy as [Hin_xy|Hin_xy];
    [|apply list_elem_of_singleton in Hin_xy];
    (apply elem_of_cons in Hin_zw as [Hin_zw|Hin_zw];
     [|apply list_elem_of_singleton in Hin_zw]); auto.
Qed.

Lemma final_round_untied_seats_by_rank_witness :
  exists shown duelists' stdin',
    play_round docstring_square decks_basic 0 final_round
      (standing 2 2 1 1, ["Bob"; "Dan"]) = Some (shown, (duelists', stdin'))
    /\ seats shown = (1, 0, 3, 2)
    /\ pairings shown = [["Bob (Chaos)"; "VS"; "Ann (Dragon)"];
                         ["Dan (Beast)"; "VS"; "Cid (Spellcaster)"]]
    /\ map wins duelists' = [2; 3; 1; 2]%Z
    /\ let '(x, y, z, w) := seats shown in
       let '(deck_x, deck_y, deck_z, deck_w) := dealt shown in
       [x; y; z; w] ≡ₚ [0; 1; 2; 3]
       /\ ahead (standing 2 2 1 1) x y /\ ahead (standing 2 2 1 1) y z
       /\ ahead (standing 2 2 1 1) z w
       /\ exists rank1 rank2 rank3 rank4 winner_xy winner_zw stdin1,
            standing 2 2 1 1 !! x = Some rank1
            /\ standing 2 2 1 1 !! y = Some rank2
            /\ standing 2 2 1 1 !! z = Some rank3
            /\ standing 2 2 1 1 !! w = Some rank4
            /\ pairings shown
               = [[show_pairing rank1 deck_x; "VS"; show_pairing rank2 deck_y];
                  [show_pairing rank3 deck_z; "VS"; show_pairing rank4 deck_w]]
            /\ supervised_input [choose_from] [name rank1; name rank2]
                 ["Bob"; "Dan"] = Some (winner_xy, stdin1)
            /\ supervised_input [choose_from] [name rank3; name rank4] stdin1
               = Some (winner_zw, stdin')
            /\ (winner_xy = name rank1 \/ winner_xy = name rank2)
            /\ (winner_zw = name rank3 \/ winner_zw = name rank4)
            /\ credit_winners winner_xy winner_zw (standing 2 2 1 1) [x; y; z; w]
               = Some duelists'.
Proof.
  eexists _, _, _. split; [vm_compute; reflexivity|].
  split; [reflexivity|]. split; [reflexivity|]. split; [reflexivity|].
  eapply (final_round_untied_seats_by_rank docstring_square decks_basic 0
            (standing 2 2 1 1) ["Bob"; "Dan"]).
  - vm_compute. reflexivity.
  - vm_compute. reflexivity.
Defined.

(** C3 (as stated, refuted). After preliminary rounds that leave the slots
    0, 1, 2, 3 (Ann, Bob, Cid and Dan) with 3, 2, 1 and 0 wins there is no
    tie, and the claim has the first of the ranking play the fourth, Ann
    against Dan, and the second play the third, Bob against Cid. The table
    the final round prints sets Ann against Bob and Cid against Dan. Of the
    answers Ann, Bob, Dan the first is taken as the winner of the first
    match; Bob, who is not in the second match, is refused as the winner of
    the second, and Dan is taken: the wins end at 4, 2, 1 and 1, where the
    matches of the claim would have taken Ann and Bob, left Dan unread and
    ended at 4, 3, 1 and 0. With 2, 2, 1 and 1 wins the seats are
    1, 0, 3, 2 where the claimed order of equal wins is 0, 1, 2, 3. *)
Lemma final_round_pairs_first_with_second :
  exists log duelists3 stdin3 shown duelists4,
    play_rounds docstring_square decks_basic 0 [0; 1; 2]
      (entrants, preliminary_winners ++ ["ann"; "bob"; "dan"])
    = Some (log, (duelists3, stdin3))
    /\ map wins duelists3 = [3; 2; 1; 0]%Z
    /\ stdin3 = ["ann"; "bob"; "dan"]
    /\ is_tied duelists3 = false
    /\ spec_final_matches duelists3 = Some ((0, 3), (1, 2))
    /\ play_round docstring_square decks_basic 0 final_round (duelists3, stdin3)
       = Some (shown, (duelists4, []))
    /\ seats shown = (0, 1, 2, 3)
    /\ pairings shown = [["Ann (Dragon)"; "VS"; "Bob (Chaos)"];
                         ["Cid (Spellcaster)"; "VS"; "Dan (Beast)"]]
    /\ supervised_input [choose_from] ["Ann"; "Bob"] stdin3
       = Some ("Ann", ["bob"; "dan"])
    /\ supervised_input [choose_from] ["Cid"; "Dan"] ["bob"; "dan"]
       = Some ("Dan", [])
    /\ supervised_input [choose_from] ["Bob"; "Cid"] ["bob"; "dan"]
       = Some ("Bob", ["dan"])
    /\ map wins duelists4 = [4; 2; 1; 1]%Z
    /\ flip (argsort (standing 2 2 1 1)) = [1; 0; 3; 2]
    /\ spec_ranking (standing 2 2 1 1) = [0; 1; 2; 3].
Proof.
  eexists _, _, _, _, _.
  split; [vm_compute; reflexivity|].
  split; [reflexivity|]. split; [reflexivity|]. split; [reflexivity|].
  split; [reflexivity|].
  split; [vm_compute; reflexivity|].
  repeat split; reflexivity.
Qed.

(** ** Crediting the winners *)

Lemma for_each_ext {S : Type} (f g : S -> nat -> option S) indices :
  (forall s i, f s i = g s i) ->
  forall s, for_each f s indices = for_each g s indices.
Proof.
  intros Hfg. induction indices as [|i indices IH]; intros s; simpl;
    [reflexivity|].
  rewrite Hfg. destruct (g s i); simpl; [apply IH | reflexivity].
Qed.

(** Visiting the four slots in any order credits every duelist whose name
    is one of the two winners. *)
Lemma credit_winners_map duelists x y z w winner_xy winner_zw :
  length duelists = 4 ->
  [x; y; z; w] ∈ permutations [0; 1; 2; 3] ->
  credit_winners winner_xy winner_zw duelists [x; y; z; w]
  = Some (map (fun d => if Duelist_in d [winner_xy; winner_zw]
                        then add_win d else d) duelists).
Proof.
  intros Hlen Hperm.
  destruct duelists as [|d0 [|d1 [|d2 [|d3 [|? ?]]]]]; try discriminate Hlen.
  unfold credit_winners.
  remember (fun d => Duelist_in d [winner_xy; winner_zw]) as wins_match eqn:E.
  assert (Hbody : forall d, Duelist_in d [winner_xy; winner_zw] = wins_match d)
    by (intros d; rewrite E; reflexivity).
  erewrite (map_ext _ (fun d => if wins_match d then add_win d else d));
    [|intros d; rewrite Hbody; reflexivity].
  rewrite (for_each_ext _
             (fun duelists i =>
                d ← duelists !! i;
                Some (if wins_match d then <[i := add_win d]> duelists
                      else duelists)));
    [|intros s i; destruct (s !! i); cbn [mbind option_bind];
      rewrite ?Hbody; reflexivity].
  clear E Hbody.
  each_seating Hperm;
    repeat (simpl;
            match goal with
            | |- context [wins_match ?d] => destruct (wins_match d)
            end);
    reflexivity.
Qed.

Lemma Duelist_in_two d name1 name2 :
  Duelist_in d [name1; name2]
  = (String.eqb (name d) name1 || String.eqb (name d) name2).
Proof. unfold Duelist_in. simpl. rewrite orb_false_r. reflexivity. Qed.

Lemma NoDup_four (a b c d : string) :
  NoDup [a; b; c; d] ->
  a <> b /\ a <> c /\ a <> d /\ b <> c /\ b <> d /\ c <> d.
Proof.
  intros H%NoDup_ListNoDup.
  inversion H as [|? ? Ha H1]; subst. inversion H1 as [|? ? Hb H2]; subst.
  inversion H2 as [|? ? Hc _]; subst. simpl in Ha, Hb, Hc.
  repeat split; intros E; subst; tauto.
Qed.

(** With distinct names, the winners of slots [i] and [j] are the only
    ones credited. *)
Lemma credit_two_names duelists i j di dj :
  length duelists = 4 -> NoDup (map name duelists) -> i <> j ->
  duelists !! i = Some di -> duelists !! j = Some dj ->
  map (fun d => if Duelist_in d [name di; name dj] then add_win d else d) duelists
  = alter add_win i (alter add_win j duelists).
Proof.
  intros Hlen Hnames Hij Hi Hj.
  destruct duelists as [|d0 [|d1 [|d2 [|d3 [|? ?]]]]]; try discriminate Hlen.
  assert (Hne : forall a b, a <> b -> String.eqb a b = false /\ String.eqb b a = false).
  { intros a b Hab. split; apply String.eqb_neq; congruence. }
  simpl in Hnames.
  apply NoDup_four in Hnames as (H01 & H02 & H03 & H12 & H13 & H23).
  destruct (Hne _ _ H01) as [E01 E10], (Hne _ _ H02) as [E02 E20],
    (Hne _ _ H03) as [E03 E30], (Hne _ _ H12) as [E12 E21],
    (Hne _ _ H13) as [E13 E31], (Hne _ _ H23) as [E23 E32].
  destruct i as [|[|[|[|i]]]]; try discriminate Hi;
    destruct j as [|[|[|[|j]]]]; try discriminate Hj; try congruence;
    injection Hi as <-; injection Hj as <-;
    cbn [map]; rewrite !Duelist_in_two, !String.eqb_refl,
      ?E01, ?E10, ?E02, ?E20, ?E03, ?E30, ?E12, ?E21, ?E13, ?E31, ?E23, ?E32;
    reflexivity.
Qed.

Lemma total_wins_credit_two duelists i j :
  length duelists = 4 -> i <> j -> i < 4 -> j < 4 ->
  total_wins (alter add_win i (alter add_win j duelists))
  = (total_wins duelists + 2)%Z.
Proof.
  intros Hlen Hij Hi Hj.
  destruct duelists as [|d0 [|d1 [|d2 [|d3 [|? ?]]]]]; try discriminate Hlen.
  destruct i as [|[|[|[|i]]]]; try lia;
    destruct j as [|[|[|[|j]]]]; try lia;
    unfold total_wins; simpl; lia.
Qed.

Lemma names_add_win duelists : forall i,
  map name (alter add_win i duelists) = map name duelists.
Proof.
  induction duelists as [|d ds IH]; intros [|i]; simpl; try reflexivity.
  f_equal. apply IH.
Qed.

Lemma names_credit_two duelists i j :
  map name (alter add_win i (alter add_win j duelists)) = map name duelists.
Proof. rewrite !names_add_win. reflexivity. Qed.

Lemma seats_distinct x y z w :
  [x; y; z; w] ∈ permutations [0; 1; 2; 3] ->
  (x < 4 /\ y < 4 /\ z < 4 /\ w < 4)
  /\ (x <> y /\ x <> z /\ x <> w /\ y <> z /\ y <> w /\ z <> w).
Proof. intros Hperm. each_seating Hperm; lia. Qed.

(** A round credits one duelist of each of its two matches. *)
Lemma play_round_two_wins
    matchup decks entropy round_ duelists stdin shown duelists' stdin' :
  length duelists = 4 -> NoDup (map name duelists) ->
  play_round matchup decks entropy round_ (duelists, stdin)
  = Some (shown, (duelists', stdin')) ->
  exists i j,
    i <> j /\ i < 4 /\ j < 4
    /\ (let '(x, y, z, w) := seats shown in (i = x \/ i = y) /\ (j = z \/ j = w))
    /\ duelists' = alter add_win i (alter add_win j duelists).
Proof.
  intros Hlen Hnames Hround.
  apply play_round_inv in Hround
    as (x & y & z & w & deck_x & deck_y & deck_z & deck_w & dx & dy & dz & dw
        & wxy & wzw & stdin1 & -> & Hseated & Hx & Hy & Hz & Hw
        & Hxy & Hzw & Hcredit).
  pose proof (seats_Permutation _ _ _ _ _ _ _ _ _ _ _ _ _ Hseated) as Hperm.
  rewrite (credit_winners_map _ _ _ _ _ _ _ Hlen Hperm) in Hcredit.
  injection Hcredit as <-.
  apply seats_distinct in Hperm as [(Lx & Ly & Lz & Lw) Hne].
  apply supervised_input_choose_from in Hxy, Hzw.
  cbn [seats].
  apply elem_of_cons in Hxy as [->|Hxy]; [|apply list_elem_of_singleton in Hxy as ->];
    (apply elem_of_cons in Hzw as [->|Hzw];
     [|apply list_elem_of_singleton in Hzw as ->]).
  - exists x, z. repeat split; try tauto.
    exact (credit_two_names duelists x z dx dz Hlen Hnames ltac:(tauto) Hx Hz).
  - exists x, w. repeat split; try tauto.
    exact (credit_two_names duelists x w dx dw Hlen Hnames ltac:(tauto) Hx Hw).
  - exists y, z. repeat split; try tauto.
    exact (credit_two_names duelists y z dy dz Hlen Hnames ltac:(tauto) Hy Hz).
  - exists y, w. repeat split; try tauto.
    exact (credit_two_names duelists y w dy dw Hlen Hnames ltac:(tauto) Hy Hw).
Qed.

(** What every round keeps, and what it adds. *)
Lemma play_round_invariant
    matchup decks entropy round_ duelists stdin shown duelists' stdin' :
  length duelists = 4 -> NoDup (map name duelists) ->
  play_round matchup decks entropy round_ (duelists, stdin)
  = Some (shown, (duelists', stdin')) ->
  length duelists' = 4 /\ map name duelists' = map name duelists
  /\ total_wins duelists' = (total_wins duelists + 2)%Z.
Proof.
  intros Hlen Hnames Hround.
  destruct (play_round_two_wins _ _ _ _ _ _ _ _ _ Hlen Hnames Hround)
    as (i & j & Hij & Hi & Hj & _ & ->).
  rewrite !length_alter, names_credit_two, total_wins_credit_two by assumption.
  tauto.
Qed.

Lemma play_rounds_invariant matchup decks entropy rounds :
  forall duelists stdin log duelists' stdin',
  length duelists = 4 -> NoDup (map name duelists) ->
  play_rounds matchup decks entropy rounds (duelists, stdin)
  = Some (log, (duelists', stdin')) ->
  length duelists' = 4 /\ map name duelists' = map name duelists
  /\ total_wins duelists' = (total_wins duelists + 2 * Z.of_nat (length rounds))%Z
  /\ length log = length rounds.
Proof.
  induction rounds as [|round_ rounds IH];
    intros duelists stdin log duelists' stdin' Hlen Hnames Hplay.
  - injection Hplay as <- <- <-. simpl. repeat split; lia.
  - cbn [play_rounds] in Hplay.
    invert_bind Hplay. destruct v as [shown [duelists1 stdin1]].
    invert_bind Hplay. destruct v as [log' [duelists2 stdin2]].
    injection Hplay as <- <- <-.
    apply play_round_invariant in Hv as (Hlen1 & Hnames1 & Htotal1);
      [|assumption..].
    apply IH in Hv0 as (Hlen2 & Hnames2 & Htotal2 & Hlog);
      [|assumption | rewrite Hnames1; assumption].
    cbn [length]. repeat split; [assumption | congruence | lia | lia].
Qed.

Lemma total_wins_zero duelists :
  Forall (fun d => wins d = 0%Z) duelists -> total_wins duelists = 0%Z.
Proof.
  unfold total_wins. induction 1 as [|d ds Hd _ IH]; simpl; [reflexivity|].
  rewrite Hd, IH. reflexivity.
Qed.

(** C6. From four duelists with pairwise distinct names and no win, every
    round of [timeless] credits exactly two duelists with one win each, one
    of each match, so that the win counts add up to 6 after the three
    preliminary rounds and to 8 when [timeless] ends, whatever winners are
    typed. *)
Theorem two_wins_every_round
    matchup fuel rng decks entropy entry_fee duelists stdin :
  length duelists = 4 ->
  NoDup (map name duelists) ->
  Forall (fun d => wins d = 0%Z) duelists ->
  (forall rounds log duelists1 stdin1 round_ shown duelists2 stdin2,
     play_rounds matchup decks entropy rounds (duelists, stdin)
     = Some (log, (duelists1, stdin1)) ->
     play_round matchup decks entropy round_ (duelists1, stdin1)
     = Some (shown, (duelists2, stdin2)) ->
     exists i j,
       i <> j /\ i < 4 /\ j < 4
       /\ (let '(x, y, z, w) := seats shown in
           (i = x \/ i = y) /\ (j = z \/ j = w))
       /\ duelists2 = alter add_win i (alter add_win j duelists1))
  /\ (forall log duelists3 stdin3,
        play_rounds matchup decks entropy [0; 1; 2] (duelists, stdin)
        = Some (log, (duelists3, stdin3)) ->
        total_wins duelists3 = 6%Z)
  /\ (forall square_ log duelists4 stdin4,
        timeless fuel rng entropy stdin duelists decks entry_fee
        = Some (square_, log, duelists4, stdin4) ->
        total_wins duelists4 = 8%Z).
Proof.
  intros Hlen Hnames Hzero. apply total_wins_zero in Hzero.
  split; [|split].
  - intros rounds log duelists1 stdin1 round_ shown duelists2 stdin2 Hplay Hround.
    apply play_rounds_invariant in Hplay as (Hlen1 & Hnames1 & _);
      [|assumption..].
    eapply play_round_two_wins; [exact Hlen1 | | exact Hround].
    rewrite Hnames1. exact Hnames.
  - intros log duelists3 stdin3 Hplay.
    apply play_rounds_invariant in Hplay as (_ & _ & Htotal & _);
      [|assumption..].
    rewrite Htotal, Hzero. reflexivity.
  - intros square_ log duelists4 stdin4 Hrun. unfold timeless in Hrun.
    invert_bind Hrun. destruct v as [sq k].
    invert_bind Hrun. destruct v as [log' [duelists' stdin']].
    injection Hrun as <- <- <- <-.
    apply play_rounds_invariant in Hv0 as (_ & _ & Htotal & _);
      [|assumption..].
    rewrite Htotal, Hzero. reflexivity.
Qed.

Lemma two_wins_every_round_witness :
  exists square_ log duelists4 stdin4,
    timeless 1 docstring_rng 0 (preliminary_winners ++ ["ann"; "cid"])
      entrants decks_basic 10
    = Some (square_, log, duelists4, stdin4)
    /\ map wins duelists4 = [4; 2; 2; 0]%Z
    /\ total_wins duelists4 = 8%Z.
Proof.
  eexists _, _, _, _. split; [vm_compute; reflexivity|].
  split; [reflexivity|].
  eapply (two_wins_every_round docstring_square 1 docstring_rng decks_basic 0 10
            entrants (preliminary_winners ++ ["ann"; "cid"])).
  - reflexivity.
  - apply (bool_decide_unpack _). vm_compute. exact I.
  - repeat constructor.
  - vm_compute. reflexivity.
Defined.

(** ** Decks across the four rounds *)

(** In a preliminary round the seats are the configuration of the round
    and a slot is dealt the deck of its row at the column of its opponent. *)
Lemma preliminary_round_decks matchup decks entropy round_ duelists stdin shown state' :
  round_ < 3 ->
  play_round matchup decks entropy round_ (duelists, stdin) = Some (shown, state') ->
  pairing_configurations !! round_ ≫= unpack4 = Some (seats shown)
  /\ forall slot j,
       opponent shown slot = Some j ->
       deck_dealt shown slot = deck_of decks matchup slot j
       /\ is_Some (deck_of decks matchup slot j).
Proof.
  intros Hprelim Hround. destruct state' as [duelists' stdin'].
  apply play_round_inv in Hround
    as (x & y & z & w & deck_x & deck_y & deck_z & deck_w & dx & dy & dz & dw
        & wxy & wzw & stdin1 & -> & Hseated & _).
  destruct Hseated as [(Hfinal & _)|(_ & Hseats & Hdx & Hdy & Hdz & Hdw)];
    [unfold final_round in Hfinal; lia|].
  split; [exact Hseats|].
  intros slot j. unfold opponent, deck_dealt. cbn [seats dealt].
  destruct round_ as [|[|[|round_]]]; [| | |lia];
    injection Hseats as <- <- <- <-;
    destruct slot as [|[|[|[|slot]]]]; simpl; intros [= <-];
    rewrite ?Hdx, ?Hdy, ?Hdz, ?Hdw; eauto.
Qed.

(** In the final round a slot is dealt the deck of the diagonal. *)
Lemma final_round_decks matchup decks entropy duelists stdin shown state' :
  play_round matchup decks entropy final_round (duelists, stdin)
  = Some (shown, state') ->
  forall slot, slot < 4 ->
    deck_dealt shown slot = deck_of decks matchup slot slot
    /\ is_Some (deck_of decks matchup slot slot).
Proof.
  intros Hround. destruct state' as [duelists' stdin'].
  apply play_round_inv in Hround
    as (x & y & z & w & deck_x & deck_y & deck_z & deck_w & dx & dy & dz & dw
        & wxy & wzw & stdin1 & -> & Hseated & _).
  pose proof (seats_Permutation _ _ _ _ _ _ _ _ _ _ _ _ _ Hseated) as Hperm.
  destruct Hseated as [(_ & _ & Hdx & Hdy & Hdz & Hdw)|(Hne & _)];
    [|congruence].
  intros slot Hslot. unfold deck_dealt. cbn [seats dealt].
  each_seating Hperm;
    destruct slot as [|[|[|[|slot]]]]; try lia; simpl;
    rewrite ?Hdx, ?Hdy, ?Hdz, ?Hdw; eauto.
Qed.

Lemma lookup_four (decks : list string) :
  (forall v, v < 4 -> is_Some (decks !! v)) ->
  map (fun v => decks !! v) [0; 1; 2; 3] = map Some (take 4 decks).
Proof.
  intros Hall.
  destruct (Hall 3 ltac:(lia)) as [e3 H3].
  destruct decks as [|e0' [|e1' [|e2' [|e3' rest]]]]; try discriminate H3.
  reflexivity.
Qed.

Lemma play_rounds_four matchup decks entropy state log state' :
  play_rounds matchup decks entropy (seq 0 4) state = Some (log, state') ->
  exists r0 r1 r2 r3 s1 s2 s3,
    log = [r0; r1; r2; r3]
    /\ play_round matchup decks entropy 0 state = Some (r0, s1)
    /\ play_round matchup decks entropy 1 s1 = Some (r1, s2)
    /\ play_round matchup decks entropy 2 s2 = Some (r2, s3)
    /\ play_round matchup decks entropy final_round s3 = Some (r3, state').
Proof.
  cbn [seq play_rounds]. intros H.
  invert_bind H. destruct v as [r0 s1].
  invert_bind H. destruct v as [log1 s1'].
  invert_bind Hv0. destruct v as [r1 s2].
  invert_bind Hv0. destruct v as [log2 s2'].
  invert_bind Hv2. destruct v as [r2 s3].
  invert_bind Hv2. destruct v as [log3 s3'].
  invert_bind Hv4. destruct v as [r3 s4].
  injection Hv4 as <- <-. injection Hv2 as <- <-. injection Hv0 as <- <-.
  injection H as <- <-.
  exists r0, r1, r2, r3, s1, s2, s3. repeat split; assumption.
Qed.

(** The decks of a row of the square, read in any order of the columns,
    are the four decks. *)
Lemma row_decks (decks : list string) (row columns : list nat)
    (hand : list (option string)) :
  row ≡ₚ [0; 1; 2; 3] -> columns ≡ₚ [0; 1; 2; 3] ->
  hand = map (fun j => v ← row !! j; decks !! v) columns ->
  Forall is_Some hand ->
  hand ≡ₚ map (fun v => decks !! v) row /\ hand ≡ₚ map Some (take 4 decks).
Proof.
  intros Hrow Hcolumns -> Hsome.
  assert (Hhand : map (fun j => v ← row !! j; decks !! v) columns
                  ≡ₚ map (fun v => decks !! v) row).
  { rewrite Hcolumns. pose proof (Permutation_length Hrow) as Hlen.
    four_elements row Hlen. reflexivity. }
  split; [exact Hhand|].
  rewrite Hhand in Hsome |- *. rewrite Hrow in Hsome |- *.
  rewrite lookup_four; [reflexivity|].
  intros v Hv. rewrite Forall_forall in Hsome. apply Hsome.
  destruct v as [|[|[|[|v]]]]; [| | | |lia]; simpl; auto.
Qed.

(** C4. In a run of [timeless], whatever the square drawn, the winners
    typed and the outcome of the tie-break, every slot plays the three
    other slots once each in the preliminary rounds, is dealt the deck
    [decks[square[slot][j]]] in the round where it plays slot [j] and the
    deck [decks[square[slot][slot]]] in the final round: its decks are
    those of its row of the square, each of the four decks once. *)
Theorem each_slot_is_dealt_its_row
    fuel rng entropy stdin duelists decks entry_fee
    square_ log duelists' stdin' slot :
  permutation_source rng ->
  timeless fuel rng entropy stdin duelists decks entry_fee
  = Some (square_, log, duelists', stdin') ->
  slot < 4 ->
  exists r0 r1 r2 r3 j0 j1 j2 row,
    log = [r0; r1; r2; r3]
    /\ opponent r0 slot = Some j0 /\ opponent r1 slot = Some j1
    /\ opponent r2 slot = Some j2
    /\ [j0; j1; j2; slot] ≡ₚ [0; 1; 2; 3]
    /\ deck_dealt r0 slot = deck_of decks square_ slot j0
    /\ deck_dealt r1 slot = deck_of decks square_ slot j1
    /\ deck_dealt r2 slot = deck_of decks square_ slot j2
    /\ deck_dealt r3 slot = deck_of decks square_ slot slot
    /\ square_ !! slot = Some row /\ row ≡ₚ [0; 1; 2; 3]
    /\ map (fun r => deck_dealt r slot) log ≡ₚ map (fun v => decks !! v) row
    /\ map (fun r => deck_dealt r slot) log ≡ₚ map Some (take 4 decks).
Proof.
  intros Hrng Hrun Hslot. unfold timeless in Hrun.
  invert_bind Hrun. destruct v as [sq k].
  invert_bind Hrun. destruct v as [log' [ds' stdin'']].
  injection Hrun as <- <- <- <-.
  apply random_timeless_square_returns in Hv as (j & -> & _).
  apply play_rounds_four in Hv0
    as (r0 & r1 & r2 & r3 & [d1 i1] & [d2 i2] & [d3 i3] & -> & H0 & H1 & H2 & H3).
  apply preliminary_round_decks in H0 as [E0 D0]; [|lia].
  apply preliminary_round_decks in H1 as [E1 D1]; [|lia].
  apply preliminary_round_decks in H2 as [E2 D2]; [|lia].
  pose proof (final_round_decks _ _ _ _ _ _ _ H3 slot Hslot) as [D3 S3].
  injection E0 as E0. injection E1 as E1. injection E2 as E2.
  assert (Hrows : forall i, i < 4 ->
            exists row, draw_square rng j !! i = Some row /\ row ≡ₚ [0; 1; 2; 3]).
  { intros i Hi. destruct i as [|[|[|[|i]]]]; [| | | |lia];
      eexists; (split; [reflexivity | apply Hrng]). }
  destruct (Hrows slot Hslot) as (row & Hrow & Hperm).
  assert (Hdeck : forall c, deck_of decks (draw_square rng j) slot c
                            = v ← row !! c; decks !! v).
  { intros c. unfold deck_of. rewrite Hrow. reflexivity. }
  assert (O : exists j0 j1 j2,
            opponent r0 slot = Some j0 /\ opponent r1 slot = Some j1
            /\ opponent r2 slot = Some j2 /\ [j0; j1; j2; slot] ≡ₚ [0; 1; 2; 3]).
  { unfold opponent. rewrite <- E0, <- E1, <- E2.
    destruct slot as [|[|[|[|slot]]]]; [| | | |lia];
      eexists _, _, _; (repeat split; [reflexivity..|]);
      apply permutation_check; vm_compute; reflexivity. }
  destruct O as (j0 & j1 & j2 & O0 & O1 & O2 & Hcolumns).
  destruct (D0 _ _ O0) as [D0' S0], (D1 _ _ O1) as [D1' S1],
    (D2 _ _ O2) as [D2' S2].
  exists r0, r1, r2, r3, j0, j1, j2, row.
  do 11 (split; [first [reflexivity | assumption]|]).
  apply (row_decks decks row [j0; j1; j2; slot]); try assumption.
  - cbn [map]. rewrite D0', D1', D2', D3, !Hdeck. reflexivity.
  - cbn [map]. rewrite D0', D1', D2', D3. repeat constructor; assumption.
Qed.

Lemma each_slot_is_dealt_its_row_witness :
  exists square_ log duelists' stdin',
    timeless 1 docstring_rng 0 (preliminary_winners ++ ["ann"; "cid"])
      entrants decks_basic 10
    = Some (square_, log, duelists', stdin')
    /\ map (fun r => deck_dealt r 0) log
       = [Some "Beast"; Some "Chaos"; Some "Spellcaster"; Some "Dragon"]
    /\ exists r0 r1 r2 r3 j0 j1 j2 row,
         log = [r0; r1; r2; r3]
         /\ opponent r0 0 = Some j0 /\ opponent r1 0 = Some j1
         /\ opponent r2 0 = Some j2
         /\ [j0; j1; j2; 0] ≡ₚ [0; 1; 2; 3]
         /\ deck_dealt r0 0 = deck_of decks_basic square_ 0 j0
         /\ deck_dealt r1 0 = deck_of decks_basic square_ 0 j1
         /\ deck_dealt r2 0 = deck_of decks_basic square_ 0 j2
         /\ deck_dealt r3 0 = deck_of decks_basic square_ 0 0
         /\ square_ !! 0 = Some row /\ row ≡ₚ [0; 1; 2; 3]
         /\ map (fun r => deck_dealt r 0) log
            ≡ₚ map (fun v => decks_basic !! v) row
         /\ map (fun r => deck_dealt r 0) log ≡ₚ map Some (take 4 decks_basic).
Proof.
  eexists _, _, _, _. split; [vm_compute; reflexivity|].
  split; [reflexivity|].
  eapply (each_slot_is_dealt_its_row 1 docstring_rng 0
            (preliminary_winners ++ ["ann"; "cid"]) entrants decks_basic 10).
  - exact docstring_rng_permutations.
  - vm_compute. reflexivity.
  - lia.
Defined.

(** * Further properties *)

(** ** [supervised_input] *)

(** X1. [supervised_input] returns exactly the first line whose capitalised
    form passes every condition, the lines before it having been rejected,
    and leaves the lines after it. *)
Theorem supervised_input_first_accepted conditions options stdin user_input rest :
  supervised_input conditions options stdin = Some (user_input, rest)
  <-> exists skipped line,
        stdin = skipped ++ line :: rest
        /\ user_input = PyStr.capwords line
        /\ check_conditions conditions options user_input = Some true
        /\ Forall (fun l => check_conditions conditions options (PyStr.capwords l)
                            = Some false) skipped.
Proof.
  split.
  - revert user_input rest. induction stdin as [|l stdin IH]; intros u rest;
      simpl; [discriminate|].
    destruct (check_conditions conditions options (PyStr.capwords l))
      as [[|]|] eqn:Hcheck; simpl; [| |discriminate].
    + intros [= <- <-]. exists [], l. repeat split; [exact Hcheck | constructor].
    + intros H. apply IH in H as (skipped & line & -> & -> & Hok & Hrej).
      exists (l :: skipped), line. repeat split; [exact Hok|].
      constructor; assumption.
  - intros (skipped & line & -> & -> & Hok & Hrej).
    induction Hrej as [|l skipped Hl _ IH]; simpl.
    + rewrite Hok. reflexivity.
    + rewrite Hl. simpl. exact IH.
Qed.

(** X2. A line on which a check raises ends [supervised_input] with the
    exception, whatever lines follow: the lines before it are rejected one
    by one and no later line is read. The check ['multiple_of_5'] raises in
    this way on a line that is no integer literal when ['integer'] is not
    tested before it. *)
Theorem supervised_input_raises conditions options skipped line rest :
  Forall (fun l => check_conditions conditions options (PyStr.capwords l)
                   = Some false) skipped ->
  check_conditions conditions options (PyStr.capwords line) = None ->
  supervised_input conditions options (skipped ++ line :: rest) = None.
Proof.
  intros Hrej Hraise. induction Hrej as [|l skipped Hl _ IH]; simpl.
  - rewrite Hraise. reflexivity.
  - rewrite Hl. simpl. exact IH.
Qed.

Lemma supervised_input_raises_witness :
  supervised_input [multiple_of_5] [] (["7"] ++ "ten" :: ["10"]) = None.
Proof.
  apply (supervised_input_raises [multiple_of_5] [] ["7"] "ten" ["10"]).
  - repeat constructor.
  - reflexivity.
Defined.

(** X3. The entry-fee conditions never raise, ['integer'] being tested
    before ['multiple_of_5'], and they accept exactly the inputs that read
    as a non-negative multiple of 5 in fewer than 30 characters. *)
Theorem entry_fee_check_accepts line :
  entry_fee_check line <> None
  /\ (entry_fee_check line = Some true
      <-> exists n, PyStr.int (PyStr.capwords line) = Some n
                    /\ (0 <= n)%Z /\ (n mod 5 = 0)%Z
                    /\ String.length (PyStr.capwords line) < 30).
Proof.
  unfold entry_fee_check, entry_fee_conditions. simpl.
  unfold _is_string_of_integer.
  destruct (PyStr.int (PyStr.capwords line)) as [n|]; simpl.
  - destruct (Z.eqb_spec (n mod 5) 0) as [Hmod|Hmod];
      destruct (Z.leb_spec 0 n) as [Hpos|Hneg]; simpl;
      try (split; [discriminate|];
           split; [discriminate | intros (m & [= <-] & ? & ? & ?); lia]).
    destruct (Nat.ltb_spec (String.length (PyStr.capwords line)) 30) as [Hlen|Hlen].
    + split; [discriminate|]. split; [|reflexivity].
      intros _. exists n. repeat split; assumption.
    + split; [discriminate|]. split; [discriminate|].
      intros (m & _ & _ & _ & ?). lia.
  - split; [discriminate|]. split; [discriminate|].
    intros (m & Hm & _). discriminate Hm.
Qed.

(** ** The rounds of [timeless] *)

Lemma supervised_input_consumes conditions options stdin user_input rest :
  supervised_input conditions options stdin = Some (user_input, rest) ->
  exists consumed, stdin = consumed ++ rest /\ 1 <= length consumed.
Proof.
  revert user_input rest. induction stdin as [|l stdin IH]; intros u rest;
    simpl; [discriminate|].
  destruct (check_conditions conditions options (PyStr.capwords l)) as [[|]|];
    simpl; [| |discriminate].
  - intros [= _ <-]. exists [l]. split; [reflexivity | simpl; lia].
  - intros H. apply IH in H as (consumed & -> & Hlen).
    exists (l :: consumed). split; [reflexivity | simpl; lia].
Qed.

(** X4. A round ends only for a round index from 0 to 3 and at least four
    duelists, and its seats x, y, z, w are the four slots, each once: the
    two matches are two disjoint pairs that cover the slots. *)
Theorem every_round_seats_all_slots
    matchup decks entropy round_ duelists stdin shown state' :
  play_round matchup decks entropy round_ (duelists, stdin) = Some (shown, state') ->
  round_ < 4 /\ 4 <= length duelists
  /\ let '(x, y, z, w) := seats shown in [x; y; z; w] ≡ₚ [0; 1; 2; 3].
Proof.
  intros Hround. destruct state' as [duelists' stdin'].
  apply play_round_inv in Hround
    as (x & y & z & w & deck_x & deck_y & deck_z & deck_w & dx & dy & dz & dw
        & wxy & wzw & stdin1 & -> & Hseated & Hx & Hy & Hz & Hw & _).
  pose proof (seats_Permutation _ _ _ _ _ _ _ _ _ _ _ _ _ Hseated) as Hperm.
  cbn [seats]. split; [|split].
  - destruct Hseated as [(-> & _)|(_ & Hseats & _)];
      [unfold final_round; lia|].
    destruct (pairing_configurations !! round_) eqn:Hconfig; [|discriminate].
    apply lookup_lt_Some in Hconfig. simpl in Hconfig. lia.
  - apply lookup_lt_Some in Hx, Hy, Hz, Hw.
    apply seats_distinct in Hperm as [_ Hne]. lia.
  - symmetry. apply permutations_Permutation, Hperm.
Qed.

Lemma every_round_seats_all_slots_witness :
  exists shown state',
    play_round docstring_square decks_basic 2 final_round
      (standing 2 0 2 2, ["Ann"; "Cid"]) = Some (shown, state')
    /\ seats shown = (3, 0, 1, 2)
    /\ final_round < 4 /\ 4 <= length (standing 2 0 2 2)
    /\ let '(x, y, z, w) := seats shown in [x; y; z; w] ≡ₚ [0; 1; 2; 3].
Proof.
  eexists _, _. split; [vm_compute; reflexivity|]. split; [reflexivity|].
  eapply (every_round_seats_all_slots docstring_square decks_basic 2 final_round
            (standing 2 0 2 2) ["Ann"; "Cid"]).
  vm_compute. reflexivity.
Defined.

(** With two of four duelists credited by a test on the duelist alone, the
    sum of the wins grows by 2 to 4. *)
Lemma total_wins_credited (credited : Duelist -> bool) duelists i j di dj :
  length duelists = 4 -> i <> j ->
  duelists !! i = Some di -> duelists !! j = Some dj ->
  credited di = true -> credited dj = true ->
  (total_wins duelists + 2
   <= total_wins (map (fun d => if credited d then add_win d else d) duelists)
   <= total_wins duelists + 4)%Z.
Proof.
  intros Hlen Hij Hi Hj Hci Hcj.
  destruct duelists as [|d0 [|d1 [|d2 [|d3 [|? ?]]]]]; try discriminate Hlen.
  destruct i as [|[|[|[|i]]]]; try discriminate Hi;
    destruct j as [|[|[|[|j]]]]; try discriminate Hj; try congruence;
    injection Hi as <-; injection Hj as <-;
    unfold total_wins; cbn [map foldr]; rewrite ?Hci, ?Hcj;
    repeat match goal with
           | |- context [credited ?d] => destruct (credited d)
           end;
    cbn [wins add_win]; lia.
Qed.

Lemma Forall2_credited (credited : Duelist -> bool) duelists :
  Forall2 (fun d d' => ident d' = ident d /\ name d' = name d
                       /\ (wins d' = wins d \/ wins d' = (wins d + 1)%Z))
          duelists
          (map (fun d => if credited d then add_win d else d) duelists).
Proof.
  induction duelists as [|d ds IH]; simpl; constructor; [|exact IH].
  destruct (credited d); simpl; auto.
Qed.

(** X5. Whatever the names of four duelists, as long as they are four
    objects and none stands in two slots, a round keeps their order,
    identities and names and gives each of them one win or none; the
    winner typed for each match credits a duelist of that match, so that
    the sum of the wins grows by 2 at least and by 4 at most. (An object
    standing in two slots would be credited once for each of them.) *)
Theorem round_credits_one_win_at_most
    matchup decks entropy round_ duelists stdin shown duelists' stdin' :
  length duelists = 4 ->
  NoDup (map ident duelists) ->
  play_round matchup decks entropy round_ (duelists, stdin)
  = Some (shown, (duelists', stdin')) ->
  Forall2 (fun d d' => ident d' = ident d /\ name d' = name d
                       /\ (wins d' = wins d \/ wins d' = (wins d + 1)%Z))
          duelists duelists'
  /\ (total_wins duelists + 2 <= total_wins duelists' <= total_wins duelists + 4)%Z.
Proof.
  intros Hlen _ Hround.
  apply play_round_inv in Hround
    as (x & y & z & w & deck_x & deck_y & deck_z & deck_w & dx & dy & dz & dw
        & wxy & wzw & stdin1 & -> & Hseated & Hx & Hy & Hz & Hw
        & Hxy & Hzw & Hcredit).
  pose proof (seats_Permutation _ _ _ _ _ _ _ _ _ _ _ _ _ Hseated) as Hperm.
  rewrite (credit_winners_map _ _ _ _ _ _ _ Hlen Hperm) in Hcredit.
  injection Hcredit as <-.
  split; [apply Forall2_credited|].
  apply seats_distinct in Hperm as [_ Hne].
  apply supervised_input_choose_from in Hxy, Hzw.
  assert (Hin : forall d a b, name d = a \/ name d = b ->
                              Duelist_in d [a; b] = true).
  { intros d a b Hd. rewrite Duelist_in_two, orb_true_iff, !String.eqb_eq.
    exact Hd. }
  apply elem_of_cons in Hxy as [->|Hxy]; [|apply list_elem_of_singleton in Hxy as ->];
    (apply elem_of_cons in Hzw as [->|Hzw];
     [|apply list_elem_of_singleton in Hzw as ->]).
  - apply (total_wins_credited _ duelists x z dx dz);
      [exact Hlen | tauto | exact Hx | exact Hz
      | cbv beta; apply Hin; auto | cbv beta; apply Hin; auto].
  - apply (total_wins_credited _ duelists x w dx dw);
      [exact Hlen | tauto | exact Hx | exact Hw
      | cbv beta; apply Hin; auto | cbv beta; apply Hin; auto].
  - apply (total_wins_credited _ duelists y z dy dz);
      [exact Hlen | tauto | exact Hy | exact Hz
      | cbv beta; apply Hin; auto | cbv beta; apply Hin; auto].
  - apply (total_wins_credited _ duelists y w dy dw);
      [exact Hlen | tauto | exact Hy | exact Hw
      | cbv beta; apply Hin; auto | cbv beta; apply Hin; auto].
Qed.

Lemma round_credits_one_win_at_most_witness :
  let namesakes := [ {| ident := 0; name := "Ann"; wins := 0 |};
                     {| ident := 1; name := "Ann"; wins := 0 |};
                     {| ident := 2; name := "Ann"; wins := 0 |};
                     {| ident := 3; name := "Bob"; wins := 0 |} ] in
  exists shown duelists' stdin',
    play_round docstring_square decks_basic 0 0 (namesakes, ["ann"; "ann"])
    = Some (shown, (duelists', stdin'))
    /\ map wins duelists' = [1; 1; 1; 0]%Z
    /\ NoDup (map ident namesakes)
    /\ Forall2 (fun d d' => ident d' = ident d /\ name d' = name d
                            /\ (wins d' = wins d \/ wins d' = (wins d + 1)%Z))
               namesakes duelists'
    /\ (total_wins namesakes + 2 <= total_wins duelists'
        <= total_wins namesakes + 4)%Z.
Proof.
  intros namesakes.
  assert (Hobjects : NoDup (map ident namesakes)).
  { apply (bool_decide_unpack _). vm_compute. exact I. }
  eexists _, _, _. split; [vm_compute; reflexivity|]. split; [reflexivity|].
  split; [exact Hobjects|].
  eapply (round_credits_one_win_at_most docstring_square decks_basic 0 0
            namesakes ["ann"; "ann"]).
  - reflexivity.
  - exact Hobjects.
  - vm_compute. reflexivity.
Defined.

Lemma play_round_consumes
    matchup decks entropy round_ duelists stdin shown duelists' stdin' :
  play_round matchup decks entropy round_ (duelists, stdin)
  = Some (shown, (duelists', stdin')) ->
  exists consumed, stdin = consumed ++ stdin' /\ 2 <= length consumed.
Proof.
  intros Hround.
  apply play_round_inv in Hround
    as (x & y & z & w & deck_x & deck_y & deck_z & deck_w & dx & dy & dz & dw
        & wxy & wzw & stdin1 & _ & _ & _ & _ & _ & _ & Hxy & Hzw & _).
  apply supervised_input_consumes in Hxy as (c1 & -> & H1).
  apply supervised_input_consumes in Hzw as (c2 & -> & H2).
  exists (c1 ++ c2). rewrite length_app, <- app_assoc. split; [reflexivity | lia].
Qed.

Lemma play_rounds_consumes matchup decks entropy rounds :
  forall duelists stdin log duelists' stdin',
  play_rounds matchup decks entropy rounds (duelists, stdin)
  = Some (log, (duelists', stdin')) ->
  exists consumed,
    stdin = consumed ++ stdin' /\ 2 * length rounds <= length consumed.
Proof.
  induction rounds as [|round_ rounds IH];
    intros duelists stdin log duelists' stdin' Hplay.
  - injection Hplay as <- <- <-. exists []. split; [reflexivity | simpl; lia].
  - cbn [play_rounds] in Hplay.
    invert_bind Hplay. destruct v as [shown [duelists1 stdin1]].
    invert_bind Hplay. destruct v as [log' [duelists2 stdin2]].
    injection Hplay as <- <- <-.
    apply play_round_consumes in Hv as (c1 & -> & H1).
    apply IH in Hv0 as (c2 & -> & H2).
    exists (c1 ++ c2). rewrite length_app, <- app_assoc.
    split; [reflexivity | simpl; lia].
Qed.

(** X6. [timeless] shows four rounds and reads the winners of eight
    matches: it consumes at least eight lines of the input, more when lines
    are rejected, and leaves the rest; on fewer than eight lines it does
    not return. *)
Theorem timeless_reads_eight_lines
    fuel rng entropy stdin duelists decks entry_fee
    square_ log duelists' stdin' :
  timeless fuel rng entropy stdin duelists decks entry_fee
  = Some (square_, log, duelists', stdin') ->
  length log = 4
  /\ exists consumed, stdin = consumed ++ stdin' /\ 8 <= length consumed.
Proof.
  intros Hrun. unfold timeless in Hrun.
  invert_bind Hrun. destruct v as [sq k].
  invert_bind Hrun. destruct v as [log' [ds' stdin'']].
  injection Hrun as <- <- <- <-.
  split.
  - apply play_rounds_four in Hv0 as (r0 & r1 & r2 & r3 & _ & _ & _ & -> & _).
    reflexivity.
  - apply play_rounds_consumes in Hv0 as (consumed & -> & Hlen).
    exists consumed. split; [reflexivity | simpl in Hlen; lia].
Qed.

Lemma timeless_reads_eight_lines_witness :
  exists square_ log duelists' stdin',
    timeless 1 docstring_rng 0 (preliminary_winners ++ ["ann"; "cid"; "left"])
      entrants decks_basic 10
    = Some (square_, log, duelists', stdin')
    /\ stdin' = ["left"]
    /\ length log = 4
    /\ exists consumed,
         preliminary_winners ++ ["ann"; "cid"; "left"] = consumed ++ stdin'
         /\ 8 <= length consumed.
Proof.
  eexists _, _, _, _. split; [vm_compute; reflexivity|]. split; [reflexivity|].
  eapply (timeless_reads_eight_lines 1 docstring_rng 0
            (preliminary_winners ++ ["ann"; "cid"; "left"]) entrants decks_basic 10).
  vm_compute. reflexivity.
Defined.

(** ** The decks of a round *)

Lemma NoDup_below_4 (a b c d : nat) :
  NoDup [a; b; c; d] -> a < 4 -> b < 4 -> c < 4 -> d < 4 ->
  [a; b; c; d] ≡ₚ [0; 1; 2; 3].
Proof.
  intros Hnd%NoDup_ListNoDup Ha Hb Hc Hd.
  apply NoDup_Permutation_bis; [exact Hnd | simpl; lia|].
  intros v Hv. simpl in Hv.
  destruct Hv as [<-|[<-|[<-|[<-|[]]]]];
    match goal with
    | H : ?v < 4 |- In ?v _ =>
        destruct v as [|[|[|[|v]]]]; [| | | |lia]; simpl; auto
    end.
Qed.

(** The values drawn by four permutations of 0..3, named. *)
Lemma permutation_row (row : list nat) :
  row ≡ₚ [0; 1; 2; 3] ->
  exists a b c d, row = [a; b; c; d] /\ a < 4 /\ b < 4 /\ c < 4 /\ d < 4.
Proof.
  intros Hrow. pose proof (Permutation_length Hrow) as Hlen.
  assert (Hall : Forall (fun v => v < 4) row).
  { rewrite Hrow. repeat constructor. }
  four_elements row Hlen. exists n, n0, n1, n2.
  inversion Hall as [|? ? Ha H1]; subst. inversion H1 as [|? ? Hb H2]; subst.
  inversion H2 as [|? ? Hc H3]; subst. inversion H3 as [|? ? Hd _]; subst.
  auto.
Qed.

(** The four quadruples of a returned square each hold 0, 1, 2 and 3. *)
Lemma returned_square_quadruples rng fuel k sq k' :
  permutation_source rng ->
  random_timeless_square fuel rng k = Some (sq, k') ->
  exists r0 r1 r2 r3,
    sq = [r0; r1; r2; r3]
    /\ length r0 = 4 /\ length r1 = 4 /\ length r2 = 4 /\ length r3 = 4
    /\ cells sq main_diagonal ≡ₚ [0; 1; 2; 3]
    /\ cells sq anti_diagonal ≡ₚ [0; 1; 2; 3]
    /\ cells sq off_diagonal ≡ₚ [0; 1; 2; 3]
    /\ cells sq far_diagonal ≡ₚ [0; 1; 2; 3].
Proof.
  intros Hrng Hret.
  pose proof (random_timeless_square_far_diagonal _ _ _ _ _ Hrng Hret) as Hfar.
  destruct (random_timeless_square_returns _ _ _ _ _ Hret) as (j & -> & Hok).
  unfold is_timeless in Hok.
  apply andb_prop in Hok as [Hok Hoff]. apply andb_prop in Hok as [Hdiag Hanti].
  unfold unique_diagonal, unique_antidiagonal, unique_offdiagonal, draw_square in *.
  destruct (permutation_row _ (Hrng j)) as (a0 & a1 & a2 & a3 & E0 & ?).
  destruct (permutation_row _ (Hrng (j + 1))) as (b0 & b1 & b2 & b3 & E1 & ?).
  destruct (permutation_row _ (Hrng (j + 2))) as (c0 & c1 & c2 & c3 & E2 & ?).
  destruct (permutation_row _ (Hrng (j + 3))) as (d0 & d1 & d2 & d3 & E3 & ?).
  rewrite E0, E1, E2, E3 in *.
  apply len_set_4_NoDup in Hdiag, Hanti, Hoff.
  eexists _, _, _, _. split; [reflexivity|].
  repeat (split; [reflexivity|]).
  repeat split; apply NoDup_below_4; first [assumption | tauto].
Qed.

(** Four decks found at four values that are 0, 1, 2, 3 in some order are
    the four decks. *)
Lemma hand_of_values (decks : list string) (values : list nat) (hand : list string) :
  values ≡ₚ [0; 1; 2; 3] ->
  Forall2 (fun v deck => decks !! v = Some deck) values hand ->
  hand ≡ₚ take 4 decks.
Proof.
  intros Hvalues Hhand.
  assert (Hmap : hand = map (fun v => default "" (decks !! v)) values).
  { clear Hvalues.
    induction Hhand as [|v deck vs hand' Hv _ IH]; simpl; [reflexivity|].
    rewrite Hv. simpl. f_equal. apply IH. }
  assert (Hall : forall v, v < 4 -> is_Some (decks !! v)).
  { intros v Hv.
    assert (Hin : v ∈ values).
    { rewrite Hvalues. apply list_elem_of_In.
      destruct v as [|[|[|[|v]]]]; [| | | |lia]; simpl; auto. }
    clear Hmap Hvalues. induction Hhand as [|v' deck vs hand' Hv' _ IH];
      [inversion Hin|].
    apply elem_of_cons in Hin as [->|Hin]; [eauto | apply IH, Hin]. }
  rewrite Hmap, Hvalues.
  destruct (Hall 3 ltac:(lia)) as [e3 H3].
  destruct decks as [|e0' [|e1' [|e2' [|e3' rest]]]]; try discriminate H3.
  reflexivity.
Qed.

Ltac deck_lookup H := unfold deck_of in H; simpl in H.

(** X7. In every round of [timeless] the four duelists play four different
    decks: the decks dealt in a round are the four decks, each once. In
    the first three rounds they are read off the cells (0,1), (1,0), (2,3),
    (3,2), then (1,3), (3,1), (0,2), (2,0), then the anti-diagonal, and in
    the final round off the diagonal. *)
Theorem every_round_deals_four_decks
    fuel rng entropy stdin duelists decks entry_fee
    square_ log duelists' stdin' :
  permutation_source rng ->
  timeless fuel rng entropy stdin duelists decks entry_fee
  = Some (square_, log, duelists', stdin') ->
  Forall (fun shown =>
            let '(deck_x, deck_y, deck_z, deck_w) := dealt shown in
            [deck_x; deck_y; deck_z; deck_w] ≡ₚ take 4 decks)
         log.
Proof.
  intros Hrng Hrun. unfold timeless in Hrun.
  invert_bind Hrun. destruct v as [sq k].
  invert_bind Hrun. destruct v as [log' [ds' stdin'']].
  injection Hrun as <- <- <- <-.
  apply (returned_square_quadruples _ _ _ _ _ Hrng) in Hv
    as (r0 & r1 & r2 & r3 & -> & L0 & L1 & L2 & L3 & Hmain & Hanti & Hoff & Hfar).
  four_elements r0 L0. four_elements r1 L1.
  four_elements r2 L2. four_elements r3 L3.
  cbn [cells map main_diagonal anti_diagonal off_diagonal far_diagonal item nth]
    in Hmain, Hanti, Hoff, Hfar.
  apply play_rounds_four in Hv0
    as (s0 & s1 & s2 & s3 & [d1 i1] & [d2 i2] & [d3 i3] & -> & H0 & H1 & H2 & H3).
  apply play_round_inv in H0
    as (xA & yA & zA & wA & pA & qA & tA & uA & ? & ? & ? & ?
        & ? & ? & ? & -> & [(Hf & _)|(_ & E0 & Dx0 & Dy0 & Dz0 & Dw0)] & _);
    [discriminate Hf|].
  apply play_round_inv in H1
    as (xB & yB & zB & wB & pB & qB & tB & uB & ? & ? & ? & ?
        & ? & ? & ? & -> & [(Hf & _)|(_ & E1 & Dx1 & Dy1 & Dz1 & Dw1)] & _);
    [discriminate Hf|].
  apply play_round_inv in H2
    as (xC & yC & zC & wC & pC & qC & tC & uC & ? & ? & ? & ?
        & ? & ? & ? & -> & [(Hf & _)|(_ & E2 & Dx2 & Dy2 & Dz2 & Dw2)] & _);
    [discriminate Hf|].
  apply play_round_inv in H3
    as (xD & yD & zD & wD & pD & qD & tD & uD & ? & ? & ? & ?
        & ? & ? & ? & -> & Hseated & _).
  pose proof (seats_Permutation _ _ _ _ _ _ _ _ _ _ _ _ _ Hseated) as Hperm.
  destruct Hseated as [(_ & _ & Dx3 & Dy3 & Dz3 & Dw3)|(Hne & _)]; [|congruence].
  injection E0 as <- <- <- <-. injection E1 as <- <- <- <-.
  injection E2 as <- <- <- <-.
  deck_lookup Dx0. deck_lookup Dy0. deck_lookup Dz0. deck_lookup Dw0.
  deck_lookup Dx1. deck_lookup Dy1. deck_lookup Dz1. deck_lookup Dw1.
  deck_lookup Dx2. deck_lookup Dy2. deck_lookup Dz2. deck_lookup Dw2.
  repeat constructor; cbn [dealt].
  - eapply hand_of_values; [|repeat constructor; eassumption]. exact Hoff.
  - eapply hand_of_values; [|repeat constructor; eassumption].
    rewrite <- Hfar. solve_Permutation.
  - eapply hand_of_values; [|repeat constructor; eassumption].
    rewrite <- Hanti. solve_Permutation.
  - each_seating Hperm;
      deck_lookup Dx3; deck_lookup Dy3; deck_lookup Dz3; deck_lookup Dw3;
      (eapply hand_of_values; [|repeat constructor; eassumption]);
      rewrite <- Hmain; solve_Permutation.
Qed.

Lemma every_round_deals_four_decks_witness :
  exists square_ log duelists' stdin',
    timeless 1 docstring_rng 0 (preliminary_winners ++ ["ann"; "cid"])
      entrants decks_basic 10
    = Some (square_, log, duelists', stdin')
    /\ map dealt log
       = [("Beast", "Spellcaster", "Chaos", "Dragon");
          ("Beast", "Spellcaster", "Chaos", "Dragon");
          ("Chaos", "Spellcaster", "Dragon", "Beast");
          ("Dragon", "Chaos", "Spellcaster", "Beast")]
    /\ Forall (fun shown =>
                 let '(deck_x, deck_y, deck_z, deck_w) := dealt shown in
                 [deck_x; deck_y; deck_z; deck_w] ≡ₚ take 4 decks_basic)
              log.
Proof.
  eexists _, _, _, _. split; [vm_compute; reflexivity|]. split; [reflexivity|].
  eapply (every_round_deals_four_decks 1 docstring_rng 0
            (preliminary_winners ++ ["ann"; "cid"]) entrants decks_basic 10).
  - exact docstring_rng_permutations.
  - vm_compute. reflexivity.
Defined.

(** ** Standings *)

Lemma wins_add_win duelists : forall i,
  map wins (alter add_win i duelists) = alter Z.succ i (map wins duelists).
Proof.
  induction duelists as [|d ds IH]; intros [|i]; simpl; try reflexivity.
  f_equal. apply IH.
Qed.

(** The win counts a round leaves are among [round_outcomes]. *)
Lemma play_round_outcome
    matchup decks entropy round_ duelists stdin shown duelists' stdin' :
  length duelists = 4 -> NoDup (map name duelists) ->
  play_round matchup decks entropy round_ (duelists, stdin)
  = Some (shown, (duelists', stdin')) ->
  In (map wins duelists') (round_outcomes (seats shown) (map wins duelists)).
Proof.
  intros Hlen Hnames Hround.
  destruct (play_round_two_wins _ _ _ _ _ _ _ _ _ Hlen Hnames Hround)
    as (i & j & _ & _ & _ & Hseats & ->).
  rewrite !wins_add_win. unfold round_outcomes.
  destruct (seats shown) as [[[x y] z] w].
  destruct Hseats as [[-> | ->] [-> | ->]]; simpl; auto.
Qed.

(** Sorting commutes with a map that keeps the order of the elements. *)
Lemma insertion_sort_map {A B : Type} (f : A -> B)
    (lt : A -> A -> bool) (lt' : B -> B -> bool) :
  (forall a b, lt' (f a) (f b) = lt a b) ->
  forall l, insertion_sort lt' (map f l) = map f (insertion_sort lt l).
Proof.
  intros Hlt.
  assert (Hins : forall a l, insert_sorted lt' (f a) (map f l)
                             = map f (insert_sorted lt a l)).
  { intros a l. induction l as [|b l IH]; simpl; [reflexivity|].
    rewrite Hlt. destruct (lt a b); simpl; [reflexivity|]. f_equal. exact IH. }
  unfold insertion_sort. intros l. change [] with (map f []) at 1.
  generalize (@nil A). induction l as [|a l IH]; intros sorted; simpl;
    [reflexivity|].
  rewrite Hins. apply IH.
Qed.

Lemma imap_map_snd (g : Duelist -> Duelist) (duelists : list Duelist) : forall k,
  imap (fun i d => (k + i, d)) (map g duelists)
  = map (fun p => (fst p, g (snd p))) (imap (fun i d => (k + i, d)) duelists).
Proof.
  induction duelists as [|d ds IH]; intros k; simpl; [reflexivity|].
  f_equal.
  rewrite (imap_ext _ (fun i d => (S k + i, d)) (map g ds))
    by (intros; simpl; f_equal; lia).
  rewrite (imap_ext _ (fun i d => (S k + i, d)) ds)
    by (intros; simpl; f_equal; lia).
  apply IH.
Qed.

Lemma imap_map_indexed (g : Duelist -> Duelist) (duelists : list Duelist) :
  imap (fun i d => (i, d)) (map g duelists)
  = map (fun p => (fst p, g (snd p))) (imap (fun i d => (i, d)) duelists).
Proof. exact (imap_map_snd g duelists 0). Qed.

(** The seats of the final round and the tie depend on the win counts
    only. *)
Lemma argsort_anonymous duelists :
  argsort (map anonymous (map wins duelists)) = argsort duelists.
Proof.
  unfold argsort. rewrite map_map.
  rewrite (imap_map_indexed (fun d => anonymous (wins d)) duelists).
  rewrite (insertion_sort_map (fun p => (fst p, anonymous (wins (snd p))))
             (fun p q => lt_duelist (snd p) (snd q))) by reflexivity.
  rewrite map_map. reflexivity.
Qed.

Lemma is_tied_anonymous duelists :
  is_tied (map anonymous (map wins duelists)) = is_tied duelists.
Proof.
  apply eq_true_iff_eq. rewrite !is_tied_iff, !map_map. simpl.
  rewrite (map_ext (fun d => wins d) wins) by reflexivity. reflexivity.
Qed.

Lemma final_round_seating matchup decks entropy duelists stdin shown state' :
  play_round matchup decks entropy final_round (duelists, stdin)
  = Some (shown, state') ->
  In (seats shown) (final_seatings (map wins duelists)).
Proof.
  intros Hround. destruct state' as [duelists' stdin'].
  apply play_round_inv in Hround
    as (x & y & z & w & deck_x & deck_y & deck_z & deck_w & dx & dy & dz & dw
        & wxy & wzw & stdin1 & -> & [(_ & Hseats & _)|(Hne & _)] & _);
    [|congruence].
  unfold final_seatings. rewrite is_tied_anonymous, argsort_anonymous.
  cbn [seats]. destruct (is_tied duelists).
  - apply tie_break_configuration, list_elem_of_In in Hseats.
    simpl in Hseats. destruct Hseats as [H|[H|[H|[]]]];
      injection H as <- <- <- <-; simpl; auto.
  - rewrite Hseats. simpl. auto.
Qed.

Lemma is_standing_row table ws :
  is_standing table ws = true -> exists row, In row table /\ ws ≡ₚ row.
Proof.
  unfold is_standing. intros H. apply existsb_exists in H as (row & Hrow & Hperm).
  exists row. split; [exact Hrow|].
  apply bool_decide_eq_true in Hperm. symmetry.
  apply permutations_Permutation, Hperm.
Qed.

Lemma play_rounds_app matchup decks entropy rounds1 rounds2 :
  forall state log state'',
  play_rounds matchup decks entropy (rounds1 ++ rounds2) state = Some (log, state'') ->
  exists log1 state' log2,
    play_rounds matchup decks entropy rounds1 state = Some (log1, state')
    /\ play_rounds matchup decks entropy rounds2 state' = Some (log2, state'')
    /\ log = log1 ++ log2.
Proof.
  induction rounds1 as [|r rounds1 IH]; intros state log state'' Hplay.
  - exists [], state, log. auto.
  - cbn [app play_rounds] in Hplay.
    invert_bind Hplay. destruct v as [shown state1].
    invert_bind Hplay. destruct v as [log' state2].
    injection Hplay as <- <-.
    apply IH in Hv0 as (log1 & state' & log2 & H1 & H2 & ->).
    exists (shown :: log1), state', log2. cbn [play_rounds].
    rewrite Hv. cbn [mbind option_bind]. rewrite H1. auto.
Qed.

Lemma wins_zero duelists :
  length duelists = 4 -> Forall (fun d => wins d = 0%Z) duelists ->
  map wins duelists = [0; 0; 0; 0]%Z.
Proof.
  intros Hlen Hzero.
  destruct duelists as [|d0 [|d1 [|d2 [|d3 [|? ?]]]]]; try discriminate Hlen.
  inversion Hzero as [|? ? E0 H1]; subst. inversion H1 as [|? ? E1 H2]; subst.
  inversion H2 as [|? ? E2 H3]; subst. inversion H3 as [|? ? E3 _]; subst.
  simpl. rewrite E0, E1, E2, E3. reflexivity.
Qed.

(** The win counts after the first [n] rounds are among the outcomes that
    are enumerated. *)
Lemma preliminary_reach matchup decks entropy duelists stdin :
  length duelists = 4 -> NoDup (map name duelists) ->
  Forall (fun d => wins d = 0%Z) duelists ->
  forall n log duelists' stdin',
    n <= 3 ->
    play_rounds matchup decks entropy (seq 0 n) (duelists, stdin)
    = Some (log, (duelists', stdin')) ->
    In (map wins duelists') (preliminary_outcomes n)
    /\ length duelists' = 4 /\ map name duelists' = map name duelists.
Proof.
  intros Hlen Hnames Hzero.
  induction n as [|n IH]; intros log duelists' stdin' Hn Hplay.
  - injection Hplay as <- <- <-. rewrite (wins_zero _ Hlen Hzero).
    simpl. auto.
  - rewrite seq_S in Hplay. cbn [Nat.add] in Hplay.
    apply play_rounds_app in Hplay as (log1 & [d1 i1] & log2 & H1 & H2 & ->).
    apply IH in H1 as (Hreach & Hlen1 & Hnames1); [|lia].
    cbn [play_rounds] in H2.
    invert_bind H2. destruct v as [shown [d2 i2]]. injection H2 as <- <- <-.
    assert (Hnd1 : NoDup (map name d1)) by (rewrite Hnames1; exact Hnames).
    pose proof (play_round_outcome _ _ _ _ _ _ _ _ _ Hlen1 Hnd1 Hv) as Hout.
    pose proof (play_round_invariant _ _ _ _ _ _ _ _ _ Hlen1 Hnd1 Hv)
      as (Hlen2 & Hnames2 & _).
    apply preliminary_round_decks in Hv as [Hseats _]; [|lia].
    split; [|split; [exact Hlen2 | congruence]].
    assert (Hstep : preliminary_outcomes (S n)
                    = flat_map (round_outcomes (seats shown)) (preliminary_outcomes n)).
    { destruct n as [|[|[|n]]]; [| | |lia];
        injection Hseats as <-; reflexivity. }
    rewrite Hstep. apply in_flat_map. eauto.
Qed.

(** X8. From four duelists with distinct names and no win, the win counts
    after each preliminary round are, in some order, a row of the table of
    [config.py] for that round: 1,1,0,0 after the first round; 2,2,0,0 or
    2,1,1,0 or 1,1,1,1 after the second; 3,2,1,0 or 2,2,1,1 or 3,1,1,1 or
    2,2,2,0 after the third. *)
Theorem standings_after_preliminary_rounds
    matchup decks entropy duelists stdin round_ log duelists' stdin' :
  length duelists = 4 ->
  NoDup (map name duelists) ->
  Forall (fun d => wins d = 0%Z) duelists ->
  round_ < 3 ->
  play_rounds matchup decks entropy (seq 0 (S round_)) (duelists, stdin)
  = Some (log, (duelists', stdin')) ->
  exists row, In row (standings_after_round round_) /\ map wins duelists' ≡ₚ row.
Proof.
  intros Hlen Hnames Hzero Hround Hplay.
  apply (preliminary_reach _ _ _ _ _ Hlen Hnames Hzero) in Hplay as (Hreach & _);
    [|lia].
  apply is_standing_row.
  assert (Hcheck : preliminary_standings_check = true) by (vm_compute; reflexivity).
  unfold preliminary_standings_check in Hcheck.
  rewrite forallb_forall in Hcheck.
  assert (Hin : In round_ [0; 1; 2]).
  { destruct round_ as [|[|[|r]]]; [| | |lia]; simpl; auto. }
  specialize (Hcheck _ Hin).
  rewrite forallb_forall in Hcheck. apply Hcheck, Hreach.
Qed.

Lemma standings_after_preliminary_rounds_witness :
  exists log duelists' stdin',
    play_rounds docstring_square decks_basic 0 (seq 0 (S 2))
      (entrants, preliminary_winners)
    = Some (log, (duelists', stdin'))
    /\ map wins duelists' = [3; 2; 1; 0]%Z
    /\ exists row, In row (standings_after_round 2) /\ map wins duelists' ≡ₚ row.
Proof.
  eexists _, _, _. split; [vm_compute; reflexivity|]. split; [reflexivity|].
  eapply (standings_after_preliminary_rounds docstring_square decks_basic 0
            entrants preliminary_winners 2).
  - reflexivity.
  - apply (bool_decide_unpack _). vm_compute. exact I.
  - repeat constructor.
  - lia.
  - vm_compute. reflexivity.
Defined.

(** X9. After the final round the win counts are, in some order, a row of
    the table of [config.py] for the final round: the table without a tie
    when the preliminaries left no tie, the table with a tie otherwise. The
    lookup of the final standing cannot fail. *)
Theorem standings_after_final_round
    matchup decks entropy duelists stdin log3 duelists3 stdin3
    shown duelists4 stdin4 :
  length duelists = 4 ->
  NoDup (map name duelists) ->
  Forall (fun d => wins d = 0%Z) duelists ->
  play_rounds matchup decks entropy (seq 0 3) (duelists, stdin)
  = Some (log3, (duelists3, stdin3)) ->
  play_round matchup decks entropy final_round (duelists3, stdin3)
  = Some (shown, (duelists4, stdin4)) ->
  exists row,
    In row (final_standings (is_tied duelists3)) /\ map wins duelists4 ≡ₚ row.
Proof.
  intros Hlen Hnames Hzero Hplay Hfinal.
  apply (preliminary_reach _ _ _ _ _ Hlen Hnames Hzero) in Hplay
    as (Hreach & Hlen3 & Hnames3); [|lia].
  assert (Hnd3 : NoDup (map name duelists3)) by (rewrite Hnames3; exact Hnames).
  pose proof (play_round_outcome _ _ _ _ _ _ _ _ _ Hlen3 Hnd3 Hfinal) as Hout.
  pose proof (final_round_seating _ _ _ _ _ _ _ Hfinal) as Hseats.
  apply is_standing_row. rewrite <- is_tied_anonymous.
  assert (Hcheck : final_standings_check = true) by (vm_compute; reflexivity).
  unfold final_standings_check in Hcheck.
  rewrite forallb_forall in Hcheck. specialize (Hcheck _ Hreach).
  rewrite forallb_forall in Hcheck. specialize (Hcheck _ Hseats).
  rewrite forallb_forall in Hcheck. apply Hcheck, Hout.
Qed.

Lemma standings_after_final_round_witness :
  exists log3 duelists3 stdin3 shown duelists4 stdin4,
    play_rounds docstring_square decks_basic 0 (seq 0 3)
      (entrants, preliminary_winners ++ ["ann"; "cid"])
    = Some (log3, (duelists3, stdin3))
    /\ play_round docstring_square decks_basic 0 final_round (duelists3, stdin3)
       = Some (shown, (duelists4, stdin4))
    /\ map wins duelists4 = [4; 2; 2; 0]%Z
    /\ exists row,
         In row (final_standings (is_tied duelists3))
         /\ map wins duelists4 ≡ₚ row.
Proof.
  eexists _, _, _, _, _, _. split; [vm_compute; reflexivity|].
  split; [vm_compute; reflexivity|]. split; [reflexivity|].
  eapply (standings_after_final_round docstring_square decks_basic 0
            entrants (preliminary_winners ++ ["ann"; "cid"])).
  - reflexivity.
  - apply (bool_decide_unpack _). vm_compute. exact I.
  - repeat constructor.
  - vm_compute. reflexivity.
  - vm_compute. reflexivity.
Defined.

(** ** Floats *)

Section Binary64Facts.

Import Binary64.
Local Open Scope Z_scope.

Ltac forget_pow :=
  repeat match goal with
         | |- context [2 ^ ?e] =>
             let X := fresh "X" in set (X := 2 ^ e) in *; clearbody X
         end.

Lemma digits2_bounds p :
  2 ^ (Z.pos (digits2_pos p) - 1) <= Z.pos p < 2 ^ Z.pos (digits2_pos p).
Proof.
  induction p as [p IH|p IH|]; cbn [digits2_pos].
  - rewrite Pos2Z.inj_succ. change (Z.pos p~1) with (2 * Z.pos p + 1).
    replace (Z.succ (Z.pos (digits2_pos p)) - 1)
      with (Z.succ (Z.pos (digits2_pos p) - 1)) by lia.
    rewrite !Z.pow_succ_r by lia. forget_pow. lia.
  - rewrite Pos2Z.inj_succ. change (Z.pos p~0) with (2 * Z.pos p).
    replace (Z.succ (Z.pos (digits2_pos p)) - 1)
      with (Z.succ (Z.pos (digits2_pos p) - 1)) by lia.
    rewrite !Z.pow_succ_r by lia. forget_pow. lia.
  - vm_compute. split; [discriminate | reflexivity].
Qed.

Lemma Zdigits2_bounds n :
  0 < n -> 2 ^ (Zdigits2 n - 1) <= n < 2 ^ Zdigits2 n /\ 1 <= Zdigits2 n.
Proof.
  destruct n as [|p|p]; try lia. intros _. cbn [Zdigits2].
  split; [apply digits2_bounds | lia].
Qed.

Lemma Zdigits2_unique n d : 2 ^ (d - 1) <= n < 2 ^ d -> 1 <= d -> Zdigits2 n = d.
Proof.
  intros [Hlo Hhi] Hd.
  assert (Hn : 0 < n).
  { pose proof (Z.pow_pos_nonneg 2 (d - 1)). lia. }
  destruct (Zdigits2_bounds n Hn) as [[Hlo' Hhi'] Hd'].
  destruct (Z.lt_trichotomy (Zdigits2 n) d) as [Hlt|[Heq|Hgt]]; [|exact Heq|].
  - pose proof (Z.pow_le_mono_r 2 (Zdigits2 n) (d - 1)). lia.
  - pose proof (Z.pow_le_mono_r 2 d (Zdigits2 n - 1)). lia.
Qed.

Lemma iter_xO M p : Z.pos (Pos.iter xO M p) = Z.pos M * 2 ^ Z.pos p.
Proof.
  induction p as [|p IH] using Pos.peano_ind.
  - cbn [Pos.iter]. change (2 ^ 1) with 2. lia.
  - rewrite Pos.iter_succ.
    change (Z.pos (Pos.iter xO M p)~0) with (2 * Z.pos (Pos.iter xO M p)).
    rewrite IH, Pos2Z.inj_succ, Z.pow_succ_r by lia. lia.
Qed.

Lemma shr_exact p : forall M,
  iter_pos shr_1 p {| shr_m := Z.pos (Pos.iter xO M p); shr_r := false; shr_s := false |}
  = {| shr_m := Z.pos M; shr_r := false; shr_s := false |}.
Proof.
  induction p as [p IH|p IH|]; intros M; cbn [iter_pos Pos.iter].
  - cbn [shr_1 orb]. rewrite IH. apply IH.
  - rewrite IH. apply IH.
  - reflexivity.
Qed.

(** Rounding a mantissa of 53 bits or more whose bits below the 53rd are
    all zero: nothing is lost. *)
Lemma round_exact s M E t :
  2 ^ 52 <= M < 2 ^ 53 -> -1074 <= E <= 971 -> 0 <= t ->
  binary_round_aux prec emax s (M * 2 ^ t) (E - t) loc_Exact
  = S754_finite s (Z.to_pos M) E.
Proof.
  intros HM HE Ht.
  assert (Hdigits : Zdigits2 (M * 2 ^ t) = 53 + t).
  { apply Zdigits2_unique; [|lia].
    replace (53 + t - 1) with (52 + t) by lia.
    rewrite !Z.pow_add_r by lia.
    pose proof (Z.pow_pos_nonneg 2 t). nia. }
  assert (HdM : Zdigits2 M = 53) by (apply Zdigits2_unique; [exact HM | lia]).
  unfold binary_round_aux, shr_fexp. rewrite Hdigits.
  replace (fexp prec emax (53 + t + (E - t)) - (E - t)) with t
    by (unfold fexp, emin, prec, emax; lia).
  destruct M as [|M|M]; try lia.
  destruct t as [|p|p]; try lia; cbn [shr shr_record_of_loc].
  - rewrite Z.mul_1_r.
    cbn [shr_m loc_of_shr_record round_nearest_even].
    cbn [Zdigits2] in HdM |- *. rewrite HdM.
    replace (fexp prec emax (53 + (E - 0)) - (E - 0)) with 0
      by (unfold fexp, emin, prec, emax; lia).
    cbn [shr shr_record_of_loc shr_m].
    replace (E - 0 <=? emax - prec) with true
      by (symmetry; apply Z.leb_le; unfold emax, prec; lia).
    f_equal. lia.
  - rewrite <- iter_xO, shr_exact.
    cbn [shr_m loc_of_shr_record round_nearest_even].
    cbn [Zdigits2] in HdM |- *. rewrite HdM.
    replace (fexp prec emax (53 + (E - Z.pos p + Z.pos p)) - (E - Z.pos p + Z.pos p))
      with 0 by (unfold fexp, emin, prec, emax; lia).
    cbn [shr shr_record_of_loc shr_m].
    replace (E - Z.pos p + Z.pos p <=? emax - prec) with true
      by (symmetry; apply Z.leb_le; unfold emax, prec; lia).
    f_equal. lia.
Qed.

(** The mantissa and the exponent of [normal s n]. *)
Lemma normal_mantissa n :
  0 < n < 2 ^ 53 ->
  2 ^ 52 <= n * 2 ^ (53 - Zdigits2 n) < 2 ^ 53
  /\ 0 <= 53 - Zdigits2 n /\ 1 <= Zdigits2 n.
Proof.
  intros [Hpos Hlt].
  destruct (Zdigits2_bounds n Hpos) as [[Hlo Hhi] Hd].
  assert (Hd53 : Zdigits2 n <= 53).
  { destruct (Z.le_gt_cases (Zdigits2 n) 53) as [H|H]; [exact H|].
    pose proof (Z.pow_le_mono_r 2 53 (Zdigits2 n - 1)). lia. }
  split; [|lia].
  assert (H52 : 2 ^ 52 = 2 ^ (Zdigits2 n - 1) * 2 ^ (53 - Zdigits2 n))
    by (rewrite <- Z.pow_add_r by lia; f_equal; lia).
  assert (H53 : 2 ^ 53 = 2 ^ Zdigits2 n * 2 ^ (53 - Zdigits2 n))
    by (rewrite <- Z.pow_add_r by lia; f_equal; lia).
  rewrite H52, H53.
  pose proof (Z.pow_pos_nonneg 2 (53 - Zdigits2 n)) as Hc.
  split.
  - apply Z.mul_le_mono_nonneg_r; lia.
  - apply Z.mul_lt_mono_pos_r; lia.
Qed.

(** Rounding [n * 2 ^ u] at exponent [- u], for [n] below [2 ^ 53] and a
    mantissa of 53 bits at least: the result is [n]. *)
Lemma round_int s n u :
  0 < n < 2 ^ 53 -> 0 <= u -> 2 ^ 52 <= n * 2 ^ u ->
  binary_round_aux prec emax s (n * 2 ^ u) (- u) loc_Exact = normal s n.
Proof.
  intros Hn Hu Hbits.
  destruct (normal_mantissa n Hn) as (HM & Hshift & Hd).
  destruct (Zdigits2_bounds n) as [[Hlo Hhi] _]; [lia|].
  assert (Ht : 0 <= u - (53 - Zdigits2 n)).
  { destruct (Z.le_gt_cases (53 - Zdigits2 n) u) as [H|H]; [lia|].
    assert (Hpow : 2 ^ (Zdigits2 n + u) <= 2 ^ 52)
      by (apply Z.pow_le_mono_r; lia).
    rewrite Z.pow_add_r in Hpow by lia.
    pose proof (Z.pow_pos_nonneg 2 u). nia. }
  unfold Binary64.normal.
  rewrite <- (round_exact s (n * 2 ^ (53 - Zdigits2 n)) (Zdigits2 n - 53)
                (u - (53 - Zdigits2 n))) by (auto; lia).
  f_equal; [|lia].
  rewrite <- Z.mul_assoc, <- Z.pow_add_r by lia. do 2 f_equal. lia.
Qed.

(** [float(n)] of an [int] below [2 ^ 53] is [n]. *)
Lemma float_normal n : 0 < n < 2 ^ 53 -> float n = normal false n.
Proof.
  intros Hn. destruct (normal_mantissa n Hn) as (HM & Hshift & Hd).
  destruct n as [|m|m]; try lia.
  unfold float, binary_normalize, binary_round, shl_align.
  change (Z.pos (digits2_pos m)) with (Zdigits2 (Z.pos m)).
  replace (fexp prec emax (Zdigits2 (Z.pos m) + 0) - 0)
    with (- (53 - Zdigits2 (Z.pos m)))
    by (unfold fexp, emin, prec, emax; lia).
  destruct (53 - Zdigits2 (Z.pos m)) as [|d|d] eqn:Hshift'; try lia.
  - change (- 0) with 0. cbv beta iota.
    rewrite <- (round_int false (Z.pos m) 0) by (rewrite ?Z.mul_1_r in *; lia).
    rewrite Z.mul_1_r. reflexivity.
  - change (- Z.pos d) with (Z.neg d). cbv beta iota.
    change (PosDef.Pos.iter xO m d) with (Pos.iter xO m d).
    rewrite iter_xO.
    replace (fexp prec emax (Zdigits2 (Z.pos m) + 0))
      with (- Z.pos d) by (unfold fexp, emin, prec, emax; lia).
    apply round_int; lia.
Qed.

(** The product of two floats of ints, when it is below [2 ^ 53]. *)
Lemma mul_exact a b :
  0 < a -> 0 < b -> a * b < 2 ^ 53 -> mul (float a) (float b) = float (a * b).
Proof.
  intros Ha Hb Hab.
  assert (Ha' : 0 < a < 2 ^ 53) by nia.
  assert (Hb' : 0 < b < 2 ^ 53) by nia.
  assert (Hab' : 0 < a * b < 2 ^ 53) by nia.
  rewrite !float_normal by assumption.
  destruct (normal_mantissa a Ha') as (HA & HsA & HdA).
  destruct (normal_mantissa b Hb') as (HB & HsB & HdB).
  unfold Binary64.normal at 1 2. unfold mul, SFmul. cbn [xorb].
  set (A := a * 2 ^ (53 - Zdigits2 a)) in *.
  set (B := b * 2 ^ (53 - Zdigits2 b)) in *.
  change (Z.pos (PosDef.Pos.mul (Z.to_pos A) (Z.to_pos B)))
    with (Z.pos (Z.to_pos A) * Z.pos (Z.to_pos B)).
  rewrite !Z2Pos.id by lia.
  assert (Hprod : A * B = a * b * 2 ^ ((53 - Zdigits2 a) + (53 - Zdigits2 b))).
  { unfold A, B. rewrite Z.pow_add_r by lia. ring. }
  rewrite Hprod.
  replace (Zdigits2 a - 53 + (Zdigits2 b - 53))
    with (- ((53 - Zdigits2 a) + (53 - Zdigits2 b))) by lia.
  apply round_int; [assumption | lia |].
  rewrite <- Hprod. change (2 ^ 52) with 4503599627370496 in *. nia.
Qed.

Lemma shl_align_value mx ex ez :
  ez <= ex -> Z.pos (fst (shl_align mx ex ez)) = Z.pos mx * 2 ^ (ex - ez).
Proof.
  intros Hle. unfold shl_align.
  destruct (ez - ex) as [|d|d] eqn:Hd; try lia; cbn [fst].
  - replace (ex - ez) with 0 by lia. lia.
  - change (PosDef.Pos.iter xO mx d) with (Pos.iter xO mx d).
    rewrite iter_xO. do 2 f_equal. lia.
Qed.

(** The sum of two floats of ints, when it is below [2 ^ 53]. *)
Lemma add_exact a b :
  0 < a -> 0 < b -> a + b < 2 ^ 53 -> add (float a) (float b) = float (a + b).
Proof.
  intros Ha Hb Hab.
  assert (Ha' : 0 < a < 2 ^ 53) by lia.
  assert (Hb' : 0 < b < 2 ^ 53) by lia.
  assert (Hab' : 0 < a + b < 2 ^ 53) by lia.
  rewrite !float_normal by assumption.
  destruct (normal_mantissa a Ha') as (HA & HsA & HdA).
  destruct (normal_mantissa b Hb') as (HB & HsB & HdB).
  unfold Binary64.normal at 1 2. unfold add, SFadd. cbn [cond_Zopp].
  set (ea := Zdigits2 a - 53) in *. set (eb := Zdigits2 b - 53) in *.
  set (A := a * 2 ^ (53 - Zdigits2 a)) in *.
  set (B := b * 2 ^ (53 - Zdigits2 b)) in *.
  set (ez := Z.min ea eb).
  assert (Hez : ez <= ea /\ ez <= eb /\ ez <= 0 /\ (ez = ea \/ ez = eb))
    by (unfold ez, ea, eb; lia).
  destruct Hez as (Hza & Hzb & Hz0 & Hz).
  pose proof (shl_align_value (Z.to_pos A) ea ez Hza) as HpA.
  pose proof (shl_align_value (Z.to_pos B) eb ez Hzb) as HpB.
  rewrite Z2Pos.id in HpA, HpB by lia.
  set (pA := fst (shl_align (Z.to_pos A) ea ez)) in *.
  set (pB := fst (shl_align (Z.to_pos B) eb ez)) in *.
  assert (HsumA : Z.pos pA = a * 2 ^ (- ez)).
  { rewrite HpA. unfold A. rewrite <- Z.mul_assoc, <- Z.pow_add_r by lia.
    do 2 f_equal. unfold ea. lia. }
  assert (HsumB : Z.pos pB = b * 2 ^ (- ez)).
  { rewrite HpB. unfold B. rewrite <- Z.mul_assoc, <- Z.pow_add_r by lia.
    do 2 f_equal. unfold eb. lia. }
  assert (Hsum : Z.pos (pA + pB) = (a + b) * 2 ^ (- ez)).
  { rewrite Pos2Z.inj_add, HsumA, HsumB. ring. }
  assert (Hbits : 2 ^ 52 <= Z.pos (pA + pB)).
  { rewrite Pos2Z.inj_add.
    pose proof (Z.pow_le_mono_r 2 0 (ea - ez)) as H1.
    pose proof (Z.pow_le_mono_r 2 0 (eb - ez)) as H2.
    change (2 ^ 0) with 1 in H1, H2.
    change (2 ^ 52) with 4503599627370496 in *. nia. }
  change (Z.pos pA + Z.pos pB) with (Z.pos (pA + pB)).
  cbn [binary_normalize]. unfold binary_round, shl_align.
  change (Z.pos (digits2_pos (pA + pB))) with (Zdigits2 (Z.pos (pA + pB))).
  assert (Hdigits : 53 <= Zdigits2 (Z.pos (pA + pB))).
  { destruct (Zdigits2_bounds (Z.pos (pA + pB))) as [[_ Hhi] _]; [lia|].
    destruct (Z.le_gt_cases 53 (Zdigits2 (Z.pos (pA + pB)))) as [H|H]; [exact H|].
    pose proof (Z.pow_le_mono_r 2 (Zdigits2 (Z.pos (pA + pB))) 52). lia. }
  destruct (fexp prec emax (Zdigits2 (Z.pos (pA + pB)) + ez) - ez)
    as [|d|d] eqn:Hshift;
    try (unfold fexp, emin, prec, emax in Hshift; lia);
    rewrite Hsum; rewrite Hsum in Hbits;
    rewrite <- (Z.opp_involutive ez) at 2; apply round_int; auto; lia.
Qed.

(** A fifth of an int that is a multiple of 5, when it is below [2 ^ 53]. *)
Lemma int_truediv_5_exact k :
  0 < k < 2 ^ 53 -> int_truediv (5 * k) 5 = Some (float k).
Proof.
  intros Hk. rewrite float_normal by assumption.
  destruct k as [|p|p]; try lia.
  unfold int_truediv. cbn [Z.eqb].
  change (5 * Z.pos p) with (Z.pos (5 * p)).
  cbn [int_mantissa SFdiv xorb]. unfold SFdiv_core_binary.
  change (Zdigits2 5) with 3.
  set (d1 := Zdigits2 (Z.pos (5 * p))).
  destruct (Zdigits2_bounds (Z.pos (5 * p))) as [[Hlo Hhi] Hd1]; [lia|].
  fold d1 in Hlo, Hhi, Hd1.
  assert (Hd56 : d1 <= 56).
  { destruct (Z.le_gt_cases d1 56) as [H|H]; [exact H|].
    pose proof (Z.pow_le_mono_r 2 56 (d1 - 1)).
    change (2 ^ 56) with 72057594037927936 in *.
    change (2 ^ 53) with 9007199254740992 in *. lia. }
  replace (Z.min (fexp prec emax (d1 + 0 - (3 + 0))) (0 - 0)) with (d1 - 56)
    by (unfold fexp, emin, prec, emax; lia).
  replace (0 - 0 - (d1 - 56)) with (56 - d1) by lia.
  set (s := 56 - d1).
  assert (Hm' : match s with
                | 0 => Z.pos (5 * p)
                | Z.pos _ => Z.shiftl (Z.pos (5 * p)) s
                | Z.neg _ => 0
                end = 5 * (Z.pos p * 2 ^ s)).
  { destruct s as [|q|q] eqn:Hs; try (unfold s in Hs; lia).
    rewrite Z.shiftl_mul_pow2, Pos2Z.inj_mul by lia. ring. }
  rewrite Hm'.
  pose proof (Z_div_mod (5 * (Z.pos p * 2 ^ s)) 5 eq_refl) as Hdiv.
  destruct (Z.div_eucl (5 * (Z.pos p * 2 ^ s)) 5) as [q r].
  assert (Hq : q = Z.pos p * 2 ^ s /\ r = 0) by lia.
  destruct Hq as [-> ->].
  change (new_location 5 0) with loc_Exact.
  replace (d1 - 56) with (- s) by (unfold s; lia).
  rewrite round_int; [reflexivity | assumption | unfold s; lia |].
  assert (Hpow : 2 ^ 55 = 2 ^ (d1 - 1) * 2 ^ s).
  { rewrite <- Z.pow_add_r by (unfold s; lia). f_equal. unfold s. lia. }
  change (2 ^ 55) with 36028797018963968 in Hpow.
  change (2 ^ 52) with 4503599627370496.
  pose proof (Z.pow_pos_nonneg 2 s). 
  assert (36028797018963968 <= 5 * (Z.pos p * 2 ^ s)); [|lia].
  rewrite Hpow. change (5 * Z.pos p) with (Z.pos (5 * p)) in *.
  rewrite Z.mul_assoc. apply Z.mul_le_mono_nonneg_r; [unfold s in *; lia | exact Hlo].
Qed.

Lemma float_0 : float 0 = S754_zero false.
Proof. reflexivity. Qed.

Lemma mul_int a b :
  0 <= a < 2 ^ 53 -> 0 <= b < 2 ^ 53 -> a * b < 2 ^ 53 ->
  mul (float a) (float b) = float (a * b).
Proof.
  intros Ha Hb Hab.
  destruct (Z.eq_dec a 0) as [->|Ha0]; [|destruct (Z.eq_dec b 0) as [->|Hb0]].
  - rewrite Z.mul_0_l, float_0. destruct (Z.eq_dec b 0) as [->|Hb0].
    + reflexivity.
    + assert (Hb' : 0 < b < 2 ^ 53) by lia.
      rewrite (float_normal b Hb'). reflexivity.
  - rewrite Z.mul_0_r, float_0.
    assert (Ha' : 0 < a < 2 ^ 53) by lia.
    rewrite (float_normal a Ha'). reflexivity.
  - apply mul_exact; lia.
Qed.

Lemma add_int a b :
  0 <= a -> 0 <= b -> a + b < 2 ^ 53 -> add (float a) (float b) = float (a + b).
Proof.
  intros Ha Hb Hab.
  destruct (Z.eq_dec a 0) as [->|Ha0]; [|destruct (Z.eq_dec b 0) as [->|Hb0]].
  - rewrite Z.add_0_l, float_0. destruct (Z.eq_dec b 0) as [->|Hb0].
    + reflexivity.
    + assert (Hb' : 0 < b < 2 ^ 53) by lia.
      rewrite (float_normal b Hb'). reflexivity.
  - rewrite Z.add_0_r, float_0.
    assert (Ha' : 0 < a < 2 ^ 53) by lia.
    rewrite (float_normal a Ha'). reflexivity.
  - apply add_exact; lia.
Qed.

Lemma int_truediv_5 k : 0 <= k < 2 ^ 53 -> int_truediv (5 * k) 5 = Some (float k).
Proof.
  intros Hk. destruct (Z.eq_dec k 0) as [->|Hk0]; [reflexivity|].
  apply int_truediv_5_exact. lia.
Qed.

(** The float of an int below [2 ^ 53] stands for that int. *)
Lemma value_float n : 0 <= n < 2 ^ 53 -> (value (float n) == inject_Z n)%Q.
Proof.
  intros Hn. destruct (Z.eq_dec n 0) as [->|Hn0]; [reflexivity|].
  assert (Hn' : 0 < n < 2 ^ 53) by lia.
  destruct (normal_mantissa n Hn') as (HM & Hshift & Hd).
  rewrite (float_normal n Hn'). unfold normal, value.
  rewrite Z2Pos.id by lia.
  rewrite inject_Z_mult, Zpower_Qpower by lia.
  change (inject_Z 2) with 2%Q.
  rewrite Qmult_1_l, <- Qmult_assoc, <- Qpower_plus by discriminate.
  replace (53 - Zdigits2 n + (Zdigits2 n - 53)) with 0 by lia.
  change (2 ^ 0)%Q with 1%Q. apply Qmult_1_r.
Qed.

End Binary64Facts.

(** ** Prizes *)

(** [calculate_prizes] on four duelists or more, the loops unrolled. *)
Lemma calculate_prizes_unfold d0 d1 d2 d3 tail entry_fee :
  calculate_prizes (d0 :: d1 :: d2 :: d3 :: tail) entry_fee
  = let base_fee := (inject_Z entry_fee / 5)%Q in
    let bonus (d : Duelist) (k : Z) := if (wins d =? k)%Z then base_fee else 0%Q in
    Some [(9 * base_fee + bonus d0 4%Z)%Q; (6 * base_fee + bonus d1 3%Z)%Q;
          (3 * base_fee + bonus d2 2%Z)%Q; (0 * base_fee + bonus d3 1%Z)%Q].
Proof.
  unfold calculate_prizes. cbv zeta.
  generalize (inject_Z entry_fee / 5)%Q. intros b.
  cbn [seq for_each lookup list_lookup mbind option_bind Duelist_eq truth].
  change (4 - Z.of_nat 0)%Z with 4%Z. change (4 - Z.of_nat 1)%Z with 3%Z.
  change (4 - Z.of_nat 2)%Z with 2%Z. change (4 - Z.of_nat 3)%Z with 1%Z.
  destruct (wins d0 =? 4)%Z, (wins d1 =? 3)%Z, (wins d2 =? 2)%Z, (wins d3 =? 1)%Z;
    reflexivity.
Qed.

Ltac four_duelists duelists H :=
  destruct duelists as [|[? ? ?] [|[? ? ?] [|[? ? ?] [|[? ? ?] [|? ?]]]]];
  try discriminate H; injection H as -> -> -> ->.

(** [calculate_prizes_float] on four duelists or more and an entry fee of
    [5 * k] below [2 ^ 52]: every intermediate result is an integer below
    [2 ^ 53], and no operation rounds. *)
Lemma calculate_prizes_float_unfold d0 d1 d2 d3 tail k :
  (0 <= k)%Z -> (10 * k < 2 ^ 53)%Z ->
  calculate_prizes_float (d0 :: d1 :: d2 :: d3 :: tail) (5 * k)
  = let bonus (d : Duelist) (w : Z) := if (wins d =? w)%Z then k else 0%Z in
    Some (map Binary64.float
            [9 * k + bonus d0 4; 6 * k + bonus d1 3;
             3 * k + bonus d2 2; 0 * k + bonus d3 1]%Z).
Proof.
  intros Hk Hbound. unfold calculate_prizes_float.
  rewrite int_truediv_5 by lia.
  cbn [mbind option_bind seq for_each lookup list_lookup Duelist_eq truth map].
  change (4 - Z.of_nat 0)%Z with 4%Z. change (4 - Z.of_nat 1)%Z with 3%Z.
  change (4 - Z.of_nat 2)%Z with 2%Z. change (4 - Z.of_nat 3)%Z with 1%Z.
  cbv zeta.
  destruct (wins d0 =? 4)%Z, (wins d1 =? 3)%Z, (wins d2 =? 2)%Z, (wins d3 =? 1)%Z;
    cbn [insert list_insert zip_with map];
    rewrite !mul_int by lia; rewrite !add_int by lia; reflexivity.
Qed.

(** An entry fee that [enter_tournament_information] accepts is five times
    its fifth. *)
Lemma entry_fee_fifth entry_fee :
  (0 <= entry_fee < 2 ^ 52)%Z -> (entry_fee mod 5 = 0)%Z ->
  exists k, entry_fee = (5 * k)%Z /\ (entry_fee / 5 = k)%Z
            /\ (0 <= k)%Z /\ (10 * k < 2 ^ 53)%Z
            /\ (inject_Z entry_fee / 5 == inject_Z k)%Q.
Proof.
  intros Hfee Hmod. exists (entry_fee / 5)%Z.
  pose proof (Z_div_mod_eq_full entry_fee 5) as Hdiv.
  change (2 ^ 52)%Z with 4503599627370496%Z in Hfee.
  change (2 ^ 53)%Z with 9007199254740992%Z.
  repeat split; try lia.
  rewrite Hdiv at 1. rewrite Hmod, Z.add_0_r, inject_Z_mult.
  change (inject_Z 5) with 5%Q. field.
Qed.

(** Floats that came out without rounding stand for the numbers of the
    computation in exact arithmetic: on an entry fee that is a multiple of
    5, not negative and below [2 ^ 52], [calculate_prizes] gives the
    values of the floats of [calculate_prizes_float]. *)
Lemma calculate_prizes_float_value duelists entry_fee :
  (0 <= entry_fee < 2 ^ 52)%Z -> (entry_fee mod 5 = 0)%Z ->
  4 <= length duelists ->
  exists prizes exact_prizes,
    calculate_prizes_float duelists entry_fee = Some prizes
    /\ calculate_prizes duelists entry_fee = Some exact_prizes
    /\ Forall2 (fun prize q => Binary64.value prize == q)%Q prizes exact_prizes.
Proof.
  intros Hfee Hmod Hlen.
  destruct (entry_fee_fifth entry_fee Hfee Hmod) as (k & Hk & _ & Hpos & Hbound & Hq).
  destruct duelists as [|d0 [|d1 [|d2 [|d3 tail]]]]; try (simpl in Hlen; lia).
  pose proof (calculate_prizes_float_unfold d0 d1 d2 d3 tail k Hpos Hbound)
    as Hfloat.
  rewrite <- Hk in Hfloat. rewrite Hfloat, calculate_prizes_unfold. cbv zeta.
  eexists _, _. split; [reflexivity|]. split; [reflexivity|].
  change (2 ^ 53)%Z with 9007199254740992%Z in Hbound.
  cbn [map].
  destruct (wins d0 =? 4)%Z, (wins d1 =? 3)%Z, (wins d2 =? 2)%Z, (wins d3 =? 1)%Z;
    repeat constructor;
    (rewrite value_float
       by (change (2 ^ 53)%Z with 9007199254740992%Z; lia));
    rewrite Hq, ?inject_Z_plus, ?inject_Z_mult; cbn [inject_Z]; ring.
Qed.

(** X10. For every final standing of the table without a tie and every
    entry fee that is a multiple of 5, not negative and below [2 ^ 52],
    the prizes that Python computes in floats are the points of
    [config.py] for that standing times a fifth of the entry fee, none of
    them rounded. *)
Theorem prizes_follow_points entry_fee duelists row points :
  (0 <= entry_fee < 2 ^ 52)%Z -> (entry_fee mod 5 = 0)%Z ->
  In (row, points) final_points_no_tie ->
  map wins duelists = row ->
  exists prizes,
    calculate_prizes_float duelists entry_fee = Some prizes
    /\ prizes = map (fun p => Binary64.float (p * (entry_fee / 5))) points
    /\ Forall2 (fun prize p =>
                  Binary64.value prize == inject_Z p * (inject_Z entry_fee / 5))%Q
               prizes points.
Proof.
  intros Hfee Hmod Hrow Hwins.
  destruct (entry_fee_fifth entry_fee Hfee Hmod)
    as (k & Hk & Hdiv & Hpos & Hbound & Hq).
  rewrite Hdiv. simpl in Hrow.
  destruct Hrow as [H|[H|[H|[H|[H|[]]]]]]; injection H as <- <-;
    four_duelists duelists Hwins;
    (eexists; split;
     [rewrite Hk; apply calculate_prizes_float_unfold; assumption|]);
    cbv zeta; cbn [wins Z.eqb Pos.eqb map];
    (split; [repeat f_equal; lia|]);
    repeat constructor;
    (rewrite value_float by lia);
    rewrite Hq, ?inject_Z_plus, ?inject_Z_mult; cbn [inject_Z]; ring.
Qed.

Lemma prizes_follow_points_witness :
  exists prizes,
    calculate_prizes_float ranked_4_2_2_0 25 = Some prizes
    /\ prizes = map (fun p => Binary64.float (p * (25 / 5))) [10; 6; 4; 0]%Z
    /\ Forall2 (fun prize p =>
                  Binary64.value prize == inject_Z p * (inject_Z 25 / 5))%Q
               prizes [10; 6; 4; 0]%Z.
Proof.
  apply (prizes_follow_points 25 ranked_4_2_2_0 [4; 2; 2; 0]%Z [10; 6; 4; 0]%Z).
  - vm_compute. split; [discriminate | reflexivity].
  - reflexivity.
  - simpl. auto.
  - reflexivity.
Defined.

(** X11. For every final standing of the two tables and every entry fee
    that is a multiple of 5, not negative and below [2 ^ 52], the prizes
    that Python computes in floats add up to the four entry fees: the pool
    is paid out, no more and no less. *)
Theorem prizes_share_the_pool entry_fee duelists tied row :
  (0 <= entry_fee < 2 ^ 52)%Z -> (entry_fee mod 5 = 0)%Z ->
  In row (final_standings tied) ->
  map wins duelists = row ->
  exists prizes,
    calculate_prizes_float duelists entry_fee = Some prizes
    /\ (total_prizes (map Binary64.value prizes) == inject_Z (4 * entry_fee))%Q.
Proof.
  intros Hfee Hmod Hrow Hwins.
  destruct (entry_fee_fifth entry_fee Hfee Hmod)
    as (k & Hk & Hdiv & Hpos & Hbound & Hq).
  destruct tied; simpl in Hrow;
    repeat (destruct Hrow as [Hrow|Hrow]); try contradiction; subst row;
    four_duelists duelists Hwins;
    (eexists; split;
     [rewrite Hk; apply calculate_prizes_float_unfold; assumption|]);
    cbv zeta; cbn [wins Z.eqb Pos.eqb map];
    unfold total_prizes; cbn [foldr];
    (rewrite !value_float by lia);
    rewrite Hk, ?inject_Z_plus, ?inject_Z_mult; cbn [inject_Z]; ring.
Qed.

Lemma prizes_share_the_pool_witness :
  exists prizes,
    calculate_prizes_float (standing 3 3 2 0) 10 = Some prizes
    /\ (total_prizes (map Binary64.value prizes) == inject_Z (4 * 10))%Q.
Proof.
  apply (prizes_share_the_pool 10 (standing 3 3 2 0) true [3; 3; 2; 0]%Z).
  - vm_compute. split; [discriminate | reflexivity].
  - reflexivity.
  - simpl. auto.
  - reflexivity.
Defined.

(** X12. [calculate_prizes] needs four duelists: with fewer it ends in an
    exception whatever the entry fee, and the duelists after the fourth
    are ignored. For an entry fee that is a multiple of 5, not negative
    and below [2 ^ 52], the four prizes do not increase down the ranks,
    none is negative, and they add up to 18 to 22 fifths of the entry
    fee. *)
Theorem calculate_prizes_by_rank duelists entry_fee :
  (length duelists < 4 -> calculate_prizes_float duelists entry_fee = None)
  /\ (4 <= length duelists ->
      (0 <= entry_fee < 2 ^ 52)%Z -> (entry_fee mod 5 = 0)%Z ->
      exists p0 p1 p2 p3,
        calculate_prizes_float duelists entry_fee = Some [p0; p1; p2; p3]
        /\ calculate_prizes_float (take 4 duelists) entry_fee
           = Some [p0; p1; p2; p3]
        /\ (Binary64.value p1 <= Binary64.value p0
            /\ Binary64.value p2 <= Binary64.value p1
            /\ Binary64.value p3 <= Binary64.value p2
            /\ 0 <= Binary64.value p3)%Q
        /\ (18 * (inject_Z entry_fee / 5)
            <= total_prizes (map Binary64.value [p0; p1; p2; p3])
            <= 22 * (inject_Z entry_fee / 5))%Q).
Proof.
  split.
  - intros Hlen. unfold calculate_prizes_float.
    destruct (Binary64.int_truediv entry_fee 5) as [base_fee|]; [|reflexivity].
    destruct duelists as [|d0 [|d1 [|d2 [|d3 tail]]]];
      [reflexivity..|simpl in Hlen; lia].
  - intros Hlen Hfee Hmod.
    destruct (entry_fee_fifth entry_fee Hfee Hmod)
      as (k & Hk & Hdiv & Hpos & Hbound & Hq).
    destruct duelists as [|d0 [|d1 [|d2 [|d3 tail]]]]; try (simpl in Hlen; lia).
    change (take 4 (d0 :: d1 :: d2 :: d3 :: tail)) with [d0; d1; d2; d3].
    pose proof (calculate_prizes_float_unfold d0 d1 d2 d3 tail k Hpos Hbound)
      as Hall.
    pose proof (calculate_prizes_float_unfold d0 d1 d2 d3 [] k Hpos Hbound)
      as Hfour.
    rewrite <- Hk in Hall, Hfour. rewrite Hall, Hfour. cbv zeta. cbn [map].
    eexists _, _, _, _. split; [reflexivity|]. split; [reflexivity|].
    assert (Hk0 : (0 <= inject_Z k)%Q).
    { change 0%Q with (inject_Z 0). rewrite <- Zle_Qle. exact Hpos. }
    unfold total_prizes. cbn [map foldr]. rewrite Hq.
    destruct (wins d0 =? 4)%Z, (wins d1 =? 3)%Z, (wins d2 =? 2)%Z,
      (wins d3 =? 1)%Z;
      (rewrite !value_float by lia);
      rewrite ?inject_Z_plus, ?inject_Z_mult;
      revert Hk0; generalize (inject_Z k); intros q Hq0; unfold inject_Z;
      repeat split; lra.
Qed.

Lemma calculate_prizes_by_rank_witness :
  calculate_prizes_float (take 3 ranked_4_2_2_0) 10 = None
  /\ exists p0 p1 p2 p3,
       calculate_prizes_float (ranked_4_2_2_0 ++ entrants) 10
       = Some [p0; p1; p2; p3]
       /\ calculate_prizes_float (take 4 (ranked_4_2_2_0 ++ entrants)) 10
          = Some [p0; p1; p2; p3]
       /\ (Binary64.value p1 <= Binary64.value p0
           /\ Binary64.value p2 <= Binary64.value p1
           /\ Binary64.value p3 <= Binary64.value p2
           /\ 0 <= Binary64.value p3)%Q
       /\ (18 * (inject_Z 10 / 5)
           <= total_prizes (map Binary64.value [p0; p1; p2; p3])
           <= 22 * (inject_Z 10 / 5))%Q.
Proof.
  split.
  - apply (calculate_prizes_by_rank (take 3 ranked_4_2_2_0) 10). simpl. lia.
  - apply (calculate_prizes_by_rank (ranked_4_2_2_0 ++ entrants) 10).
    + simpl. lia.
    + vm_compute. split; [discriminate | reflexivity].
    + reflexivity.
Defined.

(** Where the floats round. With an entry fee of 3, which is no multiple
    of 5, the duelists with 4, 2, 2 and 0 wins are paid
    5.999999999999999, 3.5999999999999996, 2.4 and 0.0, where exact
    arithmetic pays 6, 18/5, 12/5 and 0; an entry fee of [10 ^ 400] ends
    in the OverflowError of the division. *)
Example calculate_prizes_float_rounds :
  calculate_prizes_float ranked_4_2_2_0 3
  = Some [S754_finite false 6755399441055743 (-50);
          S754_finite false 8106479329266892 (-51);
          S754_finite false 5404319552844595 (-51);
          S754_zero false]
  /\ (Binary64.value (S754_finite false 6755399441055743 (-50)) < 6)%Q
  /\ (exists exact_prizes,
        calculate_prizes ranked_4_2_2_0 3 = Some exact_prizes
        /\ Forall2 Qeq exact_prizes [6; 18 # 5; 12 # 5; 0]%Q)
  /\ calculate_prizes_float ranked_4_2_2_0 (10 ^ 400) = None.
Proof.
  split; [vm_compute; reflexivity|]. split; [vm_compute; reflexivity|].
  split; [|vm_compute; reflexivity].
  eexists. split; [reflexivity|]. repeat constructor; vm_compute; reflexivity.
Qed.
(** ** Normalised input *)

Ltac each_ascii c := destruct c as [[] [] [] [] [] [] [] []].

Lemma upper_char_no_space c : PyStr.isspace (PyStr.upper_char c) = PyStr.isspace c.
Proof. each_ascii c; reflexivity. Qed.

Lemma lower_char_no_space c : PyStr.isspace (PyStr.lower_char c) = PyStr.isspace c.
Proof. each_ascii c; reflexivity. Qed.

Lemma upper_char_idempotent c :
  PyStr.upper_char (PyStr.upper_char c) = PyStr.upper_char c.
Proof. each_ascii c; reflexivity. Qed.

Lemma lower_char_idempotent c :
  PyStr.lower_char (PyStr.lower_char c) = PyStr.lower_char c.
Proof. each_ascii c; reflexivity. Qed.

Lemma append_cons a w s :
  String.append (String a w) s = String a (String.append w s).
Proof. reflexivity. Qed.

Lemma append_char cur c w :
  String.append (String.append cur (String c "")) w = String.append cur (String c w).
Proof.
  induction cur as [|a cur IH]; [reflexivity|].
  rewrite !append_cons, IH. reflexivity.
Qed.

Lemma append_empty w : String.append w "" = w.
Proof.
  induction w as [|a w IH]; [reflexivity|]. rewrite append_cons, IH. reflexivity.
Qed.

Lemma no_space_append cur w :
  no_space (String.append cur w) = no_space cur && no_space w.
Proof.
  unfold no_space. induction cur as [|a cur IH]; [reflexivity|].
  rewrite append_cons. simpl. rewrite IH. apply andb_assoc.
Qed.

(** A word is read in one piece. *)
Lemma split_from_word w : forall cur s,
  no_space w = true ->
  PyStr.split_from cur (String.append w s)
  = PyStr.split_from (String.append cur w) s.
Proof.
  induction w as [|c w IH]; intros cur s Hw.
  - rewrite append_empty. reflexivity.
  - rewrite append_cons. simpl. unfold no_space in Hw. simpl in Hw. apply andb_prop in Hw as [Hc Hw].
    apply negb_true_iff in Hc. rewrite Hc. rewrite IH by exact Hw.
    rewrite append_char. reflexivity.
Qed.

Lemma split_from_end cur :
  String.eqb cur "" = false -> PyStr.split_from cur "" = [cur].
Proof. intros H. simpl. rewrite H. reflexivity. Qed.

Lemma split_from_space cur s :
  String.eqb cur "" = false ->
  PyStr.split_from cur (String.append " " s) = cur :: PyStr.split_from "" s.
Proof.
  intros H. change (String.append " " s) with (String " "%char s).
  simpl. rewrite H. reflexivity.
Qed.

(** Splitting the words joined by single spaces gives the words back. *)
Lemma split_concat words :
  Forall (fun w => is_word w = true) words ->
  PyStr.split (String.concat " " words) = words.
Proof.
  unfold PyStr.split. induction 1 as [|w words Hw Hwords IH]; [reflexivity|].
  unfold is_word in Hw. apply andb_prop in Hw as [Hne Hw].
  apply negb_true_iff in Hne. simpl String.concat.
  destruct words as [|w' words].
  - rewrite <- (append_empty w) at 1. rewrite split_from_word by exact Hw.
    change (String.append "" w) with w. apply split_from_end, Hne.
  - rewrite split_from_word by exact Hw.
    change (String.append "" w) with w.
    rewrite split_from_space by exact Hne. rewrite IH. reflexivity.
Qed.

(** [split] returns words. *)
Lemma split_from_words s : forall cur,
  no_space cur = true ->
  Forall (fun w => is_word w = true) (PyStr.split_from cur s).
Proof.
  induction s as [|c s IH]; intros cur Hcur; simpl.
  - destruct (String.eqb cur "") eqn:Hne; constructor; [|constructor].
    unfold is_word. rewrite Hne, Hcur. reflexivity.
  - destruct (PyStr.isspace c) eqn:Hc.
    + destruct (String.eqb cur "") eqn:Hne.
      * apply IH. reflexivity.
      * constructor; [|apply IH; reflexivity].
        unfold is_word. rewrite Hne, Hcur. reflexivity.
    + apply IH. rewrite no_space_append, Hcur. unfold no_space. simpl.
      rewrite Hc. reflexivity.
Qed.

Lemma capitalize_word w : is_word w = true -> is_word (PyStr.capitalize w) = true.
Proof.
  destruct w as [|c w]; [discriminate|]. unfold is_word, no_space. simpl.
  rewrite upper_char_no_space. intros [Hc Hw]%andb_prop. rewrite Hc. simpl.
  clear Hc. induction w as [|a w IH]; simpl in *; [reflexivity|].
  apply andb_prop in Hw as [Ha Hw].
  rewrite lower_char_no_space, Ha, IH by exact Hw. reflexivity.
Qed.

Lemma capitalize_idempotent w :
  PyStr.capitalize (PyStr.capitalize w) = PyStr.capitalize w.
Proof.
  destruct w as [|c w]; simpl; [reflexivity|].
  rewrite upper_char_idempotent. f_equal.
  induction w as [|a w IH]; simpl; [reflexivity|].
  rewrite lower_char_idempotent, IH. reflexivity.
Qed.

(** [capwords] is idempotent: its result is in normal form. *)
Lemma capwords_capwords s : PyStr.capwords (PyStr.capwords s) = PyStr.capwords s.
Proof.
  unfold PyStr.capwords at 1 3.
  unfold PyStr.capwords. rewrite split_concat.
  - rewrite map_map. f_equal. apply map_ext. intros w. apply capitalize_idempotent.
  - apply Forall_map. eapply Forall_impl; [|apply split_from_words; reflexivity].
    intros w. apply capitalize_word.
Qed.

Lemma supervised_input_sound conditions options stdin user_input rest :
  supervised_input conditions options stdin = Some (user_input, rest) ->
  check_conditions conditions options user_input = Some true
  /\ exists line, In line stdin /\ user_input = PyStr.capwords line.
Proof.
  revert user_input rest. induction stdin as [|l stdin IH]; intros u rest;
    simpl; [discriminate|].
  destruct (check_conditions conditions options (PyStr.capwords l))
    as [[|]|] eqn:Hcheck; simpl; [| |discriminate].
  - intros [= <- <-]. split; [exact Hcheck|]. exists l. auto.
  - intros H. apply IH in H as (Hok & line & Hin & ->).
    split; [exact Hok|]. exists line. auto.
Qed.

(** [capwords] keeps ASCII strings ASCII. *)
Lemma all_chars_append (p : ascii -> bool) a : forall b,
  PyStr.all_chars p (String.append a b)
  = PyStr.all_chars p a && PyStr.all_chars p b.
Proof.
  induction a as [|c a IH]; intros b; [reflexivity|].
  rewrite append_cons. cbn [PyStr.all_chars]. rewrite IH. apply andb_assoc.
Qed.

Lemma all_chars_map_chars (p : ascii -> bool) (f : ascii -> ascii) s :
  (forall c, p c = true -> p (f c) = true) ->
  PyStr.all_chars p s = true -> PyStr.all_chars p (PyStr.map_chars f s) = true.
Proof.
  intros Hf. induction s as [|c s IH]; [reflexivity|].
  cbn [PyStr.all_chars PyStr.map_chars]. rewrite !andb_true_iff.
  intros [Hc Hs]. auto.
Qed.

Lemma all_chars_split_from (p : ascii -> bool) s : forall cur,
  PyStr.all_chars p cur = true -> PyStr.all_chars p s = true ->
  Forall (fun w => PyStr.all_chars p w = true) (PyStr.split_from cur s).
Proof.
  induction s as [|c s IH]; intros cur Hcur Hs; cbn [PyStr.split_from].
  - destruct (String.eqb cur ""); repeat constructor; exact Hcur.
  - cbn [PyStr.all_chars] in Hs. apply andb_true_iff in Hs as [Hc Hs].
    destruct (PyStr.isspace c).
    + destruct (String.eqb cur ""); [|constructor; [exact Hcur|]];
        apply IH; auto.
    + apply IH; [|exact Hs]. rewrite all_chars_append, Hcur.
      cbn [PyStr.all_chars andb]. rewrite Hc. reflexivity.
Qed.

Lemma all_chars_concat (p : ascii -> bool) sep words :
  PyStr.all_chars p sep = true ->
  Forall (fun w => PyStr.all_chars p w = true) words ->
  PyStr.all_chars p (String.concat sep words) = true.
Proof.
  intros Hsep. induction 1 as [|w words Hw Hwords IH]; [reflexivity|].
  cbn [String.concat]. destruct words as [|w' words]; [exact Hw|].
  rewrite !all_chars_append, Hw, Hsep, IH. reflexivity.
Qed.

Lemma upper_char_ascii c :
  (PyStr.code c <? 128) = true -> (PyStr.code (PyStr.upper_char c) <? 128) = true.
Proof. each_ascii c; vm_compute; intros H; exact H. Qed.

Lemma lower_char_ascii c :
  (PyStr.code c <? 128) = true -> (PyStr.code (PyStr.lower_char c) <? 128) = true.
Proof. each_ascii c; vm_compute; intros H; exact H. Qed.

Lemma capwords_ascii s : is_ascii s = true -> is_ascii (PyStr.capwords s) = true.
Proof.
  unfold is_ascii, PyStr.capwords. intros Hs.
  apply all_chars_concat; [reflexivity|].
  apply Forall_map.
  eapply Forall_impl; [|apply all_chars_split_from; [reflexivity | exact Hs]].
  intros [|c w]; [reflexivity|]. cbn [PyStr.capitalize PyStr.all_chars].
  rewrite !andb_true_iff. intros [Hc Hw]. split.
  - apply upper_char_ascii, Hc.
  - apply all_chars_map_chars; [apply lower_char_ascii | exact Hw].
Qed.

(** X13. On input lines of ASCII characters the value [supervised_input]
    returns is ASCII and in the normal form of [capwords]: capitalised
    words joined by single spaces, no whitespace at either end, a fixed
    point of [capwords]. The second [capwords], in [Duelist.__init__],
    changes nothing then: the name of the duelist is the value returned.
    (Outside ASCII [capwords] has no such fixed points in general.) *)
Theorem supervised_input_normal_form
    conditions options stdin user_input rest addr :
  Forall (fun line => is_ascii line = true) stdin ->
  supervised_input conditions options stdin = Some (user_input, rest) ->
  is_ascii user_input = true
  /\ PyStr.capwords user_input = user_input
  /\ name (Duelist_init addr user_input) = user_input
  /\ Forall (fun w => is_word w = true /\ PyStr.capitalize w = w)
            (PyStr.split user_input)
  /\ user_input = String.concat " " (PyStr.split user_input).
Proof.
  intros Hascii H. apply supervised_input_sound in H as (_ & line & Hline & ->).
  split.
  { apply capwords_ascii. rewrite Forall_forall in Hascii. apply Hascii, Hline. }
  assert (Hwords : Forall (fun w => is_word w = true)
                          (map PyStr.capitalize (PyStr.split line))).
  { apply Forall_map. eapply Forall_impl; [|apply split_from_words; reflexivity].
    intros w. apply capitalize_word. }
  assert (Hsplit : PyStr.split (PyStr.capwords line)
                   = map PyStr.capitalize (PyStr.split line)).
  { unfold PyStr.capwords. apply split_concat, Hwords. }
  split; [apply capwords_capwords|]. split; [apply capwords_capwords|].
  rewrite Hsplit. split; [|reflexivity].
  apply Forall_map. rewrite Forall_map in Hwords.
  eapply Forall_impl; [|exact Hwords].
  intros w Hw. split; [exact Hw | apply capitalize_idempotent].
Qed.

Lemma supervised_input_normal_form_witness :
  supervised_input [alphabetical] [] ["r2 d2"; "  johann   sebastian BACH "]
  = Some ("Johann Sebastian Bach", [])
  /\ is_ascii "Johann Sebastian Bach" = true
  /\ PyStr.capwords "Johann Sebastian Bach" = "Johann Sebastian Bach"
  /\ name (Duelist_init 0 "Johann Sebastian Bach") = "Johann Sebastian Bach"
  /\ Forall (fun w => is_word w = true /\ PyStr.capitalize w = w)
            (PyStr.split "Johann Sebastian Bach")
  /\ "Johann Sebastian Bach"
     = String.concat " " (PyStr.split "Johann Sebastian Bach").
Proof.
  split; [reflexivity|].
  apply (supervised_input_normal_form [alphabetical] []
           ["r2 d2"; "  johann   sebastian BACH "] "Johann Sebastian Bach" [] 0).
  - repeat constructor.
  - reflexivity.
Defined.

(** ** The duelists entered *)

Lemma enter_candidates_consumes n : forall addr stdin candidates rest,
  enter_candidates n addr stdin = Some (candidates, rest) ->
  exists consumed, stdin = consumed ++ rest.
Proof.
  induction n as [|n IH]; intros addr stdin candidates rest; simpl.
  - intros [= <- <-]. exists []. reflexivity.
  - destruct (supervised_input _ _ stdin) as [[name_ rest1]|] eqn:Hin;
      simpl; [|discriminate].
    destruct (enter_candidates n (S addr) rest1) as [[cs rest2]|] eqn:Hrec;
      simpl; [|discriminate].
    intros [= <- <-].
    apply supervised_input_consumes in Hin as (consumed1 & -> & _).
    apply IH in Hrec as (consumed2 & ->).
    exists (consumed1 ++ consumed2). apply app_assoc.
Qed.

Lemma entered_from_app consumed rest d :
  entered_from rest d -> entered_from (consumed ++ rest) d.
Proof.
  intros (Hwins & line & Hin & Hok & Hname). split; [exact Hwins|].
  exists line. split; [apply in_or_app; auto | auto].
Qed.

Lemma enter_candidates_fresh n : forall addr stdin candidates rest,
  enter_candidates n addr stdin = Some (candidates, rest) ->
  map ident candidates = seq addr n
  /\ Forall (entered_from stdin) candidates.
Proof.
  induction n as [|n IH]; intros addr stdin candidates rest; simpl.
  - intros [= <- <-]. split; [reflexivity | constructor].
  - destruct (supervised_input _ _ stdin) as [[name_ rest1]|] eqn:Hin;
      simpl; [|discriminate].
    destruct (enter_candidates n (S addr) rest1) as [[cs rest2]|] eqn:Hrec;
      simpl; [|discriminate].
    intros [= <- <-]. apply IH in Hrec as [Hids Hall].
    pose proof (supervised_input_consumes _ _ _ _ _ Hin) as (consumed & Hstdin & _).
    apply supervised_input_sound in Hin as (Hok & line & Hline & ->).
    split; [simpl; rewrite Hids; reflexivity|].
    constructor.
    + split; [reflexivity|]. exists line. auto.
    + rewrite Hstdin. eapply Forall_impl; [|exact Hall].
      intros d. apply entered_from_app.
Qed.

Lemma enter_unique_duelists_loop_fresh fuel : forall addr stdin duelists rest,
  enter_unique_duelists_loop fuel addr stdin = Some (duelists, rest) ->
  (exists first, addr <= first /\ map ident duelists = seq first 4)
  /\ Forall (entered_from stdin) duelists.
Proof.
  induction fuel as [|fuel IH]; intros addr stdin duelists rest; [discriminate|].
  rewrite enter_unique_duelists_loop_step.
  destruct (enter_candidates 4 addr stdin) as [[cands rest1]|] eqn:Hcands;
    cbn [mbind option_bind]; [|discriminate].
  case_bool_decide as Hdup.
  - intros [= <- <-]. apply enter_candidates_fresh in Hcands as [Hids Hall].
    split; [exists addr; auto | exact Hall].
  - intros H. apply IH in H as ((first & Hfirst & Hids) & Hall).
    apply enter_candidates_consumes in Hcands as (consumed & ->).
    split; [exists first; split; [lia | exact Hids]|].
    eapply Forall_impl; [|exact Hall]. intros d. apply entered_from_app.
Qed.

(** X14. The four duelists [enter_unique_duelists] returns are four new
    objects with no win. The name of each is [capwords] of a value that
    [supervised_input] accepted: the value is [capwords] of a line of the
    input and passes the two checks, letters and spaces only and fewer
    than 30 characters. This holds whatever [capwords] and the checks do
    to a string. *)
Theorem enter_unique_duelists_fresh addr stdin duelists rest :
  enter_unique_duelists addr stdin = Some (duelists, rest) ->
  NoDup (map ident duelists)
  /\ (exists first, addr <= first /\ map ident duelists = seq first 4)
  /\ Forall (fun d =>
               wins d = 0%Z
               /\ exists line,
                    In line stdin
                    /\ check_conditions [alphabetical; less_than_30_characters] []
                         (PyStr.capwords line) = Some true
                    /\ name d = PyStr.capwords (PyStr.capwords line))
            duelists.
Proof.
  intros H. apply enter_unique_duelists_loop_fresh in H as [Hids Hall].
  split; [|split; assumption].
  destruct Hids as (first & _ & ->). apply NoDup_seq.
Qed.

Lemma enter_unique_duelists_fresh_witness :
  let stdin := ["Johann"; "Johann"; "Amadeus"; "Amadeus";
                "johann"; "johann  c"; "amadeus"; "falco"] in
  exists duelists rest,
    enter_unique_duelists 0 stdin = Some (duelists, rest)
    /\ map name duelists = ["Johann"; "Johann C"; "Amadeus"; "Falco"]
    /\ map ident duelists = [4; 5; 6; 7]
    /\ NoDup (map ident duelists)
    /\ (exists first, 0 <= first /\ map ident duelists = seq first 4)
    /\ Forall (fun d =>
                 wins d = 0%Z
                 /\ exists line,
                      In line stdin
                      /\ check_conditions [alphabetical; less_than_30_characters] []
                           (PyStr.capwords line) = Some true
                      /\ name d = PyStr.capwords (PyStr.capwords line))
              duelists.
Proof.
  intros stdin. eexists _, _. split; [vm_compute; reflexivity|].
  split; [reflexivity|]. split; [reflexivity|].
  eapply (enter_unique_duelists_fresh 0 stdin). vm_compute. reflexivity.
Defined.

(** ** The tournament information and the program *)

Lemma entry_fee_accepted options user_input :
  check_conditions entry_fee_conditions options user_input = Some true ->
  exists n, PyStr.int user_input = Some n /\ (0 <= n)%Z /\ (n mod 5 = 0)%Z.
Proof.
  unfold entry_fee_conditions. simpl. unfold _is_string_of_integer.
  destruct (PyStr.int user_input) as [n|]; simpl; [|discriminate].
  destruct (Z.eqb_spec (n mod 5) 0) as [Hmod|Hmod];
    destruct (Z.leb_spec 0 n) as [Hpos|Hneg]; simpl; try discriminate.
  intros _. exists n. auto.
Qed.

(** A shuffle of four values is a permutation of them. *)
Lemma np_random_permutation_four {A : Type} (order : list nat)
    (values shuffled : list A) :
  order ≡ₚ [0; 1; 2; 3] -> length values = 4 ->
  np_random_permutation order values = Some shuffled ->
  shuffled ≡ₚ values.
Proof.
  intros Horder Hlen. symmetry in Horder.
  apply permutations_Permutation in Horder.
  destruct values as [|v0 [|v1 [|v2 [|v3 [|? ?]]]]]; try discriminate Hlen.
  destruct order as [|x [|y [|z [|w [|? ?]]]]];
    try (apply list_elem_of_In in Horder; vm_compute in Horder;
         repeat (destruct Horder as [Horder|Horder]; try discriminate Horder);
         contradiction).
  unfold np_random_permutation.
  each_seating Horder; intros [= <-]; solve_Permutation.
Qed.

Lemma enter_unique_duelists_loop_reads fuel : forall addr stdin duelists rest,
  enter_unique_duelists_loop fuel addr stdin = Some (duelists, rest) ->
  length rest + 4 <= length stdin.
Proof.
  induction fuel as [|fuel IH]; intros addr stdin duelists rest; [discriminate|].
  rewrite enter_unique_duelists_loop_step.
  destruct (enter_candidates 4 addr stdin) as [[cands rest1]|] eqn:Hcands;
    cbn [mbind option_bind]; [|discriminate].
  apply enter_candidates_length in Hcands as [_ Hrest].
  case_bool_decide as Hdup.
  - intros [= <- <-]. exact Hrest.
  - intros H. apply IH in H. lia.
Qed.

Lemma tournament_information_facts order stdin info rest :
  order ≡ₚ [0; 1; 2; 3] ->
  enter_tournament_information order stdin = Some (info, rest) ->
  (info_decks info = Some ["Beast"; "Chaos"; "Dragon"; "Spellcaster"]
   \/ info_decks info = Some ["Dinosaur"; "Flip"; "Warrior"; "Zombie"])
  /\ ((0 <= info_entry_fee info)%Z /\ (info_entry_fee info mod 5 = 0)%Z)
  /\ (length (info_duelists info) = 4
      /\ NoDup (map name (info_duelists info))
      /\ Forall (fun d => wins d = 0%Z) (info_duelists info))
  /\ length rest + 6 <= length stdin.
Proof.
  intros Horder H. unfold enter_tournament_information in H.
  invert_bind H. destruct v as [format_input stdin1].
  invert_bind H. destruct v as [fee_input stdin2].
  invert_bind H. rename v into entry_fee.
  invert_bind H. destruct v as [entered stdin3].
  invert_bind H. rename v into shuffled. injection H as <- <-.
  cbn [info_decks info_entry_fee info_duelists].
  pose proof (supervised_input_shorter _ _ _ _ _ Hv) as Hread1.
  pose proof (supervised_input_shorter _ _ _ _ _ Hv0) as Hread2.
  pose proof (enter_unique_duelists_loop_reads _ _ _ _ _ Hv2) as Hread3.
  apply supervised_input_choose_from in Hv.
  apply supervised_input_sound in Hv0 as (Hfee & _).
  apply entry_fee_accepted in Hfee as (n & Hn & Hpos & Hmod).
  rewrite Hn in Hv1. injection Hv1 as <-.
  pose proof (enter_unique_duelists_loop_distinct _ _ _ _ _ Hv2) as [Hlen Hnames].
  apply enter_unique_duelists_loop_fresh in Hv2 as [_ Hall].
  apply (np_random_permutation_four _ _ _ Horder Hlen) in Hv3.
  split.
  { apply elem_of_cons in Hv as [->|Hv];
      [|apply list_elem_of_singleton in Hv as ->]; auto. }
  split; [auto|]. split; [|lia].
  rewrite Hv3. repeat split; try assumption.
  eapply Forall_impl; [|exact Hall]. intros d [Hd _]. exact Hd.
Qed.

(** X15. What [enter_tournament_information] returns: one of the two sets
    of four decks, never [None]; an entry fee that is a multiple of 5 and
    not negative; four duelists with pairwise distinct names and no win,
    the duelists entered in the order of the shuffle. At least six lines
    are read. *)
Theorem enter_tournament_information_valid order stdin info rest :
  order ≡ₚ [0; 1; 2; 3] ->
  enter_tournament_information order stdin = Some (info, rest) ->
  (info_decks info = Some ["Beast"; "Chaos"; "Dragon"; "Spellcaster"]
   \/ info_decks info = Some ["Dinosaur"; "Flip"; "Warrior"; "Zombie"])
  /\ (0 <= info_entry_fee info)%Z /\ (info_entry_fee info mod 5 = 0)%Z
  /\ length (info_duelists info) = 4
  /\ NoDup (map name (info_duelists info))
  /\ Forall (fun d => wins d = 0%Z) (info_duelists info)
  /\ length rest + 6 <= length stdin.
Proof.
  intros Horder H.
  destruct (tournament_information_facts _ _ _ _ Horder H)
    as (Hdecks & [Hpos Hmod] & (Hlen & Hnames & Hwins) & Hread).
  repeat split; assumption.
Qed.

Lemma enter_tournament_information_valid_witness :
  let stdin := ["extra"; "ten"; "10"; "ann"; "bob"; "cid"; "dan"; "bob"] in
  exists info rest,
    enter_tournament_information [2; 0; 3; 1] stdin = Some (info, rest)
    /\ map name (info_duelists info) = ["Cid"; "Ann"; "Dan"; "Bob"]
    /\ rest = ["bob"]
    /\ (info_decks info = Some ["Beast"; "Chaos"; "Dragon"; "Spellcaster"]
        \/ info_decks info = Some ["Dinosaur"; "Flip"; "Warrior"; "Zombie"])
    /\ (0 <= info_entry_fee info)%Z /\ (info_entry_fee info mod 5 = 0)%Z
    /\ length (info_duelists info) = 4
    /\ NoDup (map name (info_duelists info))
    /\ Forall (fun d => wins d = 0%Z) (info_duelists info)
    /\ length rest + 6 <= length stdin.
Proof.
  intros stdin. eexists _, _. split; [vm_compute; reflexivity|].
  split; [reflexivity|]. split; [reflexivity|].
  eapply (enter_tournament_information_valid [2; 0; 3; 1] stdin).
  - apply (proj1 (permutations_Permutation _ _)).
    apply (proj1 (bool_decide_eq_true _)). vm_compute. reflexivity.
  - vm_compute. reflexivity.
Defined.

Lemma final_round_standing
    matchup decks entropy duelists3 stdin3 shown duelists4 stdin4 :
  In (map wins duelists3) (preliminary_outcomes 3) ->
  length duelists3 = 4 -> NoDup (map name duelists3) ->
  play_round matchup decks entropy final_round (duelists3, stdin3)
  = Some (shown, (duelists4, stdin4)) ->
  is_standing (final_standings (is_tied duelists3)) (map wins duelists4) = true.
Proof.
  intros Hreach Hlen3 Hnd3 Hfinal.
  pose proof (play_round_outcome _ _ _ _ _ _ _ _ _ Hlen3 Hnd3 Hfinal) as Hout.
  pose proof (final_round_seating _ _ _ _ _ _ _ Hfinal) as Hseats.
  rewrite <- is_tied_anonymous.
  assert (Hcheck : final_standings_check = true) by (vm_compute; reflexivity).
  unfold final_standings_check in Hcheck.
  rewrite forallb_forall in Hcheck. specialize (Hcheck _ Hreach).
  rewrite forallb_forall in Hcheck. specialize (Hcheck _ Hseats).
  rewrite forallb_forall in Hcheck. apply Hcheck, Hout.
Qed.

(** X16. The program run as a script: when it ends it has read at least
    14 lines (the format, the entry fee, four names, eight winners), shown
    four rounds, and the four duelists, whose names are distinct, hold 8
    wins in all, distributed as a row of the final tables of [config.py]. *)
Theorem main_plays_a_tournament
    fuel rng order entropy stdin square_ log duelists' stdin' :
  order ≡ₚ [0; 1; 2; 3] ->
  main fuel rng order entropy stdin = Some (square_, log, duelists', stdin') ->
  length log = 4
  /\ length duelists' = 4
  /\ NoDup (map name duelists')
  /\ total_wins duelists' = 8%Z
  /\ (exists tied row,
        In row (final_standings tied) /\ map wins duelists' ≡ₚ row)
  /\ length stdin' + 14 <= length stdin.
Proof.
  intros Horder Hmain. unfold main in Hmain.
  invert_bind Hmain. destruct v as [info stdin1].
  invert_bind Hmain. rename v into decks.
  destruct (tournament_information_facts _ _ _ _ Horder Hv)
    as (_ & _ & (Hlen & Hnames & Hzero) & Hread).
  unfold timeless in Hmain.
  invert_bind Hmain. destruct v as [sq k].
  invert_bind Hmain. destruct v as [log' [ds' stdin'']].
  injection Hmain as <- <- <- <-.
  pose proof (play_rounds_invariant _ _ _ _ _ _ _ _ _ Hlen Hnames Hv2)
    as (Hlen' & Hnames' & Htotal & Hlog).
  pose proof (play_rounds_consumes _ _ _ _ _ _ _ _ _ Hv2) as (consumed & E & Hc).
  rewrite (total_wins_zero _ Hzero) in Htotal.
  change (seq 0 4) with (seq 0 3 ++ [final_round]) in Hv2.
  apply play_rounds_app in Hv2 as (log3 & [d3 i3] & log4 & H3 & H4 & ->).
  apply (preliminary_reach _ _ _ _ _ Hlen Hnames Hzero) in H3
    as (Hreach & Hlen3 & Hnames3); [|lia].
  cbn [play_rounds] in H4.
  invert_bind H4. destruct v as [shown [d4 i4]]. injection H4 as <- <- <-.
  apply final_round_standing in Hv2; [|assumption..|rewrite Hnames3; exact Hnames].
  apply is_standing_row in Hv2 as (row & Hrow & Hperm).
  split; [exact Hlog|]. split; [exact Hlen'|].
  split; [rewrite Hnames'; exact Hnames|].
  split; [rewrite Htotal; reflexivity|].
  split; [exists (is_tied d3), row; auto|].
  rewrite E, length_app in Hread. simpl in Hc. lia.
Qed.

Lemma main_plays_a_tournament_witness :
  let stdin := ["Basic"; "10"; "cid"; "ann"; "dan"; "bob"]
               ++ preliminary_winners ++ ["ann"; "cid"] in
  exists square_ log duelists' stdin',
    main 1 docstring_rng [1; 3; 0; 2] 0 stdin
    = Some (square_, log, duelists', stdin')
    /\ map name duelists' = ["Ann"; "Bob"; "Cid"; "Dan"]
    /\ map wins duelists' = [4; 2; 2; 0]%Z
    /\ length log = 4
    /\ length duelists' = 4
    /\ NoDup (map name duelists')
    /\ total_wins duelists' = 8%Z
    /\ (exists tied row,
          In row (final_standings tied) /\ map wins duelists' ≡ₚ row)
    /\ length stdin' + 14 <= length stdin.
Proof.
  intros stdin. eexists _, _, _, _. split; [vm_compute; reflexivity|].
  split; [reflexivity|]. split; [reflexivity|].
  eapply (main_plays_a_tournament 1 docstring_rng [1; 3; 0; 2] 0 stdin).
  - apply (proj1 (permutations_Permutation _ _)).
    apply (proj1 (bool_decide_eq_true _)). vm_compute. reflexivity.
  - vm_compute. reflexivity.
Defined.

(** ** Comparing duelists *)

(** X17. [<] between duelists is the strict order of the win counts and is
    not defined against an integer, which [==] accepts. Two distinct
    duelists with as many wins are neither smaller nor greater nor equal:
    [==] and [<] do not make a total order. *)
Theorem Duelist_lt_by_wins (a b c : Duelist) (k : Z) :
  ident a <> ident b -> wins a = wins b ->
  (truth (Duelist_lt a (VDuelist b)) = false
   /\ truth (Duelist_lt b (VDuelist a)) = false
   /\ truth (Duelist_eq a (VDuelist b)) = false)
  /\ (lt_duelist a c = true <-> (wins a < wins c)%Z)
  /\ (lt_duelist a c = true -> lt_duelist c a = false)
  /\ (lt_duelist a c = true -> lt_duelist b c = true)
  /\ Duelist_lt a (VInt k) = NotImplemented
  /\ Duelist_eq a (VInt k) = Is (wins a =? k)%Z.
Proof.
  intros Hid Hwins. unfold lt_duelist. simpl.
  split; [|split; [|split; [|split; [|split]]]].
  - rewrite Hwins, Z.ltb_irrefl. repeat split. apply Nat.eqb_neq, Hid.
  - apply Z.ltb_lt.
  - intros H%Z.ltb_lt. apply Z.ltb_ge. lia.
  - rewrite Hwins. auto.
  - reflexivity.
  - reflexivity.
Qed.

Lemma Duelist_lt_by_wins_witness :
  let ann := {| ident := 0; name := "Ann"; wins := 2 |} in
  let bob := {| ident := 1; name := "Bob"; wins := 2 |} in
  let cid := {| ident := 2; name := "Cid"; wins := 3 |} in
  (truth (Duelist_lt ann (VDuelist bob)) = false
   /\ truth (Duelist_lt bob (VDuelist ann)) = false
   /\ truth (Duelist_eq ann (VDuelist bob)) = false)
  /\ (lt_duelist ann cid = true <-> (wins ann < wins cid)%Z)
  /\ (lt_duelist ann cid = true -> lt_duelist cid ann = false)
  /\ (lt_duelist ann cid = true -> lt_duelist bob cid = true)
  /\ Duelist_lt ann (VInt 2) = NotImplemented
  /\ Duelist_eq ann (VInt 2) = Is (wins ann =? 2)%Z.
Proof.
  intros ann bob cid. apply (Duelist_lt_by_wins ann bob cid 2).
  - simpl. lia.
  - reflexivity.
Defined.

(** ** The user interface *)

(** X18. The checks of [interface.py] are stricter than those of
    [timeless.py]: an input that passes conditions of the interface passes
    their counterparts, ['less_than_30_characters'] for
    ['less_than_25_characters'] and ['multiple_of_5'] for
    ['multiple_of_10']; "5" shows that the converse fails. *)
Theorem interface_checks_are_stricter conditions options user_input :
  (Interface.check_conditions conditions options user_input = Some true ->
   check_conditions (map counterpart conditions) options user_input = Some true)
  /\ check_conditions [multiple_of_5] [] "5" = Some true
  /\ Interface.check_conditions [Interface.multiple_of_10] [] "5" = Some false.
Proof.
  split; [|split; reflexivity].
  induction conditions as [|c cs IH]; [reflexivity|].
  cbn [map check_conditions Interface.check_conditions].
  destruct (Interface.condition_checks c options user_input) as [[|]|] eqn:Hc;
    cbn [mbind option_bind]; try discriminate.
  intros Hcs. apply IH in Hcs.
  assert (Hc' : condition_checks (counterpart c) options user_input = Some true).
  { destruct c; cbn [counterpart condition_checks Interface.condition_checks]
      in Hc |- *; try exact Hc.
    - injection Hc as Hc. apply Nat.ltb_lt in Hc. f_equal. apply Nat.ltb_lt. lia.
    - destruct (PyStr.int user_input) as [n|]; cbn [mbind option_bind] in Hc |- *;
        [|discriminate].
      injection Hc as Hc. apply andb_prop in Hc as [Hmod Hpos].
      apply Z.eqb_eq in Hmod. f_equal. rewrite Hpos, andb_true_r.
      apply Z.eqb_eq. Z.to_euclidean_division_equations. lia. }
  rewrite Hc'. cbn [mbind option_bind]. exact Hcs.
Qed.

Lemma interface_checks_are_stricter_witness :
  check_conditions
    (map counterpart [Interface.integer; Interface.multiple_of_10;
                      Interface.less_than_25_characters]) [] "120"
  = Some true.
Proof.
  destruct (interface_checks_are_stricter
              [Interface.integer; Interface.multiple_of_10;
               Interface.less_than_25_characters] [] "120") as [Hstrict _].
  apply Hstrict. reflexivity.
Defined.

(** X19. [typewriter] prints the text, character by character and
    unchanged, whatever [ignore_whitespaces] is; it sleeps once after every
    character, the spaces excepted when [ignore_whitespaces] is set. *)
Theorem typewriter_prints_the_text text ignore_whitespaces :
  printed (Interface.typewriter text ignore_whitespaces) = text
  /\ sleeps (Interface.typewriter text ignore_whitespaces)
     + (if ignore_whitespaces then count_spaces text else 0)
     = String.length text.
Proof.
  induction text as [|c text [IHp IHs]]; [destruct ignore_whitespaces; auto|].
  cbn [Interface.typewriter].
  destruct ignore_whitespaces; cbn [andb].
  - destruct (Ascii.eqb c " ") eqn:Hc; cbn [printed sleeps count_spaces String.length];
      rewrite ?Hc, IHp; split; try reflexivity; lia.
  - cbn [printed sleeps String.length]. rewrite IHp. split; [reflexivity | lia].
Qed.

Lemma length_append a b :
  String.length (String.append a b) = String.length a + String.length b.
Proof.
  induction a as [|c a IH]; [reflexivity|].
  rewrite append_cons. simpl. rewrite IH. reflexivity.
Qed.

Lemma length_spaces n : String.length (Interface.spaces n) = n.
Proof. induction n as [|n IH]; simpl; [reflexivity|]. rewrite IH. reflexivity. Qed.

Lemma spaces_add a b :
  String.append (Interface.spaces a) (Interface.spaces b) = Interface.spaces (a + b).
Proof.
  induction a as [|a IH]; [reflexivity|].
  cbn [Interface.spaces Nat.add]. rewrite append_cons, IH. reflexivity.
Qed.

Lemma append_assoc a b c :
  String.append (String.append a b) c = String.append a (String.append b c).
Proof.
  induction a as [|x a IH]; [reflexivity|].
  rewrite !append_cons, IH. reflexivity.
Qed.

Lemma max_length_bound rows row :
  In row rows -> String.length row <= Interface.max_length rows.
Proof.
  unfold Interface.max_length.
  induction rows as [|r rows IH]; simpl; [contradiction|].
  intros [->|Hin]; [lia|]. apply IH in Hin. lia.
Qed.

(** A row that fits in [width] is centred as it is padded: the margin on
    the left depends on the widths only. *)
Lemma center_ljust row width line_width :
  String.length row <= width ->
  let left :=
    if line_width <=? width then 0
    else (line_width - width) / 2
         + (if Nat.odd (line_width - width) && Nat.odd line_width then 1 else 0) in
  exists right,
    Interface.center (Interface.ljust row width) line_width
    = String.append (Interface.spaces left)
        (String.append row (Interface.spaces right))
    /\ left + String.length row + right = Nat.max line_width width.
Proof.
  intros Hrow. cbv zeta.
  assert (Hlen : String.length (Interface.ljust row width) = width).
  { unfold Interface.ljust. rewrite length_append, length_spaces. lia. }
  unfold Interface.center. rewrite Hlen.
  destruct (Nat.leb_spec line_width width) as [Hfit|Hwide].
  - exists (width - String.length row). split; [reflexivity | lia].
  - set (marg := line_width - width).
    set (left := marg / 2 + (if Nat.odd marg && Nat.odd line_width then 1 else 0)).
    assert (Hleft : left <= marg).
    { subst left. destruct (Nat.odd marg && Nat.odd line_width).
      - assert (1 <= marg) by (subst marg; lia).
        pose proof (Nat.div_mod_eq marg 2).
        pose proof (Nat.mod_upper_bound marg 2 ltac:(lia)). lia.
      - pose proof (Nat.div_mod_eq marg 2). lia. }
    exists (width - String.length row + (marg - left)).
    unfold Interface.ljust. rewrite append_assoc, spaces_add.
    split; [reflexivity | subst marg; lia].
Qed.

(** X20. [print_centered_table] prints the rows of the table, then an
    empty line. Every row is printed with the same margin on its left and
    padded on its right, so that the columns of the table stay aligned,
    and the lines all have the length of the longest row, or the width of
    the line when that is greater. *)
Theorem print_centered_table_aligned table line_width :
  let rows := Interface.split_lines table in
  let lines := Interface.print_centered_table table line_width in
  exists left,
    length lines = S (length rows)
    /\ lines !! length rows = Some ""
    /\ forall i row,
         rows !! i = Some row ->
         exists right,
           lines !! i
           = Some (String.append (Interface.spaces left)
                     (String.append row (Interface.spaces right)))
           /\ left + String.length row + right
              = Nat.max line_width (Interface.max_length rows).
Proof.
  cbv zeta. unfold Interface.print_centered_table.
  set (rows := Interface.split_lines table).
  set (width := Interface.max_length rows).
  exists (if line_width <=? width then 0
          else (line_width - width) / 2
               + (if Nat.odd (line_width - width) && Nat.odd line_width
                  then 1 else 0)).
  split; [rewrite length_app, length_map; simpl; lia|].
  split.
  { rewrite lookup_app_r by (rewrite length_map; lia).
    rewrite length_map, Nat.sub_diag. reflexivity. }
  intros i row Hrow.
  assert (Hin : In row rows).
  { apply list_elem_of_In. eapply list_elem_of_lookup_2, Hrow. }
  destruct (center_ljust row width line_width (max_length_bound _ _ Hin))
    as (right & Hline & Hsum).
  exists right. split; [|exact Hsum].
  rewrite lookup_app_l by (rewrite length_map; eapply lookup_lt_Some, Hrow).
  change (map ?f rows) with (f <$> rows).
  rewrite list_lookup_fmap, Hrow. simpl. f_equal. exact Hline.
Qed.

Example print_centered_table_example :
  Interface.print_centered_table "Ann (Beast)  VS  Bob (Chaos)
Cid (Flip)   VS  Dan" 33
  = ["   Ann (Beast)  VS  Bob (Chaos)  ";
     "   Cid (Flip)   VS  Dan          "; ""].
Proof. vm_compute. reflexivity. Qed.

(** ** Preliminary rounds *)

(** X21. A preliminary round is fixed by the square and the decks: its
    seats are the configuration of the round and its decks are read off
    the square, whatever the duelists, their wins, the winners typed and
    the entropy of the tie-break. Two runs of the round show the same seats
    and deal the same decks. *)
Theorem preliminary_round_is_fixed
    matchup decks round_ entropy1 entropy2 duelists1 duelists2
    stdin1 stdin2 shown1 shown2 state1 state2 :
  round_ < 3 ->
  play_round matchup decks entropy1 round_ (duelists1, stdin1)
  = Some (shown1, state1) ->
  play_round matchup decks entropy2 round_ (duelists2, stdin2)
  = Some (shown2, state2) ->
  pairing_configurations !! round_ ≫= unpack4 = Some (seats shown1)
  /\ seats shown1 = seats shown2
  /\ dealt shown1 = dealt shown2.
Proof.
  intros Hprelim H1 H2.
  destruct state1 as [d1' i1'], state2 as [d2' i2'].
  apply play_round_inv in H1
    as (x & y & z & w & deck_x & deck_y & deck_z & deck_w & ? & ? & ? & ?
        & ? & ? & ? & -> & [(Hf & _)|(_ & E1 & Dx & Dy & Dz & Dw)] & _);
    [unfold final_round in Hf; lia|].
  apply play_round_inv in H2
    as (x' & y' & z' & w' & deck_x' & deck_y' & deck_z' & deck_w' & ? & ? & ? & ?
        & ? & ? & ? & -> & [(Hf & _)|(_ & E2 & Dx' & Dy' & Dz' & Dw')] & _);
    [unfold final_round in Hf; lia|].
  cbn [seats dealt]. rewrite E1 in E2. injection E2 as <- <- <- <-.
  split; [exact E1|]. split; [reflexivity|]. congruence.
Qed.

Lemma preliminary_round_is_fixed_witness :
  exists shown1 state1 shown2 state2,
    play_round docstring_square decks_basic 0 1 (entrants, ["bob"; "ann"])
    = Some (shown1, state1)
    /\ play_round docstring_square decks_basic 2 1
         (standing 1 0 1 0, ["x"; "dan"; "cid"]) = Some (shown2, state2)
    /\ pairing_configurations !! 1 ≫= unpack4 = Some (seats shown1)
    /\ seats shown1 = seats shown2
    /\ dealt shown1 = dealt shown2.
Proof.
  eexists _, _, _, _. split; [vm_compute; reflexivity|].
  split; [vm_compute; reflexivity|].
  eapply (preliminary_round_is_fixed docstring_square decks_basic 1 0 2
            entrants (standing 1 0 1 0) ["bob"; "ann"] ["x"; "dan"; "cid"]).
  - lia.
  - vm_compute. reflexivity.
  - vm_compute. reflexivity.
Defined.
